(** * Verification of the expression parser (lexer, parser, evaluator)

    A shallow embedding of the Go package [expressionparser]: the lexer
    ([NewLexer], [readChar], [NextToken], [readNumber]), the recursive
    descent parser ([NewParser], [Parse], [parseExpr], [parseTerm],
    [parseFactor], [parseNumber]) and the evaluator ([Eval]).

    Conventions.
    - A Go [string] is a sequence of bytes: [String.string].
    - [int] and [rune] values are integers [Z].  The only [int] of the
      program is the cursor [pos]; it starts at 0 and is only incremented,
      and it never exceeds [len input + 1] on a lexer made by [NewLexer]
      (lemma [pos_le_len]), so the increments never overflow.
    - A run-time panic (index or slice out of range) is the value [None]
      of the lexer functions and [Panics] of the parser functions.
    - The functions are first given on values: a method takes the value
      of its receiver and returns the new one.  [Imperative] gives them
      again on a store of objects, through pointers, and the two are
      proved to agree ([ParseString_store]).
    - [float64] is IEEE-754 binary64, as specified by [SpecFloat]
      with [prec = 53] and [emax = 1024], rounding to nearest even. *)

From Stdlib Require Import ZArith QArith Bool List String Ascii Lia Sorted.
From Stdlib Require Import Floats.SpecFloat.
From Equations Require Import Equations.
From Equations.Prop Require Import Logic.
Import ListNotations.

Local Open Scope string_scope.
Local Open Scope Z_scope.

(* ------------------------------------------------------------------ *)
(** ** Go strings, bytes and runes *)

Module GoString.

Definition rune := Z.

(** [rune(b)] for a byte [b]. *)
Definition rune_of_byte (b : ascii) : rune := Z.of_N (N_of_ascii b).

(** [len(s)]. *)
Definition len (s : string) : Z := Z.of_nat (String.length s).

(** [s[i]]; [None] is the index-out-of-range panic. *)
Definition index (s : string) (i : Z) : option ascii :=
  if i <? 0 then None else String.get (Z.to_nat i) s.

(** [s[a:b]]; [None] is the slice-bounds-out-of-range panic. *)
Definition slice (s : string) (a b : Z) : option string :=
  if (0 <=? a) && (a <=? b) && (b <=? len s)
  then Some (String.substring (Z.to_nat a) (Z.to_nat (b - a)) s)
  else None.

(** [unicode.IsSpace]: the Unicode White_Space property. *)
Definition IsSpace (r : rune) : bool :=
  ((9 <=? r) && (r <=? 13)) || (r =? 32) || (r =? 133) || (r =? 160)
  || (r =? 5760) || ((8192 <=? r) && (r <=? 8202))
  || (r =? 8232) || (r =? 8233) || (r =? 8239) || (r =? 8287)
  || (r =? 12288).

(** [unicode.IsDigit] on the Latin-1 range, ['0' <= r && r <= '9'].
    The lookahead of a lexer is always [0] or [rune(b)] for a byte [b]
    (lemma [ch_byte]), so the decimal digits of other scripts,
    which lie above U+00FF, are never looked up. *)
Definition IsDigit (r : rune) : bool := (48 <=? r) && (r <=? 57).

Definition byte_of_Z (z : Z) : ascii := ascii_of_N (Z.to_N z).

(** [utf8.EncodeRune]: what the verb [%c] prints for a rune. *)
Definition encodeRune (r : rune) : string :=
  if (r <? 0) || (1114111 <? r) || ((55296 <=? r) && (r <=? 57343))
  then String (byte_of_Z 239) (String (byte_of_Z 191) (String (byte_of_Z 189) ""))
  else if r <=? 127 then String (byte_of_Z r) ""
  else if r <=? 2047 then
    String (byte_of_Z (Z.lor 192 (Z.shiftr r 6)))
      (String (byte_of_Z (Z.lor 128 (Z.land r 63))) "")
  else if r <=? 65535 then
    String (byte_of_Z (Z.lor 224 (Z.shiftr r 12)))
      (String (byte_of_Z (Z.lor 128 (Z.land (Z.shiftr r 6) 63)))
         (String (byte_of_Z (Z.lor 128 (Z.land r 63))) ""))
  else
    String (byte_of_Z (Z.lor 240 (Z.shiftr r 18)))
      (String (byte_of_Z (Z.lor 128 (Z.land (Z.shiftr r 12) 63)))
         (String (byte_of_Z (Z.lor 128 (Z.land (Z.shiftr r 6) 63)))
            (String (byte_of_Z (Z.lor 128 (Z.land r 63))) ""))).

(** Decimal rendering of a non-negative integer, as [%v] prints an int. *)
Fixpoint decimal_pos (fuel : nat) (n : Z) (acc : string) : string :=
  match fuel with
  | O => acc
  | S fuel' =>
      let acc' := String (byte_of_Z (48 + n mod 10)) acc in
      if n / 10 =? 0 then acc' else decimal_pos fuel' (n / 10) acc'
  end.

Definition decimal (n : Z) : string := decimal_pos (S (Z.to_nat n)) n "".

End GoString.
Import GoString.

(* ------------------------------------------------------------------ *)
(** ** Tokens *)

Inductive TokenType : Type :=
  EOF | NUMBER | PLUS | MINUS | MULT | DIV | LPAREN | RPAREN | INVALID.

(** The [iota] value of a token type. *)
Definition TokenType_int (t : TokenType) : Z :=
  match t with
  | EOF => 0 | NUMBER => 1 | PLUS => 2 | MINUS => 3 | MULT => 4
  | DIV => 5 | LPAREN => 6 | RPAREN => 7 | INVALID => 8
  end.

Record Token : Type := mkToken { Type_ : TokenType; Value : string }.

(** The zero value [Token{}]. *)
Definition Token_zero : Token := mkToken EOF "".

(* ------------------------------------------------------------------ *)
(** ** The lexer *)

Record Lexer : Type := mkLexer { input : string; pos : Z; ch : rune }.

(** [readChar]: load the byte under the cursor, or 0 past the end, then
    advance the cursor. *)
Definition readChar (l : Lexer) : option Lexer :=
  if len (input l) <=? pos l then
    Some (mkLexer (input l) (pos l + 1) 0)
  else
    match index (input l) (pos l) with
    | Some b => Some (mkLexer (input l) (pos l + 1) (rune_of_byte b))
    | None => None
    end.

(** [NewLexer]: the cursor at 0, then one [readChar]. *)
Definition NewLexer (inp : string) : option Lexer :=
  readChar (mkLexer inp 0 0).

(** The measure that makes the loops [for cond(l.ch) { l.readChar() }]
    terminate: the bytes left, plus one while the condition holds. *)
Definition loop_measure (cond : rune -> bool) (l : Lexer) : nat :=
  (Z.to_nat (len (input l) - pos l) + (if cond (ch l) then 1 else 0))%nat.

(** A character class that does not contain the end-of-input rune 0. *)
Record charclass : Type := mkClass { holds :> rune -> bool; holds_0 : holds 0 = false }.

Definition spaces : charclass := mkClass IsSpace eq_refl.
Definition digits : charclass := mkClass IsDigit eq_refl.

(** [for cond(l.ch) { l.readChar() }] *)
Equations? readWhile (cond : charclass) (l : Lexer) : option Lexer
  by wf (loop_measure cond l) lt :=
  readWhile cond l with inspect (cond (ch l)) := {
    | exist _ false _ => Some l
    | exist _ true Hc with inspect (readChar l) := {
        | exist _ (Some l') Hr => readWhile cond l'
        | exist _ None _ => None } }.
Proof.
  pose proof (holds_0 cond) as H0.
  unfold readChar in Hr. unfold loop_measure.
  destruct (len (input l) <=? pos l) eqn:E.
  - injection Hr as <-. cbn [input pos ch]. rewrite H0, Hc.
    apply Z.leb_le in E. lia.
  - destruct (index (input l) (pos l)) as [b|] eqn:I; [|discriminate].
    injection Hr as <-. cbn [input pos ch]. rewrite Hc.
    apply Z.leb_gt in E.
    unfold index in I. destruct (pos l <? 0) eqn:N; [discriminate|].
    apply Z.ltb_ge in N.
    destruct (holds cond (rune_of_byte b)); lia.
Qed.

(** [readNumber]: the digits from the lookahead on, as a substring. *)
Definition readNumber (l : Lexer) : option (string * Lexer) :=
  let start := pos l - 1 in
  match readWhile digits l with
  | Some l' =>
      match slice (input l') start (pos l' - 1) with
      | Some s => Some (s, l')
      | None => None
      end
  | None => None
  end.

(** The [switch l.ch] of [NextToken]. *)
Definition symbolToken (c : rune) : Token :=
  if c =? 43 then mkToken PLUS "+"
  else if c =? 45 then mkToken MINUS "-"
  else if c =? 42 then mkToken MULT "*"
  else if c =? 47 then mkToken DIV "/"
  else if c =? 40 then mkToken LPAREN "("
  else if c =? 41 then mkToken RPAREN ")"
  else mkToken INVALID ("Invalid character: " ++ encodeRune c).

Definition NextToken (l : Lexer) : option (Token * Lexer) :=
  match readWhile spaces l with
  | None => None
  | Some l1 =>
      if ch l1 =? 0 then Some (mkToken EOF "", l1)
      else if IsDigit (ch l1) then
        match readNumber l1 with
        | Some (s, l2) => Some (mkToken NUMBER s, l2)
        | None => None
        end
      else
        let tok := symbolToken (ch l1) in
        match readChar l1 with
        | Some l2 => Some (tok, l2)
        | None => None
        end
  end.

(* ------------------------------------------------------------------ *)
(** ** float64 *)

Module Float64.

Definition float64 := spec_float.
Definition prec : Z := 53.
Definition emax : Z := 1024.

Definition zero : float64 := S754_zero false.
Definition add : float64 -> float64 -> float64 := SFadd prec emax.
Definition sub : float64 -> float64 -> float64 := SFsub prec emax.
Definition mul : float64 -> float64 -> float64 := SFmul prec emax.
Definition div : float64 -> float64 -> float64 := SFdiv prec emax.
(** The Go comparison [x == y]. *)
Definition eqb : float64 -> float64 -> bool := SFeqb.

(** The float64 nearest to an integer, ties to even; an infinity when
    the integer is beyond the largest finite float64. *)
Definition of_Z (n : Z) : float64 := binary_normalize prec emax n 0 false.

Definition is_finite (x : float64) : bool :=
  match x with
  | S754_zero _ | S754_finite _ _ _ => true
  | _ => false
  end.

End Float64.
Import Float64.

(* ------------------------------------------------------------------ *)
(** ** Expression trees and the evaluator *)

(** The Go type [error]: [None] is [nil]. *)
Definition error := option string.

(** [Expr] is [interface{}].  [Number] and [BinaryOp] are the node types
    [*Number] and [*BinaryOp], pointers to a node that is there; [Nil]
    is the nil interface, which the parser returns next to an error (a
    value of a dynamic type other than these two pointer types takes
    the same [default] branch of [Eval]).  The parser builds no nil
    pointer; [AnyExpr] below has the values that hold one, on which
    [Eval] panics. *)
Inductive Expr : Type :=
| Number (v : float64)
| BinaryOp (Left : Expr) (Op : Token) (Right : Expr)
| Nil.

Fixpoint Eval (expr : Expr) : float64 * error :=
  match expr with
  | Number v => (v, None)
  | BinaryOp l op r =>
      match Eval l with
      | (_, Some err) => (zero, Some err)
      | (left_, None) =>
          match Eval r with
          | (_, Some err) => (zero, Some err)
          | (right_, None) =>
              match Type_ op with
              | PLUS => (add left_ right_, None)
              | MINUS => (sub left_ right_, None)
              | MULT => (mul left_ right_, None)
              | DIV =>
                  if eqb right_ zero
                  then (zero, Some "division by zero")
                  else (div left_ right_, None)
              | _ => (zero, Some "invalid expression")
              end
          end
      end
  | Nil => (zero, Some "unsupported expression type")
  end.

(* ------------------------------------------------------------------ *)
(** ** Number conversion: [fmt.Sscanf(s, "%f", &num)] *)

Module Fmt.

Definition digit_value (c : ascii) : Z := rune_of_byte c - 48.

Fixpoint decimal_value_from (acc : Z) (s : string) : Z :=
  match s with
  | EmptyString => acc
  | String c s' => decimal_value_from (10 * acc + digit_value c) s'
  end.

(** The integer a string of decimal digits denotes. *)
Definition decimal_value (s : string) : Z := decimal_value_from 0 s.

Fixpoint all_digits (s : string) : bool :=
  match s with
  | EmptyString => true
  | String c s' => IsDigit (rune_of_byte c) && all_digits s'
  end.

(** A non-empty string of decimal digits: the numerals of the grammar. *)
Definition is_numeral (s : string) : bool :=
  match s with EmptyString => false | _ => all_digits s end.

(** [strconv.ParseFloat(s, 64)] on a numeral: the nearest float64, and
    the range error (with an infinity) when that is not finite. *)
Definition ParseFloat_numeral (s : string) : float64 * bool :=
  let f := of_Z (decimal_value s) in (f, negb (is_finite f)).

(** The number of runes a scan reads at most: [hugeWid = 1 << 30]. *)
Definition hugeWid : Z := 1073741824.

Section Sscanf.

(** What [Sscanf] with the verb [%f] stores for an input that is not
    a numeral of at most [hugeWid] digits (signs, fractions, exponents,
    hexadecimal floats, infinities, NaN, or no number at all): [None]
    when the scan fails.  The lexer only produces numerals
    (theorem [number_payload_is_numeral]), so this part of the
    library is left abstract. *)
Variable Sscanf_other : string -> option float64.

(** [fmt.Sscanf(s, "%f", &num)]: the value stored in [num], or [None]
    when the scan fails and [num] is left alone.  A numeral of at most
    [hugeWid] digits is read whole as the float token; a range error of
    [ParseFloat] makes the scan fail. *)
Definition Sscanf_f (s : string) : option float64 :=
  if is_numeral s && (len s <=? hugeWid) then
    let (f, range_error) := ParseFloat_numeral s in
    if range_error then None else Some f
  else Sscanf_other s.

End Sscanf.

End Fmt.

(* ------------------------------------------------------------------ *)
(** ** The parser *)

(** The parser holds a pointer to its lexer; the record holds the lexer
    that pointer designates. *)
Record Parser : Type := mkParser { lexer : Lexer; curr : Token }.

(** The outcome of a call of a parser method: it returns [a] and leaves
    the parser in state [p], or it panics, or the model runs out of fuel
    (theorem [Parse_fuel_enough]: it never does from [Parse]). *)
Inductive run (A : Type) : Type :=
| Returns (a : A) (p : Parser)
| Panics
| NoFuel.
Arguments Returns {A} a p.
Arguments Panics {A}.
Arguments NoFuel {A}.

(** [p.nextToken()] *)
Definition nextToken (p : Parser) : option Parser :=
  match NextToken (lexer p) with
  | Some (tok, l) => Some (mkParser l tok)
  | None => None
  end.

(** [NewParser(lexer)] *)
Definition NewParser (l : Lexer) : option Parser :=
  nextToken (mkParser l Token_zero).

Definition isAddOp (t : TokenType) : bool :=
  match t with PLUS | MINUS => true | _ => false end.

Definition isMulOp (t : TokenType) : bool :=
  match t with MULT | DIV => true | _ => false end.

(** [x, err := call; if err != nil { return nil, err }; k x] *)
Definition try (r : run (Expr * error))
    (k : Expr -> Parser -> run (Expr * error)) : run (Expr * error) :=
  match r with
  | Returns (x, None) p => k x p
  | Returns (_, Some err) p => Returns (Nil, Some err) p
  | Panics => Panics
  | NoFuel => NoFuel
  end.

(** The loop shared, up to the operator test and the operand parser, by
    [parseExpr] and [parseTerm]:
    [for isOp(p.curr.Type) { op := p.curr; p.nextToken();
       right, err := operand(); if err != nil { return nil, err };
       left = &BinaryOp{left, op, right} }; return left, nil] *)
Fixpoint foldOps (isOp : TokenType -> bool)
    (operand : Parser -> run (Expr * error))
    (fuel : nat) (left : Expr) (p : Parser) : run (Expr * error) :=
  match fuel with
  | O => NoFuel
  | S n =>
      if isOp (Type_ (curr p)) then
        let op := curr p in
        match nextToken p with
        | None => Panics
        | Some p1 =>
            try (operand p1) (fun right p2 =>
              foldOps isOp operand n (BinaryOp left op right) p2)
        end
      else Returns (left, None) p
  end.

(** The three lines [main] can print: ["Result:"], ["Error parsing
    expression:"] and ["Error evaluating expression:"], with the value
    or the error. *)
Inductive printed : Type :=
| Result (result : float64)
| ErrorParsing (err : string)
| ErrorEvaluating (err : string).

Section Parser.

Variable Sscanf_other : string -> option float64.

(** [parseNumber]: [num] starts as 0 and the error of [Sscanf] is
    dropped. *)
Definition parseNumber (s : string) : float64 :=
  match Fmt.Sscanf_f Sscanf_other s with
  | Some num => num
  | None => zero
  end.

Fixpoint parseExpr (fuel : nat) (p : Parser) : run (Expr * error) :=
  match fuel with
  | O => NoFuel
  | S n =>
      try (parseTerm n p) (fun left p1 =>
        foldOps isAddOp (parseTerm n) n left p1)
  end

with parseTerm (fuel : nat) (p : Parser) : run (Expr * error) :=
  match fuel with
  | O => NoFuel
  | S n =>
      try (parseFactor n p) (fun left p1 =>
        foldOps isMulOp (parseFactor n) n left p1)
  end

with parseFactor (fuel : nat) (p : Parser) : run (Expr * error) :=
  match fuel with
  | O => NoFuel
  | S n =>
      match Type_ (curr p) with
      | NUMBER =>
          let value := Value (curr p) in
          match nextToken p with
          | None => Panics
          | Some p1 => Returns (Number (parseNumber value), None) p1
          end
      | LPAREN =>
          match nextToken p with
          | None => Panics
          | Some p1 =>
              try (parseExpr n p1) (fun expr p2 =>
                match Type_ (curr p2) with
                | RPAREN =>
                    match nextToken p2 with
                    | None => Panics
                    | Some p3 => Returns (expr, None) p3
                    end
                | _ => Returns (Nil, Some "expected closing parenthesis") p2
                end)
          end
      | t =>
          Returns (Nil, Some ("expected a number or parenthesis, got "
                              ++ decimal (TokenType_int t))) p
      end
  end.

(** The lexer's share of the termination measure: the bytes not yet
    read, plus one while the lookahead is not the end of input. *)
Definition lexer_left (l : Lexer) : nat :=
  (Z.to_nat (len (input l) - pos l) + (if (ch l =? 0)%Z then 0 else 1))%nat.

(** Tokens the parser may still consume: every [nextToken] on a current
    token other than [EOF] decreases it. *)
Definition tokens_left (p : Parser) : nat :=
  (lexer_left (lexer p)
   + (match Type_ (curr p) with EOF => 0 | _ => 1 end))%nat.

(** [Parse]: [parseExpr] with fuel for the deepest nesting of calls. *)
Definition Parse (p : Parser) : run (Expr * error) :=
  parseExpr (3 * tokens_left p + 3) p.

(** [NewLexer], [NewParser] and [Parse] on an input string, as [main]
    chains them. *)
Definition ParseString (s : string) : run (Expr * error) :=
  match NewLexer s with
  | None => Panics
  | Some l =>
      match NewParser l with
      | None => Panics
      | Some p => Parse p
      end
  end.

(** What [main] prints for an input string; [None] when it panics. *)
Definition Run (s : string) : option printed :=
  match ParseString s with
  | Returns (_, Some err) _ => Some (ErrorParsing err)
  | Returns (ast, None) _ =>
      match Eval ast with
      | (_, Some err) => Some (ErrorEvaluating err)
      | (result, None) => Some (Result result)
      end
  | _ => None
  end.

End Parser.


(* ------------------------------------------------------------------ *)
(** ** The program on a store of objects

    [NewLexer] and [NewParser] return pointers, and the methods write
    through their receivers.  Here the [Lexer] and [Parser] objects
    live in a store: a pointer is an address, [&T{...}] takes the next
    free address, a field is read and written at the address of its
    object, and the nil pointer (as an address that holds no object)
    panics where it is dereferenced.  The program has no variable at
    package level, so the store is all the state there is.  Nodes of
    trees are not written to once they are built: trees stay values. *)

(** The fuel [Parse] needs for a lexer and a current token. *)
Definition Parse_fuel (l : Lexer) (tok : Token) : nat :=
  (3 * tokens_left (mkParser l tok) + 3)%nat.

Module Imperative.

(** A pointer: [None] is nil, [Some a] the address [a]. *)
Definition ptr := option nat.

(** The struct [Parser]: its field [lexer] is a pointer. *)
Record Parser : Type := mkParser { lexer : ptr; curr : Token }.

Record Store : Type := mkStore { lexers : list Lexer; parsers : list Parser }.

Definition empty : Store := mkStore [] [].

(** The outcome of a computation on the store. *)
Inductive result (A : Type) : Type :=
| Done (a : A) (s : Store)
| Panic
| OutOfFuel.
Arguments Done {A} a s.
Arguments Panic {A}.
Arguments OutOfFuel {A}.

Definition M (A : Type) : Type := Store -> result A.

Definition ret {A} (a : A) : M A := fun s => Done a s.

Definition bind {A B} (m : M A) (k : A -> M B) : M B :=
  fun s =>
    match m s with
    | Done a s' => k a s'
    | Panic => Panic
    | OutOfFuel => OutOfFuel
    end.

Definition panic {A} : M A := fun _ => Panic.
Definition out_of_fuel {A} : M A := fun _ => OutOfFuel.

Local Notation "x <- m ;; k" := (bind m (fun x => k))
  (at level 61, m at next level, right associativity).
Local Notation "m ;; k" := (bind m (fun _ => k))
  (at level 61, right associativity).

(** The list [xs] with [a] at index [i]. *)
Fixpoint update {A} (i : nat) (a : A) (xs : list A) : list A :=
  match xs, i with
  | [], _ => []
  | _ :: xs', O => a :: xs'
  | x :: xs', S j => x :: update j a xs'
  end.

(** [&Lexer{...}], [*l] and [*l = x]. *)
Definition new_Lexer (x : Lexer) : M ptr :=
  fun s =>
    Done (Some (List.length (lexers s)))
      (mkStore (lexers s ++ [x])%list (parsers s)).

Definition get_Lexer (l : ptr) : M Lexer :=
  fun s =>
    match l with
    | Some a =>
        match nth_error (lexers s) a with
        | Some x => Done x s
        | None => Panic
        end
    | None => Panic
    end.

Definition put_Lexer (l : ptr) (x : Lexer) : M unit :=
  fun s =>
    match l with
    | Some a => Done tt (mkStore (update a x (lexers s)) (parsers s))
    | None => Panic
    end.

(** [&Parser{...}], [*p] and [*p = x]. *)
Definition new_Parser (x : Parser) : M ptr :=
  fun s =>
    Done (Some (List.length (parsers s)))
      (mkStore (lexers s) (parsers s ++ [x])%list).

Definition get_Parser (p : ptr) : M Parser :=
  fun s =>
    match p with
    | Some b =>
        match nth_error (parsers s) b with
        | Some x => Done x s
        | None => Panic
        end
    | None => Panic
    end.

Definition put_Parser (p : ptr) (x : Parser) : M unit :=
  fun s =>
    match p with
    | Some b => Done tt (mkStore (lexers s) (update b x (parsers s)))
    | None => Panic
    end.

(** [l.ch = c], [l.pos = n] and [p.curr = tok]. *)
Definition set_ch (l : ptr) (c : rune) : M unit :=
  x <- get_Lexer l ;; put_Lexer l (mkLexer (input x) (pos x) c).

Definition set_pos (l : ptr) (n : Z) : M unit :=
  x <- get_Lexer l ;; put_Lexer l (mkLexer (input x) n (ch x)).

Definition set_curr (p : ptr) (tok : Token) : M unit :=
  x <- get_Parser p ;; put_Parser p (mkParser (lexer x) tok).

(** [func (l *Lexer) readChar()] *)
Definition readChar (l : ptr) : M unit :=
  x <- get_Lexer l ;;
  (if len (input x) <=? pos x then set_ch l 0
   else match index (input x) (pos x) with
        | Some b => set_ch l (rune_of_byte b)
        | None => panic
        end) ;;
  y <- get_Lexer l ;;
  set_pos l (pos y + 1).

(** [func NewLexer(input string) *Lexer] *)
Definition NewLexer (inp : string) : M ptr :=
  l <- new_Lexer (mkLexer inp 0 0) ;;
  readChar l ;;
  ret l.

(** [for cond(l.ch) { l.readChar() }], with fuel for the turns of the
    loop: one per byte left and one more are enough. *)
Fixpoint readWhile_fuel (cond : rune -> bool) (fuel : nat) (l : ptr) : M unit :=
  match fuel with
  | O => out_of_fuel
  | S n =>
      x <- get_Lexer l ;;
      if cond (ch x) then readChar l ;; readWhile_fuel cond n l
      else ret tt
  end.

Definition readWhile (cond : charclass) (l : ptr) : M unit :=
  x <- get_Lexer l ;;
  readWhile_fuel cond (S (loop_measure cond x)) l.

(** [func (l *Lexer) readNumber() string] *)
Definition readNumber (l : ptr) : M string :=
  x <- get_Lexer l ;;
  let start := pos x - 1 in
  readWhile digits l ;;
  y <- get_Lexer l ;;
  match slice (input y) start (pos y - 1) with
  | Some s => ret s
  | None => panic
  end.

(** [func (l *Lexer) NextToken() Token] *)
Definition NextToken (l : ptr) : M Token :=
  readWhile spaces l ;;
  x <- get_Lexer l ;;
  if ch x =? 0 then ret (mkToken EOF "")
  else if IsDigit (ch x) then
    s <- readNumber l ;;
    ret (mkToken NUMBER s)
  else
    let tok := symbolToken (ch x) in
    readChar l ;;
    ret tok.

(** [func (p *Parser) nextToken()]: [p.curr = p.lexer.NextToken()] *)
Definition nextToken (p : ptr) : M unit :=
  x <- get_Parser p ;;
  tok <- NextToken (lexer x) ;;
  set_curr p tok.

(** [func NewParser(lexer *Lexer) *Parser] *)
Definition NewParser (l : ptr) : M ptr :=
  p <- new_Parser (mkParser l Token_zero) ;;
  nextToken p ;;
  ret p.

(** [x, err := call; if err != nil { return nil, err }; k x] *)
Definition try (m : M (Expr * error)) (k : Expr -> M (Expr * error))
  : M (Expr * error) :=
  r <- m ;;
  match r with
  | (x, None) => k x
  | (_, Some err) => ret (Nil, Some err)
  end.

(** The loop of [parseExpr] and of [parseTerm]. *)
Fixpoint foldOps (isOp : TokenType -> bool) (operand : ptr -> M (Expr * error))
    (fuel : nat) (left : Expr) (p : ptr) : M (Expr * error) :=
  match fuel with
  | O => out_of_fuel
  | S n =>
      x <- get_Parser p ;;
      if isOp (Type_ (curr x)) then
        let op := curr x in
        nextToken p ;;
        try (operand p) (fun right => foldOps isOp operand n (BinaryOp left op right) p)
      else ret (left, None)
  end.

Section Parser.

Variable Sscanf_other : string -> option float64.

Fixpoint parseExpr (fuel : nat) (p : ptr) : M (Expr * error) :=
  match fuel with
  | O => out_of_fuel
  | S n =>
      try (parseTerm n p) (fun left => foldOps isAddOp (parseTerm n) n left p)
  end

with parseTerm (fuel : nat) (p : ptr) : M (Expr * error) :=
  match fuel with
  | O => out_of_fuel
  | S n =>
      try (parseFactor n p) (fun left => foldOps isMulOp (parseFactor n) n left p)
  end

with parseFactor (fuel : nat) (p : ptr) : M (Expr * error) :=
  match fuel with
  | O => out_of_fuel
  | S n =>
      x <- get_Parser p ;;
      match Type_ (curr x) with
      | NUMBER =>
          let value := Value (curr x) in
          nextToken p ;;
          ret (Number (parseNumber Sscanf_other value), None)
      | LPAREN =>
          nextToken p ;;
          try (parseExpr n p) (fun expr =>
            y <- get_Parser p ;;
            match Type_ (curr y) with
            | RPAREN => nextToken p ;; ret (expr, None)
            | _ => ret (Nil, Some "expected closing parenthesis")
            end)
      | t =>
          ret (Nil, Some ("expected a number or parenthesis, got "
                          ++ decimal (TokenType_int t)))
      end
  end.

(** The fuel for the deepest nesting of calls from [Parse]; without a
    lexer, no token can be consumed and the three calls down to
    [parseFactor] are all there is. *)
Definition fuel_of (p : ptr) (s : Store) : nat :=
  match p with
  | Some b =>
      match nth_error (parsers s) b with
      | Some x =>
          match lexer x with
          | Some a =>
              match nth_error (lexers s) a with
              | Some l => Parse_fuel l (curr x)
              | None => 3%nat
              end
          | None => 3%nat
          end
      | None => 3%nat
      end
  | None => 3%nat
  end.

(** [func (p *Parser) Parse() (Expr, error)] *)
Definition Parse (p : ptr) : M (Expr * error) :=
  fun s => parseExpr (fuel_of p s) p s.

(** [NewLexer], [NewParser] and [Parse], as [main] chains them. *)
Definition ParseString (s : string) : M (Expr * error) :=
  l <- NewLexer s ;;
  p <- NewParser l ;;
  Parse p.

(** [main] on an input string: what it prints. *)
Definition Run (s : string) : M printed :=
  r <- ParseString s ;;
  match r with
  | (_, Some err) => ret (ErrorParsing err)
  | (ast, None) =>
      match Eval ast with
      | (_, Some err) => ret (ErrorEvaluating err)
      | (v, None) => ret (Result v)
      end
  end.

(** [n] runs on the same input, one after the other on the same
    store. *)
Fixpoint Runs (n : nat) (s : string) : M (list printed) :=
  match n with
  | O => ret []
  | S n' =>
      o <- Run s ;;
      os <- Runs n' s ;;
      ret (o :: os)
  end.

End Parser.

End Imperative.

(* ------------------------------------------------------------------ *)
(** ** Values of type [Expr] with nil pointers

    A [*Number] or a [*BinaryOp] stored in an [Expr] may be the nil
    pointer.  [Eval] takes the case of its type and panics where it
    reads a field of it.  These are the finite trees: a value that
    contains itself, on which [Eval] would not come to an end, is left
    out. *)

Inductive AnyExpr : Type :=
| NumberAt (v : float64)
| BinaryOpAt (Left : AnyExpr) (Op : Token) (Right : AnyExpr)
| NilNumber
| NilBinaryOp
| Other.

(** [Eval] on such a value; [None] is the panic of the nil pointer
    dereference.  [Other] is the nil interface, or a value of another
    dynamic type. *)
Fixpoint Eval_any (expr : AnyExpr) : option (float64 * error) :=
  match expr with
  | NumberAt v => Some (v, None)
  | NilNumber => None
  | NilBinaryOp => None
  | BinaryOpAt l op r =>
      match Eval_any l with
      | None => None
      | Some (_, Some err) => Some (zero, Some err)
      | Some (left_, None) =>
          match Eval_any r with
          | None => None
          | Some (_, Some err) => Some (zero, Some err)
          | Some (right_, None) =>
              match Type_ op with
              | PLUS => Some (add left_ right_, None)
              | MINUS => Some (sub left_ right_, None)
              | MULT => Some (mul left_ right_, None)
              | DIV =>
                  if eqb right_ zero
                  then Some (zero, Some "division by zero")
                  else Some (div left_ right_, None)
              | _ => Some (zero, Some "invalid expression")
              end
          end
      end
  | Other => Some (zero, Some "unsupported expression type")
  end.

(** A tree without nil pointers, as a value of type [Expr]. *)
Fixpoint any (e : Expr) : AnyExpr :=
  match e with
  | Number v => NumberAt v
  | BinaryOp l op r => BinaryOpAt (any l) op (any r)
  | Nil => Other
  end.

(* ================================================================== *)
(** * Vocabulary of the specification *)

(* ------------------------------------------------------------------ *)
(** ** Strings and lexer positions *)

(** The string without its first [n] bytes. *)
Fixpoint drop (n : nat) (s : string) : string :=
  match n, s with
  | O, _ => s
  | S n', String _ s' => drop n' s'
  | S _, EmptyString => EmptyString
  end.

(** The rune of the first byte, 0 for the empty string. *)
Definition head_rune (s : string) : rune :=
  match s with
  | String b _ => rune_of_byte b
  | EmptyString => 0
  end.

(** The number of leading bytes of [s] in the class [cond]. *)
Fixpoint prefix_len (cond : rune -> bool) (s : string) : nat :=
  match s with
  | String b s' => if cond (rune_of_byte b) then S (prefix_len cond s') else O
  | EmptyString => O
  end.

(** Every byte of [s] is in the class [cond]. *)
Fixpoint all_in (cond : rune -> bool) (s : string) : bool :=
  match s with
  | String b s' => cond (rune_of_byte b) && all_in cond s'
  | EmptyString => true
  end.

(** A run of whitespace, possibly empty. *)
Definition all_space (s : string) : bool := all_in IsSpace s.

(** The bytes from the lookahead on. *)
Definition unread (l : Lexer) : string := drop (Z.to_nat (pos l - 1)) (input l).

(** The lexer of [s] whose lookahead is the byte at offset [k]. *)
Definition lexer_at (s : string) (k : nat) : Lexer :=
  mkLexer s (Z.of_nat k + 1) (head_rune (drop k s)).

(** The invariant of a lexer: the cursor is one past the lookahead, at
    most one past the end of the input, and the lookahead is the byte
    there, or 0 at the end. *)
Definition lexer_ok (l : Lexer) : Prop :=
  1 <= pos l <= len (input l) + 1 /\ ch l = head_rune (unread l).

(** The [n]-th lexer state of the calls of [NextToken] from [l], if no
    call panics before. *)
Fixpoint lexer_after (n : nat) (l : Lexer) : option Lexer :=
  match n with
  | O => Some l
  | S n' =>
      match NextToken l with
      | Some (_, l') => lexer_after n' l'
      | None => None
      end
  end.

(** What [NextToken] makes of the unread bytes [s]: the token, and the
    number of bytes it moves the cursor. *)
Definition scan (s : string) : Token * nat :=
  let n := prefix_len IsSpace s in
  let s1 := drop n s in
  if head_rune s1 =? 0 then (mkToken EOF "", n)
  else if IsDigit (head_rune s1) then
    let m := prefix_len IsDigit s1 in
    (mkToken NUMBER (String.substring 0 m s1), (n + m)%nat)
  else (symbolToken (head_rune s1), S n).

(** The first token of the input [s]. *)
Definition first_token (s : string) : option Token :=
  match NewLexer s with
  | Some l =>
      match NextToken l with
      | Some (tok, _) => Some tok
      | None => None
      end
  | None => None
  end.

(** The parser of [s] whose current token is the one that starts at or
    after offset [k]. *)
Definition parser_at (s : string) (k : nat) : Parser :=
  mkParser (lexer_at s (k + snd (scan (drop k s)))) (fst (scan (drop k s))).

(** The lexer states before and after each of [n] successive calls of
    [NextToken] (the list stops at a panic). *)
Fixpoint lexer_states (n : nat) (l : Lexer) : list Lexer :=
  match n with
  | O => [l]
  | S n' =>
      l :: match NextToken l with
           | Some (_, l') => lexer_states n' l'
           | None => []
           end
  end.

(** The first [n] tokens of a lexer; [None] when a call panics. *)
Fixpoint token_stream (n : nat) (l : Lexer) : option (list Token) :=
  match n with
  | O => Some []
  | S n' =>
      match NextToken l with
      | Some (tok, l') =>
          match token_stream n' l' with
          | Some toks => Some (tok :: toks)
          | None => None
          end
      | None => None
      end
  end.

(** The tokens of an input up to the end of input: one call of
    [NextToken] per byte is enough to get there. *)
Fixpoint tokens_until_EOF (fuel : nat) (l : Lexer) : list Token :=
  match fuel with
  | O => []
  | S n =>
      match NextToken l with
      | Some (tok, l') =>
          match Type_ tok with
          | EOF => []
          | _ => tok :: tokens_until_EOF n l'
          end
      | None => []
      end
  end.

Definition tokenize (s : string) : list Token :=
  match NewLexer s with
  | Some l => tokens_until_EOF (S (String.length s)) l
  | None => []
  end.

(** Consuming the tokens [toks], the current one first, takes the parser
    from [p] to [p']. *)
Inductive feeds : Parser -> list Token -> Parser -> Prop :=
| feeds_nil p : feeds p [] p
| feeds_cons p p1 toks p' :
    nextToken p = Some p1 -> feeds p1 toks p' -> feeds p (curr p :: toks) p'.

(** ** Fuel *)

(** [g] agrees with [f] wherever [f] does not run out of fuel. *)
Definition extends (f g : Parser -> run (Expr * error)) : Prop :=
  forall p, f p <> NoFuel -> g p = f p.

(** A call settles: it does not run out of fuel, and a successful one
    has consumed a token. *)
Definition settles (p : Parser) (r : run (Expr * error)) : Prop :=
  r <> NoFuel
  /\ forall x p', r = Returns (x, None) p' -> (tokens_left p' < tokens_left p)%nat.

(* ------------------------------------------------------------------ *)
(** ** The grammar

<<
  expression := term (("+" | "-") term)*
  term       := factor (("*" | "/") factor)*
  factor     := NUMBER | "(" expression ")"
  NUMBER     := digit+
>> *)

Inductive digit : Type := D0 | D1 | D2 | D3 | D4 | D5 | D6 | D7 | D8 | D9.

Inductive addop : Type := OpPlus | OpMinus.
Inductive mulop : Type := OpStar | OpSlash.

Inductive expression : Type :=
| Expression (t : term) (more : expression_rest)
with expression_rest : Type :=
| NoMoreTerms
| MoreTerms (op : addop) (t : term) (more : expression_rest)
with term : Type :=
| Term (f : factor) (more : term_rest)
with term_rest : Type :=
| NoMoreFactors
| MoreFactors (op : mulop) (f : factor) (more : term_rest)
with factor : Type :=
| Numeral (d : digit) (ds : list digit)
| Parens (e : expression).

Scheme expression_mut := Induction for expression Sort Prop
  with expression_rest_mut := Induction for expression_rest Sort Prop
  with term_mut := Induction for term Sort Prop
  with term_rest_mut := Induction for term_rest Sort Prop
  with factor_mut := Induction for factor Sort Prop.

Combined Scheme grammar_ind from
  expression_mut, expression_rest_mut, term_mut, term_rest_mut, factor_mut.

Definition digit_byte (d : digit) : ascii :=
  match d with
  | D0 => "0" | D1 => "1" | D2 => "2" | D3 => "3" | D4 => "4"
  | D5 => "5" | D6 => "6" | D7 => "7" | D8 => "8" | D9 => "9"
  end%char.

Definition digit_Z (d : digit) : Z :=
  match d with
  | D0 => 0 | D1 => 1 | D2 => 2 | D3 => 3 | D4 => 4
  | D5 => 5 | D6 => 6 | D7 => 7 | D8 => 8 | D9 => 9
  end.

Fixpoint digits_string (ds : list digit) : string :=
  match ds with
  | [] => EmptyString
  | d :: ds' => String (digit_byte d) (digits_string ds')
  end.

(** The text of the numeral [d ds]. *)
Definition numeral_string (d : digit) (ds : list digit) : string :=
  digits_string (d :: ds).

(** The natural number a numeral denotes. *)
Definition numeral_value (d : digit) (ds : list digit) : Z :=
  fold_left (fun acc x => 10 * acc + digit_Z x) (d :: ds) 0.

(** ** Lexemes and spelling *)

(** A lexeme: a numeral, or a single byte other than whitespace, a digit
    and the byte 0. *)
Inductive lexeme : Type :=
| LNumber (ds : string)
| LSymbol (b : ascii).

Definition lexeme_ok (x : lexeme) : bool :=
  match x with
  | LNumber ds => Fmt.is_numeral ds
  | LSymbol b =>
      let r := rune_of_byte b in
      negb (r =? 0) && negb (IsSpace r) && negb (IsDigit r)
  end.

Definition text (x : lexeme) : string :=
  match x with
  | LNumber ds => ds
  | LSymbol b => String b EmptyString
  end.

(** The token the lexer is to make of a lexeme. *)
Definition token_of (x : lexeme) : Token :=
  match x with
  | LNumber ds => mkToken NUMBER ds
  | LSymbol b =>
      if Ascii.eqb b "+" then mkToken PLUS "+"
      else if Ascii.eqb b "-" then mkToken MINUS "-"
      else if Ascii.eqb b "*" then mkToken MULT "*"
      else if Ascii.eqb b "/" then mkToken DIV "/"
      else if Ascii.eqb b "(" then mkToken LPAREN "("
      else if Ascii.eqb b ")" then mkToken RPAREN ")"
      else mkToken INVALID ("Invalid character: " ++ encodeRune (rune_of_byte b))
  end.

(** A numeral is set apart from what follows: no digit comes next. *)
Definition separated (x : lexeme) (s : string) : bool :=
  match x with
  | LNumber _ => negb (IsDigit (head_rune s))
  | LSymbol _ => true
  end.

(** [spells xs s rest]: the string [s] is the lexemes [xs], each after a
    run of whitespace (possibly empty), followed by [rest]. *)
Inductive spells : list lexeme -> string -> string -> Prop :=
| spells_nil rest : spells [] rest rest
| spells_cons ws x xs s rest :
    all_space ws = true -> lexeme_ok x = true -> separated x s = true ->
    spells xs s rest ->
    spells (x :: xs) (ws ++ text x ++ s) rest.

Definition addop_byte (op : addop) : ascii :=
  match op with OpPlus => "+" | OpMinus => "-" end%char.

Definition mulop_byte (op : mulop) : ascii :=
  match op with OpStar => "*" | OpSlash => "/" end%char.

(** The lexemes of a derivation, left to right. *)
Fixpoint lexemes_expression (e : expression) : list lexeme :=
  match e with
  | Expression t more => lexemes_term t ++ lexemes_expression_rest more
  end
with lexemes_expression_rest (r : expression_rest) : list lexeme :=
  match r with
  | NoMoreTerms => []
  | MoreTerms op t more =>
      LSymbol (addop_byte op) :: lexemes_term t ++ lexemes_expression_rest more
  end
with lexemes_term (t : term) : list lexeme :=
  match t with
  | Term f more => lexemes_factor f ++ lexemes_term_rest more
  end
with lexemes_term_rest (r : term_rest) : list lexeme :=
  match r with
  | NoMoreFactors => []
  | MoreFactors op f more =>
      LSymbol (mulop_byte op) :: lexemes_factor f ++ lexemes_term_rest more
  end
with lexemes_factor (f : factor) : list lexeme :=
  match f with
  | Numeral d ds => [LNumber (numeral_string d ds)]
  | Parens e => LSymbol "(" :: lexemes_expression e ++ [LSymbol ")"]
  end.

(** [generates e s]: the grammar generates [s] by the derivation [e],
    with whitespace allowed around every lexeme. *)
Definition generates (e : expression) (s : string) : Prop :=
  exists ws, all_space ws = true /\ spells (lexemes_expression e) s ws.

(* ------------------------------------------------------------------ *)
(** ** The meaning of a derivation *)

Definition addop_token (op : addop) : Token :=
  match op with OpPlus => mkToken PLUS "+" | OpMinus => mkToken MINUS "-" end.

Definition mulop_token (op : mulop) : Token :=
  match op with OpStar => mkToken MULT "*" | OpSlash => mkToken DIV "/" end.

Section Tree.

(** The float64 of a numeral's text. *)
Variable leaf : string -> float64.

(** The tree of a derivation: operators of one level group to the left,
    a factor is an operand of its term, a term of its expression, and
    parentheses add no node. *)
Fixpoint tree_expression (e : expression) : Expr :=
  match e with
  | Expression t more => tree_expression_rest (tree_term t) more
  end
with tree_expression_rest (left : Expr) (r : expression_rest) {struct r} : Expr :=
  match r with
  | NoMoreTerms => left
  | MoreTerms op t more =>
      tree_expression_rest (BinaryOp left (addop_token op) (tree_term t)) more
  end
with tree_term (t : term) : Expr :=
  match t with
  | Term f more => tree_term_rest (tree_factor f) more
  end
with tree_term_rest (left : Expr) (r : term_rest) {struct r} : Expr :=
  match r with
  | NoMoreFactors => left
  | MoreFactors op f more =>
      tree_term_rest (BinaryOp left (mulop_token op) (tree_factor f)) more
  end
with tree_factor (f : factor) : Expr :=
  match f with
  | Numeral d ds => Number (leaf (numeral_string d ds))
  | Parens e => tree_expression e
  end.

End Tree.

(** What it is for the parser to parse a derivation: fed its tokens,
    and then a token that cannot continue it, each parsing function
    returns the tree of its part, with enough fuel. *)
Section Parses.

Variable Sscanf_other : string -> option float64.

Definition parses_expression (e : expression) : Prop :=
  forall p p', feeds p (map token_of (lexemes_expression e)) p' ->
  isAddOp (Type_ (curr p')) = false -> isMulOp (Type_ (curr p')) = false ->
  exists n0, forall n, (n0 <= n)%nat ->
    parseExpr Sscanf_other n p = Returns (tree_expression (parseNumber Sscanf_other) e, None) p'.

Definition parses_expression_rest (r : expression_rest) : Prop :=
  forall left p p', feeds p (map token_of (lexemes_expression_rest r)) p' ->
  isAddOp (Type_ (curr p')) = false -> isMulOp (Type_ (curr p')) = false ->
  exists n0, forall n m, (n0 <= n)%nat -> (n0 <= m)%nat ->
    foldOps isAddOp (parseTerm Sscanf_other n) m left p
    = Returns (tree_expression_rest (parseNumber Sscanf_other) left r, None) p'.

Definition parses_term (t : term) : Prop :=
  forall p p', feeds p (map token_of (lexemes_term t)) p' ->
  isMulOp (Type_ (curr p')) = false ->
  exists n0, forall n, (n0 <= n)%nat ->
    parseTerm Sscanf_other n p = Returns (tree_term (parseNumber Sscanf_other) t, None) p'.

Definition parses_term_rest (r : term_rest) : Prop :=
  forall left p p', feeds p (map token_of (lexemes_term_rest r)) p' ->
  isMulOp (Type_ (curr p')) = false ->
  exists n0, forall n m, (n0 <= n)%nat -> (n0 <= m)%nat ->
    foldOps isMulOp (parseFactor Sscanf_other n) m left p
    = Returns (tree_term_rest (parseNumber Sscanf_other) left r, None) p'.

Definition parses_factor (f : factor) : Prop :=
  forall p p', feeds p (map token_of (lexemes_factor f)) p' ->
  exists n0, forall n, (n0 <= n)%nat ->
    parseFactor Sscanf_other n p = Returns (tree_factor (parseNumber Sscanf_other) f, None) p'.

End Parses.

(** The value of a derivation in float64 arithmetic, or the division by
    zero that stops its evaluation. *)
Inductive value : Type :=
| Val (v : float64)
| DivisionByZero.

Definition is_zero (v : float64) : bool :=
  match v with S754_zero _ => true | _ => false end.

Definition apply_addop (op : addop) (x y : float64) : float64 :=
  match op with OpPlus => add x y | OpMinus => sub x y end.

Definition apply_mulop (op : mulop) (x y : float64) : value :=
  match op with
  | OpStar => Val (mul x y)
  | OpSlash => if is_zero y then DivisionByZero else Val (div x y)
  end.

(** Standard precedence and left-to-right evaluation: an expression is
    the running result of its terms, a term that of its factors. *)
Fixpoint value_expression (e : expression) : value :=
  match e with
  | Expression t more =>
      match value_term t with
      | Val v => value_expression_rest v more
      | DivisionByZero => DivisionByZero
      end
  end
with value_expression_rest (acc : float64) (r : expression_rest) {struct r} : value :=
  match r with
  | NoMoreTerms => Val acc
  | MoreTerms op t more =>
      match value_term t with
      | Val v => value_expression_rest (apply_addop op acc v) more
      | DivisionByZero => DivisionByZero
      end
  end
with value_term (t : term) : value :=
  match t with
  | Term f more =>
      match value_factor f with
      | Val v => value_term_rest v more
      | DivisionByZero => DivisionByZero
      end
  end
with value_term_rest (acc : float64) (r : term_rest) {struct r} : value :=
  match r with
  | NoMoreFactors => Val acc
  | MoreFactors op f more =>
      match value_factor f with
      | Val v =>
          match apply_mulop op acc v with
          | Val acc' => value_term_rest acc' more
          | DivisionByZero => DivisionByZero
          end
      | DivisionByZero => DivisionByZero
      end
  end
with value_factor (f : factor) : value :=
  match f with
  | Numeral d ds => Val (of_Z (numeral_value d ds))
  | Parens e => value_expression e
  end.

(** The evaluation goes on from a running result, or has stopped. *)
Definition continue_with {A} (x : value) (k : float64 -> A -> value) (a : A) : value :=
  match x with
  | Val acc => k acc a
  | DivisionByZero => DivisionByZero
  end.

(** What [Eval] returns for a value. *)
Definition Eval_result (x : value) : float64 * error :=
  match x with
  | Val v => (v, None)
  | DivisionByZero => (zero, Some "division by zero")
  end.

(** Every numeral of the derivation rounds to a finite float64. *)
Fixpoint in_range_expression (e : expression) : bool :=
  match e with
  | Expression t more => in_range_term t && in_range_expression_rest more
  end
with in_range_expression_rest (r : expression_rest) : bool :=
  match r with
  | NoMoreTerms => true
  | MoreTerms _ t more => in_range_term t && in_range_expression_rest more
  end
with in_range_term (t : term) : bool :=
  match t with
  | Term f more => in_range_factor f && in_range_term_rest more
  end
with in_range_term_rest (r : term_rest) : bool :=
  match r with
  | NoMoreFactors => true
  | MoreFactors _ f more => in_range_factor f && in_range_term_rest more
  end
with in_range_factor (f : factor) : bool :=
  match f with
  | Numeral d ds =>
      (len (numeral_string d ds) <=? Fmt.hugeWid)
      && is_finite (of_Z (numeral_value d ds))
  | Parens e => in_range_expression e
  end.

(** What [main] prints for a value. *)
Definition printed_value (x : value) : printed :=
  match x with
  | Val v => Result v
  | DivisionByZero => ErrorEvaluating "division by zero"
  end.

(** ** The exact value of a derivation *)

(** The rational number a derivation denotes under standard precedence
    and left-to-right grouping; [None] when it divides by zero. *)
Definition exact_addop (op : addop) (x y : Q) : Q :=
  match op with OpPlus => Qplus x y | OpMinus => Qminus x y end.

Definition exact_mulop (op : mulop) (x y : Q) : option Q :=
  match op with
  | OpStar => Some (Qmult x y)
  | OpSlash => if Qeq_bool y (inject_Z 0) then None else Some (Qdiv x y)
  end.

Fixpoint exact_expression (e : expression) : option Q :=
  match e with
  | Expression t more =>
      match exact_term t with
      | Some q => exact_expression_rest q more
      | None => None
      end
  end
with exact_expression_rest (acc : Q) (r : expression_rest) {struct r} : option Q :=
  match r with
  | NoMoreTerms => Some acc
  | MoreTerms op t more =>
      match exact_term t with
      | Some q => exact_expression_rest (exact_addop op acc q) more
      | None => None
      end
  end
with exact_term (t : term) : option Q :=
  match t with
  | Term f more =>
      match exact_factor f with
      | Some q => exact_term_rest q more
      | None => None
      end
  end
with exact_term_rest (acc : Q) (r : term_rest) {struct r} : option Q :=
  match r with
  | NoMoreFactors => Some acc
  | MoreFactors op f more =>
      match exact_factor f with
      | Some q =>
          match exact_mulop op acc q with
          | Some acc' => exact_term_rest acc' more
          | None => None
          end
      | None => None
      end
  end
with exact_factor (f : factor) : option Q :=
  match f with
  | Numeral d ds => Some (inject_Z (numeral_value d ds))
  | Parens e => exact_expression e
  end.

(** The rational number a finite float64 is: [m * 2^e], with its sign. *)
Definition float_exact (x : float64) : option Q :=
  match x with
  | S754_zero _ => Some (inject_Z 0)
  | S754_finite s m e =>
      let n := if s then Zneg m else Zpos m in
      Some match e with
           | Z0 => Qmake n 1
           | Zpos p => Qmake (n * Zpos (2 ^ p)) 1
           | Zneg p => Qmake n (2 ^ p)
           end
  | _ => None
  end.

(** ** Integers that float64 arithmetic computes exactly *)

(** An integer of magnitude below 2^53. *)
Definition small (z : Z) : bool := Z.abs z <? 2 ^ 53.

(** The value of a derivation in integer arithmetic, as long as the
    numerals and every intermediate result are [small] and every
    division is exact; the division by zero that stops it; or the
    remark that the derivation leaves these integers. *)
Inductive integer_value : Type :=
| Integer (n : Z)
| DividedByZero
| NotExact.

Definition integer_addop (op : addop) (a b : Z) : integer_value :=
  let c := match op with OpPlus => a + b | OpMinus => a - b end in
  if small c then Integer c else NotExact.

Definition integer_mulop (op : mulop) (a b : Z) : integer_value :=
  match op with
  | OpStar => if small (a * b) then Integer (a * b) else NotExact
  | OpSlash =>
      if b =? 0 then DividedByZero
      else if a mod b =? 0 then Integer (a / b)
      else NotExact
  end.

Fixpoint integer_expression (e : expression) : integer_value :=
  match e with
  | Expression t more =>
      match integer_term t with
      | Integer n => integer_expression_rest n more
      | other => other
      end
  end
with integer_expression_rest (acc : Z) (r : expression_rest) {struct r} : integer_value :=
  match r with
  | NoMoreTerms => Integer acc
  | MoreTerms op t more =>
      match integer_term t with
      | Integer n =>
          match integer_addop op acc n with
          | Integer acc' => integer_expression_rest acc' more
          | other => other
          end
      | other => other
      end
  end
with integer_term (t : term) : integer_value :=
  match t with
  | Term f more =>
      match integer_factor f with
      | Integer n => integer_term_rest n more
      | other => other
      end
  end
with integer_term_rest (acc : Z) (r : term_rest) {struct r} : integer_value :=
  match r with
  | NoMoreFactors => Integer acc
  | MoreFactors op f more =>
      match integer_factor f with
      | Integer n =>
          match integer_mulop op acc n with
          | Integer acc' => integer_term_rest acc' more
          | other => other
          end
      | other => other
      end
  end
with integer_factor (f : factor) : integer_value :=
  match f with
  | Numeral d ds =>
      if small (numeral_value d ds) then Integer (numeral_value d ds) else NotExact
  | Parens e => integer_expression e
  end.

(** [p * 2^k], the number of binary digits of [p], and the float64 of
    the integer [+-c] when [c] has at most 53 digits: the mantissa is
    [c] shifted to 53 digits. *)
Definition shl (p : positive) (k : nat) : positive := Nat.iter k xO p.
Definition size (p : positive) : nat := Pos.to_nat (digits2_pos p).
Definition signed (s : bool) (c : positive) : Z := if s then Zneg c else Zpos c.
Definition normal (s : bool) (c : positive) : float64 :=
  S754_finite s (shl c (53 - size c)) (Z.of_nat (size c) - 53).

(** The float64 [v] is the integer [n]: the float64 nearest to [n], or
    the negative zero when [n] is 0. *)
Definition repr (v : float64) (n : Z) : Prop :=
  v = of_Z n \/ (n = 0 /\ v = S754_zero true).

(** The float64 evaluation agrees with the integer one. *)
Definition agrees (i : integer_value) (x : value) : Prop :=
  match i with
  | Integer n => small n = true /\ exists v, x = Val v /\ repr v n
  | DividedByZero => x = DivisionByZero
  | NotExact => True
  end.

(** The exact evaluation agrees with the integer one. *)
Definition agrees_exact (i : integer_value) (x : option Q) : Prop :=
  match i with
  | Integer n => exists q, x = Some q /\ Qeq q (inject_Z n)
  | DividedByZero => x = None
  | NotExact => True
  end.

(** An instance of the part of [Sscanf] left abstract: every input
    that is not a numeral fails to scan. *)
Definition Sscanf_fails : string -> option float64 := fun _ => None.

(* ------------------------------------------------------------------ *)
(** ** Evaluation that reaches a division by zero *)

(** [Eval] evaluates the left child, then the right child, then applies
    the operator; [DivByZero e] holds when that order of evaluation
    reaches a [DIV] node whose right child evaluates to a zero. *)
Inductive DivByZero : Expr -> Prop :=
| DivByZero_left l op r :
    DivByZero l -> DivByZero (BinaryOp l op r)
| DivByZero_right l op r v :
    Eval l = (v, None) -> DivByZero r -> DivByZero (BinaryOp l op r)
| DivByZero_here l op r vl vr :
    Eval l = (vl, None) -> Eval r = (vr, None) ->
    Type_ op = DIV -> is_zero vr = true ->
    DivByZero (BinaryOp l op r).

(** The claim that parsing and evaluating a generated string returns
    the exact value of its derivation. *)
Definition evaluates_exactly (Sscanf_other : string -> option float64) : Prop :=
  forall e s, generates e s ->
  exists v q r, Run Sscanf_other s = Some (Result v)
    /\ float_exact v = Some q /\ exact_expression e = Some r /\ Qeq q r.

(** ** Spelling a string out *)

(** The string of the lexemes [gs], each after its run of whitespace,
    followed by [rest]. *)
Fixpoint render (gs : list (string * lexeme)) (rest : string) : string :=
  match gs with
  | [] => rest
  | (ws, x) :: gs' => (ws ++ text x ++ render gs' rest)%string
  end.

Fixpoint render_ok (gs : list (string * lexeme)) (rest : string) : bool :=
  match gs with
  | [] => true
  | (ws, x) :: gs' =>
      all_space ws && lexeme_ok x && separated x (render gs' rest)
      && render_ok gs' rest
  end.

(** ** Examples *)

(** The derivation of "2 + 3 * 4". *)
Definition two_plus_three_times_four : expression :=
  Expression (Term (Numeral D2 []) NoMoreFactors)
    (MoreTerms OpPlus
       (Term (Numeral D3 []) (MoreFactors OpStar (Numeral D4 []) NoMoreFactors))
       NoMoreTerms).

(** The derivation of "9007199254740993", that is 2^53 + 1. *)
Definition two_to_53_plus_1 : expression :=
  Expression
    (Term (Numeral D9 [D0; D0; D7; D1; D9; D9; D2; D5; D4; D7; D4; D0; D9; D9; D3])
       NoMoreFactors)
    NoMoreTerms.


(** The numeral 1 followed by 309 zeros: ten to the 309, beyond the
    largest finite float64. *)
Fixpoint zeros (n : nat) : string :=
  match n with
  | O => EmptyString
  | S n' => String "0" (zeros n')
  end.

Definition ten_to_the_309 : string := String "1" (zeros 309).

(** ** Lexers that yield the same tokens *)

(** The first [n] tokens of a lexer that is to yield [toks]: these, then
    EOF for ever. *)
Fixpoint expected (n : nat) (toks : list Token) : list Token :=
  match n with
  | O => []
  | S n' =>
      match toks with
      | [] => mkToken EOF "" :: expected n' []
      | tok :: toks' => tok :: expected n' toks'
      end
  end.

Definition same_tokens (l1 l2 : Lexer) : Prop :=
  forall n, token_stream n l1 = token_stream n l2.

Definition same_parser (p1 p2 : Parser) : Prop :=
  curr p1 = curr p2 /\ same_tokens (lexer p1) (lexer p2).

(** Two calls end alike: with the same result and parsers that go on
    alike, or both in a panic. *)
Definition same_run (r1 r2 : run (Expr * error)) : Prop :=
  match r1, r2 with
  | Returns a p1, Returns b p2 => a = b /\ same_parser p1 p2
  | Panics, Panics => True
  | NoFuel, NoFuel => True
  | _, _ => False
  end.

(** The tree of "1 / 0". *)
Definition one_over_zero : Expr :=
  BinaryOp (Number (of_Z 1)) (mkToken DIV "/") (Number (of_Z 0)).

(** The derivation of "2". *)
Definition two : expression :=
  Expression (Term (Numeral D2 []) NoMoreFactors) NoMoreTerms.

(* ------------------------------------------------------------------ *)
(** ** Reachable parser states, trees and error messages *)

(** No byte of [s] is the byte 0. *)
Definition NUL_free (s : string) : bool := all_in (fun r => negb (r =? 0)) s.

(** The test of either loop: PLUS, MINUS, MULT or DIV. *)
Definition isOperator (t : TokenType) : bool := isAddOp t || isMulOp t.

(** The tokens of the six symbols, as [NextToken] makes them. *)
Definition symbol_tokens : list Token :=
  [mkToken PLUS "+"; mkToken MINUS "-"; mkToken MULT "*"; mkToken DIV "/";
   mkToken LPAREN "("; mkToken RPAREN ")"].

(** A lexeme of the grammar: a numeral or one of the six symbols. *)
Definition grammar_lexeme (x : lexeme) : bool :=
  match x with
  | LNumber ds => Fmt.is_numeral ds
  | LSymbol b =>
      Ascii.eqb b "+" || Ascii.eqb b "-" || Ascii.eqb b "*" || Ascii.eqb b "/"
      || Ascii.eqb b "(" || Ascii.eqb b ")"
  end.

(** A tree [Eval] can walk to the end: no nil node, and every operator
    token of type PLUS, MINUS, MULT or DIV. *)
Fixpoint arithmetic (e : Expr) : bool :=
  match e with
  | Number _ => true
  | BinaryOp l op r => arithmetic l && isOperator (Type_ op) && arithmetic r
  | Nil => false
  end.

(** The tree with the payload of every operator token cleared. *)
Fixpoint erase (e : Expr) : Expr :=
  match e with
  | BinaryOp l op r => BinaryOp (erase l) (mkToken (Type_ op) "") (erase r)
  | other => other
  end.

(** The messages of [Eval]. *)
Definition Eval_errors : list string :=
  ["division by zero"; "invalid expression"; "unsupported expression type"].

(** The message of [parseFactor] on a token of type [t]. *)
Definition expected_operand (t : TokenType) : string :=
  "expected a number or parenthesis, got " ++ decimal (TokenType_int t).

(** The error [msg] was raised on the current token [tok]: a closing
    parenthesis is missed on a token that is neither RPAREN nor an
    operator, an operand on one that is neither NUMBER nor LPAREN. *)
Definition parse_error (tok : Token) (msg : string) : Prop :=
  (msg = "expected closing parenthesis"
   /\ Type_ tok <> RPAREN /\ isOperator (Type_ tok) = false)
  \/ (msg = expected_operand (Type_ tok)
      /\ Type_ tok <> NUMBER /\ Type_ tok <> LPAREN).

(** A parser as [NewParser] and [nextToken] leave it: the current token
    is the one [NextToken] returned when it left the lexer as it is. *)
Definition parser_ok (p : Parser) : Prop :=
  exists l, lexer_ok l /\ NextToken l = Some (curr p, lexer p).

(** A call of a parsing function ends well: it does not panic, it
    leaves a parser that is [parser_ok], a success satisfies [Q] and an
    error comes with the nil tree and was raised on the current token. *)
Definition parse_post (Q : Expr -> Parser -> Prop) (r : run (Expr * error)) : Prop :=
  match r with
  | Returns (x, None) p' => parser_ok p' /\ Q x p'
  | Returns (x, Some msg) p' => parser_ok p' /\ x = Nil /\ parse_error (curr p') msg
  | Panics => False
  | NoFuel => True
  end.

Section Derived.

Variable Sscanf_other : string -> option float64.

Local Abbreviation leaf := (parseNumber Sscanf_other).

(** What a successful call has done: it has consumed the tokens of a
    derivation, returns the tree of that derivation, and stops on a
    token its loop does not take. *)
Definition factor_parsed (p : Parser) (x : Expr) (p' : Parser) : Prop :=
  exists f, feeds p (map token_of (lexemes_factor f)) p'
    /\ x = tree_factor leaf f.

Definition term_rest_parsed (left : Expr) (p : Parser) (x : Expr) (p' : Parser) : Prop :=
  exists r, feeds p (map token_of (lexemes_term_rest r)) p'
    /\ x = tree_term_rest leaf left r
    /\ isMulOp (Type_ (curr p')) = false.

Definition term_parsed (p : Parser) (x : Expr) (p' : Parser) : Prop :=
  exists t, feeds p (map token_of (lexemes_term t)) p'
    /\ x = tree_term leaf t
    /\ isMulOp (Type_ (curr p')) = false.

Definition expression_rest_parsed (left : Expr) (p : Parser) (x : Expr) (p' : Parser) : Prop :=
  exists r, feeds p (map token_of (lexemes_expression_rest r)) p'
    /\ x = tree_expression_rest leaf left r
    /\ isOperator (Type_ (curr p')) = false.

Definition expression_parsed (p : Parser) (x : Expr) (p' : Parser) : Prop :=
  exists e, feeds p (map token_of (lexemes_expression e)) p'
    /\ x = tree_expression leaf e
    /\ isOperator (Type_ (curr p')) = false.

End Derived.

(** The tokens of [toks] before the first EOF are all of them. *)
Definition no_EOF (toks : list Token) : Prop :=
  Forall (fun tok => Type_ tok <> EOF) toks.

(** The two bytes [%c] prints for a rune from 128 to 255. *)
Definition two_bytes (r : rune) : string :=
  String (byte_of_Z (192 + r / 64)) (String (byte_of_Z (128 + r mod 64)) "").

(** What [main] can print at all: a result, the division by zero of
    [Eval], or one of the two errors of [parseFactor]. *)
Definition possible_outcome (o : printed) : Prop :=
  match o with
  | Result _ => True
  | ErrorParsing msg =>
      msg = "expected closing parenthesis"
      \/ exists t, t <> NUMBER /\ t <> LPAREN /\ msg = expected_operand t
  | ErrorEvaluating msg => msg = "division by zero"
  end.

(** The byte 0. *)
Definition NUL : ascii := Ascii.zero.

(* ------------------------------------------------------------------ *)
(** ** The store and the values it holds *)

(** The store with the lexer [x] at address [a]. *)
Definition with_Lexer (a : nat) (x : Lexer) (st : Imperative.Store) : Imperative.Store :=
  Imperative.mkStore (Imperative.update a x (Imperative.lexers st))
    (Imperative.parsers st).

(** The parser object at address [b], whose lexer is at address [a],
    and that lexer make up the parser value [p]. *)
Definition stored (b a : nat) (p : Parser) (st : Imperative.Store) : Prop :=
  nth_error (Imperative.parsers st) b
  = Some (Imperative.mkParser (Some a) (curr p))
  /\ nth_error (Imperative.lexers st) a = Some (lexer p).

(** The store with the parser value [p] at these addresses. *)
Definition put (b a : nat) (p : Parser) (st : Imperative.Store) : Imperative.Store :=
  Imperative.mkStore
    (Imperative.update a (lexer p) (Imperative.lexers st))
    (Imperative.update b (Imperative.mkParser (Some a) (curr p))
       (Imperative.parsers st)).

(** The outcome on the store of a call whose outcome on values is [r]. *)
Definition lift {A} (b a : nat) (st : Imperative.Store) (r : run A)
  : Imperative.result A :=
  match r with
  | Returns x p' => Imperative.Done x (put b a p' st)
  | Panics => Imperative.Panic
  | NoFuel => Imperative.OutOfFuel
  end.

(** The store after a run that left the parser value [p]: one lexer
    and one parser more, and the objects that were there as they
    were. *)
Definition grown (st : Imperative.Store) (p : Parser) : Imperative.Store :=
  Imperative.mkStore
    (Imperative.lexers st ++ [lexer p])%list
    (Imperative.parsers st
     ++ [Imperative.mkParser (Some (List.length (Imperative.lexers st))) (curr p)])%list.

(** Every object of [st] is in [st'], at its address and as it was. *)
Definition extends_store (st st' : Imperative.Store) : Prop :=
  (exists ls, Imperative.lexers st' = (Imperative.lexers st ++ ls)%list)
  /\ (exists ps, Imperative.parsers st' = (Imperative.parsers st ++ ps)%list).

(** ** Where [Eval] meets a nil pointer *)

(** The evaluation, left child before right child, reaches a nil
    pointer before any error. *)
Inductive NilDereference : AnyExpr -> Prop :=
| NilDereference_Number : NilDereference NilNumber
| NilDereference_BinaryOp : NilDereference NilBinaryOp
| NilDereference_left l op r :
    NilDereference l -> NilDereference (BinaryOpAt l op r)
| NilDereference_right l op r v :
    Eval_any l = Some (v, None) -> NilDereference r ->
    NilDereference (BinaryOpAt l op r).
(* ================================================================== *)
(** * Proofs *)

(** ** Facts about strings *)

Section StringFacts.

Lemma drop_0 s : drop 0 s = s.
Proof. reflexivity. Qed.

Lemma drop_empty n : drop n "" = "".
Proof. destruct n; reflexivity. Qed.

Lemma drop_length n s : String.length (drop n s) = (String.length s - n)%nat.
Proof.
  revert s; induction n as [|n IH]; intros s; cbn.
  - lia.
  - destruct s as [|b s]; cbn; [reflexivity | apply IH].
Qed.

Lemma drop_all n s : (String.length s <= n)%nat -> drop n s = "".
Proof.
  intros H. pose proof (drop_length n s) as L.
  destruct (drop n s); [reflexivity | cbn in L; lia].
Qed.

Lemma drop_succ n s b r : drop n s = String b r -> drop (S n) s = r.
Proof.
  revert s; induction n as [|n IH]; intros s; cbn.
  - intros ->. reflexivity.
  - destruct s as [|c s]; [discriminate|]. intros H.
    specialize (IH s H). destruct s; [rewrite drop_empty in H; discriminate | exact IH].
Qed.

Lemma drop_succ_empty n s : drop n s = "" -> drop (S n) s = "".
Proof.
  intros H. apply drop_all.
  pose proof (drop_length n s) as L. rewrite H in L. cbn in L. lia.
Qed.

Lemma drop_add n m s : drop (n + m) s = drop m (drop n s).
Proof.
  revert s; induction n as [|n IH]; intros s; cbn; [reflexivity|].
  destruct s; [now rewrite drop_empty | apply IH].
Qed.

Lemma drop_app a b : drop (String.length a) (a ++ b) = b.
Proof. induction a as [|c a IH]; cbn; [reflexivity | exact IH]. Qed.

Lemma get_drop n s :
  String.get n s = match drop n s with String b _ => Some b | EmptyString => None end.
Proof.
  revert s; induction n as [|n IH]; intros s; destruct s as [|c s]; cbn; try reflexivity.
  apply IH.
Qed.

Lemma substring_drop n m s :
  String.substring n m s = String.substring 0 m (drop n s).
Proof.
  revert s; induction n as [|n IH]; intros s; cbn; [reflexivity|].
  destruct s as [|c s]; [destruct m; reflexivity | apply IH].
Qed.

Lemma substring_app a b :
  String.substring 0 (String.length a) (a ++ b) = a.
Proof.
  induction a as [|c a IH]; cbn.
  - destruct b; reflexivity.
  - now rewrite IH.
Qed.

Lemma app_assoc_s (a b c : string) : ((a ++ b) ++ c)%string = (a ++ (b ++ c))%string.
Proof. induction a as [|x a IH]; cbn; [reflexivity | now rewrite IH]. Qed.

Lemma app_length_s (a b : string) :
  String.length (a ++ b) = (String.length a + String.length b)%nat.
Proof. induction a as [|x a IH]; cbn; [reflexivity | now rewrite IH]. Qed.

Lemma app_empty_r (a : string) : (a ++ "")%string = a.
Proof. induction a as [|x a IH]; cbn; [reflexivity | now rewrite IH]. Qed.

End StringFacts.

(** ** The lexer on the input it was made for *)

Section LexerFacts.

Lemma lexer_ok_at s k : (k <= String.length s)%nat -> lexer_ok (lexer_at s k).
Proof.
  intros K. unfold lexer_ok, lexer_at, unread, len; cbn. split; [lia|].
  replace (Z.to_nat (Z.of_nat k + 1 - 1)) with k by lia. reflexivity.
Qed.

Lemma lexer_ok_inv l :
  lexer_ok l ->
  l = lexer_at (input l) (Z.to_nat (pos l - 1))
  /\ (Z.to_nat (pos l - 1) <= String.length (input l))%nat.
Proof.
  intros [Hp Hc]. destruct l as [s p c]; cbn in *. unfold lexer_at, len in *.
  unfold unread in Hc; cbn in Hc. rewrite <- Hc. split; [f_equal|]; lia.
Qed.

Lemma unread_at s k : unread (lexer_at s k) = drop k s.
Proof.
  unfold unread, lexer_at; cbn. f_equal. lia.
Qed.

Lemma readChar_at s k : readChar (lexer_at s k) = Some (lexer_at s (S k)).
Proof.
  unfold readChar, lexer_at; cbn [input pos ch].
  destruct (len s <=? Z.of_nat k + 1) eqn:E.
  - apply Z.leb_le in E. unfold len in E.
    rewrite (drop_all (S k) s) by lia. cbn. do 2 f_equal. lia.
  - apply Z.leb_gt in E. unfold len in E.
    unfold index. destruct (Z.of_nat k + 1 <? 0) eqn:N; [apply Z.ltb_lt in N; lia|].
    replace (Z.to_nat (Z.of_nat k + 1)) with (S k) by lia.
    rewrite get_drop.
    destruct (drop (S k) s) as [|b r] eqn:D.
    + pose proof (drop_length (S k) s) as L. rewrite D in L. cbn in L. lia.
    + cbn. do 2 f_equal. lia.
Qed.

Lemma NewLexer_at s : NewLexer s = Some (lexer_at s 0).
Proof.
  unfold NewLexer, readChar, lexer_at; cbn [input pos ch].
  destruct (len s <=? 0) eqn:E.
  - apply Z.leb_le in E. unfold len in E.
    destruct s; [reflexivity | cbn in E; lia].
  - apply Z.leb_gt in E. destruct s as [|b s]; [cbn in E; lia|]. reflexivity.
Qed.

(** One turn of the loop [for cond(l.ch) { l.readChar() }]. *)
Lemma readWhile_step (cond : charclass) l :
  readWhile cond l =
  if cond (ch l) then
    match readChar l with
    | Some l' => readWhile cond l'
    | None => None
    end
  else Some l.
Proof.
  funelim (readWhile cond l);
    repeat match goal with
      | H : holds _ _ = _ |- _ => rewrite H
      | H : readChar _ = _ |- _ => rewrite H
      end; reflexivity.
Qed.

Lemma readChar_pos l l' :
  readChar l = Some l' -> pos l' = pos l + 1 /\ input l' = input l.
Proof.
  unfold readChar. destruct (len (input l) <=? pos l).
  - intros [= <-]. cbn. auto.
  - destruct (index (input l) (pos l)); [|discriminate].
    intros [= <-]. cbn. auto.
Qed.

Lemma readWhile_pos (cond : charclass) l :
  forall l', readWhile cond l = Some l' -> pos l <= pos l' /\ input l' = input l.
Proof.
  funelim (readWhile cond l); intros l2 E.
  - injection E as <-. split; [lia | reflexivity].
  - match goal with
    | IH : forall l', readWhile _ _ = Some l' -> _ |- _ => destruct (IH _ E) as [P I]
    end.
    match goal with
    | Hr : readChar _ = Some _ |- _ => destruct (readChar_pos _ _ Hr) as [P1 I1]
    end.
    split; [lia | congruence].
  - discriminate.
Qed.

Lemma NextToken_pos l tok l' :
  NextToken l = Some (tok, l') -> pos l <= pos l' /\ input l' = input l.
Proof.
  unfold NextToken.
  destruct (readWhile spaces l) as [l1|] eqn:W; [|discriminate].
  apply readWhile_pos in W as [P1 I1].
  destruct (ch l1 =? 0).
  - intros [= _ <-]. auto.
  - destruct (IsDigit (ch l1)).
    + unfold readNumber.
      destruct (readWhile digits l1) as [l2|] eqn:W2; [|discriminate].
      apply readWhile_pos in W2 as [P2 I2].
      destruct (slice (input l2) (pos l1 - 1) (pos l2 - 1)); [|discriminate].
      intros [= _ <-]. split; [lia | congruence].
    + destruct (readChar l1) as [l2|] eqn:R; [|discriminate].
      apply readChar_pos in R as [P2 I2].
      intros [= _ <-]. split; [lia | congruence].
Qed.

Lemma prefix_len_le cond s : (prefix_len cond s <= String.length s)%nat.
Proof.
  induction s as [|b s IH]; cbn; [lia|].
  destruct (cond (rune_of_byte b)); lia.
Qed.

Lemma readWhile_at (cond : charclass) s k :
  readWhile cond (lexer_at s k)
  = Some (lexer_at s (k + prefix_len cond (drop k s))).
Proof.
  remember (drop k s) as suf eqn:D. revert k D.
  induction suf as [|b suf IH]; intros k D; rewrite readWhile_step.
  - unfold lexer_at at 1; cbn [ch]. rewrite <- D. cbn.
    rewrite (holds_0 cond). now rewrite Nat.add_0_r.
  - unfold lexer_at at 1; cbn [ch]. rewrite <- D. cbn.
    destruct (holds cond (rune_of_byte b)) eqn:C.
    + rewrite readChar_at. symmetry in D. apply drop_succ in D.
      rewrite (IH (S k) (eq_sym D)). do 2 f_equal. lia.
    + now rewrite Nat.add_0_r.
Qed.

(** [NextToken] on a lexer of [s] at offset [k] is [scan] on the bytes
    from [k] on: it never panics there. *)
Lemma NextToken_at s k :
  NextToken (lexer_at s k)
  = Some (fst (scan (drop k s)), lexer_at s (k + snd (scan (drop k s)))).
Proof.
  unfold NextToken. rewrite (readWhile_at spaces). cbn [holds spaces].
  unfold scan.
  set (n := prefix_len IsSpace (drop k s)).
  change (ch (lexer_at s (k + n))) with (head_rune (drop (k + n) s)).
  rewrite (drop_add k n s).
  destruct (head_rune (drop n (drop k s)) =? 0) eqn:Z0; [reflexivity|].
  destruct (IsDigit (head_rune (drop n (drop k s)))) eqn:Dg; cbn [fst snd].
  - unfold readNumber. rewrite (readWhile_at digits). cbn [holds digits].
    rewrite drop_add.
    set (m := prefix_len IsDigit (drop n (drop k s))).
    cbn [lexer_at input pos].
    unfold slice.
    pose proof (prefix_len_le IsDigit (drop n (drop k s))) as Lm. fold m in Lm.
    rewrite !drop_length in Lm.
    assert (B : (0 <=? Z.of_nat (k + n) + 1 - 1)
                && (Z.of_nat (k + n) + 1 - 1 <=? Z.of_nat (k + n + m) + 1 - 1)
                && (Z.of_nat (k + n + m) + 1 - 1 <=? len s) = true).
    { unfold len. rewrite !andb_true_iff, !Z.leb_le.
      assert (m = 0 \/ 0 < m)%nat as [M|M] by lia; [|lia].
      exfalso. unfold m in M.
      destruct (drop n (drop k s)) as [|b r]; [discriminate|].
      cbn in M, Dg. rewrite Dg in M. discriminate. }
    rewrite B.
    replace (Z.to_nat (Z.of_nat (k + n) + 1 - 1)) with (k + n)%nat by lia.
    replace (Z.to_nat (Z.of_nat (k + n + m) + 1 - 1 - (Z.of_nat (k + n) + 1 - 1)))
      with m by lia.
    rewrite substring_drop, drop_add.
    now rewrite Nat.add_assoc.
  - rewrite readChar_at. do 3 f_equal. lia.
Qed.

End LexerFacts.

(** ** The lexer consumes its input *)

Section LexerProgress.

Lemma readChar_left l l' :
  readChar l = Some l' ->
  (lexer_left l' <= lexer_left l)%nat
  /\ (ch l <> 0 -> (lexer_left l' < lexer_left l)%nat).
Proof.
  unfold readChar, lexer_left.
  destruct (len (input l) <=? pos l) eqn:E.
  - intros [= <-]. cbn [input pos ch]. apply Z.leb_le in E.
    change (0 =? 0) with true. cbv iota.
    split; [lia|]. intros N. apply Z.eqb_neq in N. rewrite N. lia.
  - destruct (index (input l) (pos l)) as [b|] eqn:I; [|discriminate].
    intros [= <-]. cbn [input pos ch]. apply Z.leb_gt in E.
    unfold index in I. destruct (pos l <? 0) eqn:N; [discriminate|].
    apply Z.ltb_ge in N.
    split.
    + destruct (rune_of_byte b =? 0); destruct (ch l =? 0); lia.
    + intros N0. apply Z.eqb_neq in N0. rewrite N0.
      destruct (rune_of_byte b =? 0); lia.
Qed.

Lemma class_not_0 (cond : charclass) r : cond r = true -> r <> 0.
Proof. intros H ->. rewrite (holds_0 cond) in H. discriminate. Qed.

Lemma readWhile_left (cond : charclass) l :
  forall l', readWhile cond l = Some l' ->
  (lexer_left l' <= lexer_left l)%nat
  /\ (cond (ch l) = true -> (lexer_left l' < lexer_left l)%nat).
Proof.
  funelim (readWhile cond l); intros l2 E.
  - injection E as <-. split; [lia|]. congruence.
  - match goal with
    | IH : forall l', readWhile _ _ = Some l' -> _ |- _ => destruct (IH _ E) as [P _]
    end.
    match goal with
    | Hr : readChar _ = Some _, Hc : holds _ _ = true |- _ =>
        destruct (readChar_left _ _ Hr) as [_ Q];
        specialize (Q (class_not_0 _ _ Hc))
    end.
    split; [lia | intros _; lia].
  - discriminate.
Qed.

Lemma NextToken_left l tok l' :
  NextToken l = Some (tok, l') ->
  (lexer_left l' <= lexer_left l)%nat
  /\ (Type_ tok <> EOF -> (lexer_left l' < lexer_left l)%nat).
Proof.
  unfold NextToken.
  destruct (readWhile spaces l) as [l1|] eqn:W; [|discriminate].
  apply readWhile_left in W as [W _].
  destruct (ch l1 =? 0) eqn:Z0.
  - intros [= <- <-]. split; [exact W | cbn; congruence].
  - destruct (IsDigit (ch l1)) eqn:Dg.
    + unfold readNumber.
      destruct (readWhile digits l1) as [l2|] eqn:W2; [|discriminate].
      apply readWhile_left in W2 as [_ W2]. specialize (W2 Dg).
      destruct (slice (input l2) (pos l1 - 1) (pos l2 - 1)); [|discriminate].
      intros [= _ <-]. split; [lia | intros _; lia].
    + destruct (readChar l1) as [l2|] eqn:R; [|discriminate].
      apply readChar_left in R as [_ R].
      apply Z.eqb_neq in Z0. specialize (R Z0).
      intros [= _ <-]. split; [lia | intros _; lia].
Qed.

Lemma nextToken_left p p' :
  nextToken p = Some p' -> Type_ (curr p) <> EOF ->
  (tokens_left p' < tokens_left p)%nat.
Proof.
  unfold nextToken, tokens_left.
  destruct (NextToken (lexer p)) as [[tok l]|] eqn:N; [|discriminate].
  intros [= <-] C. cbn [lexer curr].
  apply NextToken_left in N as [N1 N2].
  destruct (Type_ (curr p)); try congruence;
    destruct (Type_ tok) eqn:T;
    try (assert (lexer_left l < lexer_left (lexer p))%nat by (apply N2; congruence)); lia.
Qed.

End LexerProgress.

(** ** Spelled input and the tokens the lexer makes of it *)

Section Spelling.

Lemma symbolToken_token_of b :
  symbolToken (rune_of_byte b) = token_of (LSymbol b).
Proof.
  destruct b as [[] [] [] [] [] [] [] []]; reflexivity.
Qed.

Lemma prefix_len_app cond ws s :
  all_in cond ws = true ->
  prefix_len cond (ws ++ s) = (String.length ws + prefix_len cond s)%nat.
Proof.
  induction ws as [|b ws IH]; cbn; [reflexivity|].
  intros H. apply andb_true_iff in H as [H1 H2]. rewrite H1.
  now rewrite IH.
Qed.

Lemma drop_app_add a n b :
  drop (String.length a + n) (a ++ b) = drop n b.
Proof. now rewrite drop_add, drop_app. Qed.

(** Leading whitespace only moves the cursor. *)
Lemma scan_space ws s :
  all_space ws = true ->
  scan (ws ++ s) = (fst (scan s), (String.length ws + snd (scan s))%nat).
Proof.
  intros H. unfold scan.
  rewrite (prefix_len_app IsSpace ws s H), drop_app_add.
  destruct (head_rune (drop (prefix_len IsSpace s) s) =? 0); cbn [fst snd];
    [reflexivity|].
  destruct (IsDigit (head_rune (drop (prefix_len IsSpace s) s))); cbn [fst snd];
    f_equal; lia.
Qed.

Lemma all_in_prefix_len cond s : all_in cond s = true -> prefix_len cond s = String.length s.
Proof.
  induction s as [|b s IH]; cbn; [reflexivity|].
  intros H. apply andb_true_iff in H as [H1 H2]. rewrite H1. now rewrite IH.
Qed.

Lemma prefix_len_head cond s : cond (head_rune s) = false -> prefix_len cond s = O.
Proof. destruct s as [|b s]; cbn; [reflexivity|]. now intros ->. Qed.

Lemma all_digits_all_in s : Fmt.all_digits s = all_in IsDigit s.
Proof. induction s as [|b s IH]; cbn; [reflexivity | now rewrite IH]. Qed.

Lemma scan_lexeme x s :
  lexeme_ok x = true -> separated x s = true ->
  scan (text x ++ s) = (token_of x, String.length (text x)).
Proof.
  destruct x as [ds|b]; cbn [lexeme_ok text separated token_of].
  - intros Hn Hs. apply negb_true_iff in Hs.
    destruct ds as [|b ds]; [discriminate|]. cbn in Hn.
    apply andb_true_iff in Hn as [Hb Hds]. rewrite all_digits_all_in in Hds.
    unfold scan.
    assert (Sp : IsSpace (rune_of_byte b) = false).
    { destruct b as [[] [] [] [] [] [] [] []]; try reflexivity; discriminate. }
    assert (Nz : (rune_of_byte b =? 0) = false).
    { destruct b as [[] [] [] [] [] [] [] []]; try reflexivity; discriminate. }
    cbn [append prefix_len]. rewrite Sp. cbn [drop head_rune].
    rewrite Nz, Hb. cbn [prefix_len]. rewrite Hb.
    rewrite (prefix_len_app IsDigit ds s Hds), (prefix_len_head IsDigit s Hs).
    rewrite Nat.add_0_r.
    change (String b (ds ++ s)) with (String b ds ++ s).
    change (S (String.length ds)) with (String.length (String b ds)).
    now rewrite substring_app.
  - intros Hb _. apply andb_true_iff in Hb as [Hb Hd].
    apply andb_true_iff in Hb as [Hz Hs].
    apply negb_true_iff in Hz, Hs, Hd.
    unfold scan. cbn [append prefix_len]. rewrite Hs. cbn [drop head_rune].
    rewrite Hz, Hd. now rewrite symbolToken_token_of.
Qed.

Lemma scan_spelled ws x s :
  all_space ws = true -> lexeme_ok x = true -> separated x s = true ->
  scan (ws ++ text x ++ s)
  = (token_of x, (String.length ws + String.length (text x))%nat).
Proof.
  intros Hw Hx Hs. rewrite (scan_space _ _ Hw), (scan_lexeme _ _ Hx Hs).
  reflexivity.
Qed.

Lemma scan_all_space ws :
  all_space ws = true -> scan ws = (mkToken EOF "", String.length ws).
Proof.
  intros H. rewrite <- (app_empty_r ws) at 1. rewrite (scan_space _ _ H).
  cbn. now rewrite Nat.add_0_r.
Qed.

Lemma nextToken_parser_at s k :
  nextToken (parser_at s k)
  = Some (parser_at s (k + snd (scan (drop k s)))).
Proof.
  unfold nextToken, parser_at at 1. cbn [lexer]. now rewrite NextToken_at.
Qed.

Lemma NewParser_at s : NewParser (lexer_at s 0) = Some (parser_at s 0).
Proof.
  unfold NewParser, nextToken. cbn [lexer]. now rewrite NextToken_at.
Qed.

(** The lexer turns spelled lexemes into their tokens, one per call. *)
Lemma spells_feeds xs suf rest :
  spells xs suf rest ->
  forall s k, drop k s = suf ->
  exists k', drop k' s = rest
    /\ feeds (parser_at s k) (map token_of xs) (parser_at s k').
Proof.
  induction 1 as [rest | ws x xs s' rest Hw Hx Hs Hsp IH]; intros s k D.
  - exists k. split; [exact D | constructor].
  - pose proof (scan_spelled ws x s' Hw Hx Hs) as Sc.
    destruct (IH s (k + (String.length ws + String.length (text x)))%nat)
      as [k' [D' F]].
    { rewrite drop_add, D.
      rewrite <- app_assoc_s, <- app_length_s. apply drop_app. }
    exists k'. split; [exact D'|].
    cbn [map].
    replace (token_of x) with (curr (parser_at s k))
      by (unfold parser_at; cbn [curr]; now rewrite D, Sc).
    econstructor; [apply nextToken_parser_at|].
    rewrite D, Sc. exact F.
Qed.

End Spelling.

(** ** Fuel: more never changes a result, and [Parse] has enough *)

Section Fuel.

Variable Sscanf_other : string -> option float64.

Local Abbreviation parseExpr' := (parseExpr Sscanf_other).
Local Abbreviation parseTerm' := (parseTerm Sscanf_other).
Local Abbreviation parseFactor' := (parseFactor Sscanf_other).
Local Abbreviation Parse' := (Parse Sscanf_other).

Lemma try_fuel r k : try r k <> NoFuel -> r <> NoFuel.
Proof. intros H ->. now apply H. Qed.

Lemma foldOps_extends isOp f g :
  extends f g ->
  forall n m left, (n <= m)%nat ->
  extends (foldOps isOp f n left) (foldOps isOp g m left).
Proof.
  intros Hfg. induction n as [|n IH]; intros m left Hle p Hp.
  - now contradiction Hp.
  - destruct m as [|m]; [lia|]. cbn [foldOps] in *.
    destruct (isOp (Type_ (curr p))); [|reflexivity].
    destruct (nextToken p) as [p1|]; [|reflexivity].
    pose proof (try_fuel _ _ Hp) as Hf. rewrite (Hfg p1 Hf).
    destruct (f p1) as [[x [err|]] p2| |]; cbn [try] in *; try reflexivity.
    apply IH; [lia | exact Hp].
Qed.

Lemma parse_extends n :
  forall m, (n <= m)%nat ->
  extends (parseExpr' n) (parseExpr' m)
  /\ extends (parseTerm' n) (parseTerm' m)
  /\ extends (parseFactor' n) (parseFactor' m).
Proof.
  induction n as [|n IH]; intros m Hle.
  - repeat split; intros p Hp; now contradiction Hp.
  - destruct m as [|m]; [lia|].
    destruct (IH m ltac:(lia)) as [IHe [IHt IHf]].
    repeat split; intros p Hp; cbn [parseExpr parseTerm
                                     parseFactor] in *.
    + pose proof (try_fuel _ _ Hp) as Hf. rewrite (IHt p Hf).
      destruct (parseTerm' n p) as [[x [err|]] p2| |]; cbn [try] in *;
        try reflexivity.
      apply (foldOps_extends isAddOp _ _ IHt); [lia | exact Hp].
    + pose proof (try_fuel _ _ Hp) as Hf. rewrite (IHf p Hf).
      destruct (parseFactor' n p) as [[x [err|]] p2| |]; cbn [try] in *;
        try reflexivity.
      apply (foldOps_extends isMulOp _ _ IHf); [lia | exact Hp].
    + destruct (Type_ (curr p)); try reflexivity.
      destruct (nextToken p) as [p1|]; [|reflexivity].
      pose proof (try_fuel _ _ Hp) as Hf. rewrite (IHe p1 Hf).
      reflexivity.
Qed.

Lemma foldOps_settles isOp operand :
  isOp EOF = false ->
  forall fuel left p,
  (tokens_left p < fuel)%nat ->
  (forall p1, (tokens_left p1 < tokens_left p)%nat -> settles p1 (operand p1)) ->
  foldOps isOp operand fuel left p <> NoFuel
  /\ forall x p', foldOps isOp operand fuel left p = Returns (x, None) p' ->
       (tokens_left p' <= tokens_left p)%nat.
Proof.
  intros HE. induction fuel as [|fuel IH]; intros left p Hf Hop; [lia|].
  cbn [foldOps].
  destruct (isOp (Type_ (curr p))) eqn:O.
  - destruct (nextToken p) as [p1|] eqn:N; [|split; [discriminate | discriminate]].
    assert (L1 : (tokens_left p1 < tokens_left p)%nat).
    { apply nextToken_left; [exact N|]. intros C. rewrite C in O. congruence. }
    destruct (Hop p1 L1) as [S1 S2].
    destruct (operand p1) as [[x [err|]] p2| |]; cbn [try].
    + split; discriminate.
    + specialize (S2 _ _ eq_refl).
      destruct (IH (BinaryOp left (curr p) x) p2) as [I1 I2].
      * lia.
      * intros p3 L3. apply Hop. lia.
      * split; [exact I1|]. intros y p' E. specialize (I2 _ _ E). lia.
    + split; discriminate.
    + now contradiction S1.
  - split; [discriminate|]. intros x p' [= _ <-]. lia.
Qed.

Lemma parse_settles fuel :
  (forall p, (3 * tokens_left p + 1 <= fuel)%nat -> settles p (parseFactor' fuel p))
  /\ (forall p, (3 * tokens_left p + 2 <= fuel)%nat -> settles p (parseTerm' fuel p))
  /\ (forall p, (3 * tokens_left p + 3 <= fuel)%nat -> settles p (parseExpr' fuel p)).
Proof.
  induction fuel as [|fuel [IHf [IHt IHe]]].
  - repeat split; intros; lia.
  - repeat split; cbn [parseExpr parseTerm parseFactor].
    + destruct (Type_ (curr p)) eqn:T; try discriminate.
      * destruct (nextToken p); discriminate.
      * destruct (nextToken p) as [p1|] eqn:N; [|discriminate].
        assert (L1 : (tokens_left p1 < tokens_left p)%nat)
          by (apply nextToken_left; [exact N | congruence]).
        destruct (IHe p1 ltac:(lia)) as [S1 S2].
        destruct (parseExpr' fuel p1) as [[x [err|]] p2| |]; cbn [try];
          try discriminate; [|now contradiction S1].
        destruct (Type_ (curr p2)); try discriminate.
        destruct (nextToken p2); discriminate.
    + destruct (Type_ (curr p)) eqn:T; try discriminate.
      * destruct (nextToken p) as [p1|] eqn:N; [|discriminate].
        intros x p' [= _ <-]. apply nextToken_left; [exact N | congruence].
      * destruct (nextToken p) as [p1|] eqn:N; [|discriminate].
        assert (L1 : (tokens_left p1 < tokens_left p)%nat)
          by (apply nextToken_left; [exact N | congruence]).
        destruct (IHe p1 ltac:(lia)) as [S1 S2].
        destruct (parseExpr' fuel p1) as [[x [err|]] p2| |]; cbn [try];
          try discriminate.
        specialize (S2 _ _ eq_refl).
        destruct (Type_ (curr p2)) eqn:T2; try discriminate.
        destruct (nextToken p2) as [p3|] eqn:N2; [|discriminate].
        intros y p' [= _ <-].
        assert ((tokens_left p3 < tokens_left p2)%nat)
          by (apply nextToken_left; [exact N2 | congruence]).
        lia.
    + destruct (IHf p ltac:(lia)) as [S1 S2].
      destruct (parseFactor' fuel p) as [[x [err|]] p1| |]; cbn [try];
        try discriminate; [|now contradiction S1].
      specialize (S2 _ _ eq_refl).
      apply (foldOps_settles isMulOp); [reflexivity | lia|].
      intros p2 L2. apply IHf. lia.
    + destruct (IHf p ltac:(lia)) as [S1 S2].
      destruct (parseFactor' fuel p) as [[x [err|]] p1| |]; cbn [try];
        try discriminate.
      specialize (S2 _ _ eq_refl). intros y p' E.
      apply (foldOps_settles isMulOp) in E;
        [lia | reflexivity | lia |].
      intros p2 L2. apply IHf. lia.
    + destruct (IHt p ltac:(lia)) as [S1 S2].
      destruct (parseTerm' fuel p) as [[x [err|]] p1| |]; cbn [try];
        try discriminate; [|now contradiction S1].
      specialize (S2 _ _ eq_refl).
      apply (foldOps_settles isAddOp); [reflexivity | lia|].
      intros p2 L2. apply IHt. lia.
    + destruct (IHt p ltac:(lia)) as [S1 S2].
      destruct (parseTerm' fuel p) as [[x [err|]] p1| |]; cbn [try];
        try discriminate.
      specialize (S2 _ _ eq_refl). intros y p' E.
      apply (foldOps_settles isAddOp) in E;
        [lia | reflexivity | lia |].
      intros p2 L2. apply IHt. lia.
Qed.

(** [Parse'] never runs out of fuel. *)
Lemma Parse_fuel_enough p : Parse' p <> NoFuel.
Proof. apply (parse_settles (3 * tokens_left p + 3)). lia. Qed.

(** Whatever [parseExpr'] returns with some fuel, [Parse'] returns. *)
Lemma Parse_eq fuel p : parseExpr' fuel p <> NoFuel -> Parse' p = parseExpr' fuel p.
Proof.
  intros H. unfold Parse.
  destruct (Nat.le_ge_cases fuel (3 * tokens_left p + 3)) as [L|L].
  - now apply (parse_extends fuel _ L).
  - symmetry. apply (parse_extends _ fuel L). apply Parse_fuel_enough.
Qed.

Lemma parseFactor_eq n m p :
  (3 * tokens_left p + 1 <= n)%nat -> parseFactor' m p <> NoFuel ->
  parseFactor' n p = parseFactor' m p.
Proof.
  intros Hn Hm.
  destruct (Nat.le_ge_cases m n) as [L|L].
  - now apply (parse_extends m n L).
  - symmetry. apply (parse_extends n m L). now apply parse_settles.
Qed.

End Fuel.

(** ** The parser on the tokens of a derivation *)

Section ParserCorrect.

Variable Sscanf_other : string -> option float64.

Local Abbreviation parseExpr' := (parseExpr Sscanf_other).
Local Abbreviation parseTerm' := (parseTerm Sscanf_other).
Local Abbreviation parseFactor' := (parseFactor Sscanf_other).
Local Abbreviation Parse' := (Parse Sscanf_other).
Local Abbreviation leaf := (parseNumber Sscanf_other).

Lemma feeds_nil_inv p p' : feeds p [] p' -> p = p'.
Proof. now inversion 1. Qed.

Lemma feeds_cons_inv p tok toks p' :
  feeds p (tok :: toks) p' ->
  curr p = tok /\ exists p1, nextToken p = Some p1 /\ feeds p1 toks p'.
Proof. inversion 1; subst. split; [reflexivity | eauto]. Qed.

Lemma feeds_app_inv a : forall p b p',
  feeds p (a ++ b) p' -> exists pm, feeds p a pm /\ feeds pm b p'.
Proof.
  induction a as [|tok a IH]; intros p b p' F; cbn in F.
  - exists p. split; [constructor | exact F].
  - apply feeds_cons_inv in F as [C [p1 [N F]]].
    destruct (IH _ _ _ F) as [pm [F1 F2]].
    exists pm. split; [|exact F2]. rewrite <- C. econstructor; eauto.
Qed.

Lemma feeds_app a b p pm p' :
  feeds p a pm -> feeds pm b p' -> feeds p (a ++ b) p'.
Proof.
  induction 1 as [|p p1 toks pm N F IH]; intros G; cbn; [exact G|].
  econstructor; eauto.
Qed.

Lemma addop_token_of op : token_of (LSymbol (addop_byte op)) = addop_token op.
Proof. destruct op; reflexivity. Qed.

Lemma mulop_token_of op : token_of (LSymbol (mulop_byte op)) = mulop_token op.
Proof. destruct op; reflexivity. Qed.

(** After a term of an expression comes an additive operator or what
    follows the expression: never a multiplicative operator. *)
Lemma expression_rest_head r pm p' :
  feeds pm (map token_of (lexemes_expression_rest r)) p' ->
  isMulOp (Type_ (curr p')) = false -> isMulOp (Type_ (curr pm)) = false.
Proof.
  destruct r as [|op t more]; cbn [lexemes_expression_rest map]; intros F H.
  - apply feeds_nil_inv in F. now subst.
  - apply feeds_cons_inv in F as [C _]. rewrite C, addop_token_of.
    destruct op; reflexivity.
Qed.

Lemma parses_grammar :
  (forall e, parses_expression Sscanf_other e)
  /\ (forall r, parses_expression_rest Sscanf_other r)
  /\ (forall t, parses_term Sscanf_other t)
  /\ (forall r, parses_term_rest Sscanf_other r)
  /\ (forall f, parses_factor Sscanf_other f).
Proof.
  apply grammar_ind.
  - (* expression := term rest *)
    intros t IHt more IHm p p' F HA HM.
    cbn [lexemes_expression] in F. rewrite map_app in F.
    apply feeds_app_inv in F as [pm [F1 F2]].
    destruct (IHt p pm F1 (expression_rest_head _ _ _ F2 HM)) as [n1 H1].
    destruct (IHm (tree_term leaf t) pm p' F2 HA HM) as [n2 H2].
    exists (S (Nat.max n1 n2)). intros [|n] Hn; [lia|].
    cbn [parseExpr tree_expression].
    rewrite H1 by lia. cbn [try]. apply H2; lia.
  - (* no more terms *)
    intros left p p' F HA HM. apply feeds_nil_inv in F. subst p'.
    exists 1%nat. intros n [|m] _ Hm; [lia|].
    cbn [foldOps tree_expression_rest]. now rewrite HA.
  - (* ("+" | "-") term rest *)
    intros op t IHt more IHm left p p' F HA HM.
    cbn [lexemes_expression_rest map] in F. rewrite map_app in F.
    apply feeds_cons_inv in F as [C [p1 [N F]]].
    apply feeds_app_inv in F as [pm [F1 F2]].
    destruct (IHt p1 pm F1 (expression_rest_head _ _ _ F2 HM)) as [n1 H1].
    destruct (IHm (BinaryOp left (curr p) (tree_term leaf t)) pm p' F2 HA HM)
      as [n2 H2].
    exists (S (Nat.max n1 n2)). intros n [|m] Hn Hm; [lia|].
    cbn [foldOps tree_expression_rest].
    rewrite addop_token_of in C.
    assert (O : isAddOp (Type_ (curr p)) = true) by (rewrite C; now destruct op).
    rewrite O, N, H1 by lia. cbn [try]. rewrite <- C. apply H2; lia.
  - (* term := factor rest *)
    intros f IHf more IHm p p' F HM.
    cbn [lexemes_term] in F. rewrite map_app in F.
    apply feeds_app_inv in F as [pm [F1 F2]].
    destruct (IHf p pm F1) as [n1 H1].
    destruct (IHm (tree_factor leaf f) pm p' F2 HM) as [n2 H2].
    exists (S (Nat.max n1 n2)). intros [|n] Hn; [lia|].
    cbn [parseTerm tree_term].
    rewrite H1 by lia. cbn [try]. apply H2; lia.
  - (* no more factors *)
    intros left p p' F HM. apply feeds_nil_inv in F. subst p'.
    exists 1%nat. intros n [|m] _ Hm; [lia|].
    cbn [foldOps tree_term_rest]. now rewrite HM.
  - (* ("*" | "/") factor rest *)
    intros op f IHf more IHm left p p' F HM.
    cbn [lexemes_term_rest map] in F. rewrite map_app in F.
    apply feeds_cons_inv in F as [C [p1 [N F]]].
    apply feeds_app_inv in F as [pm [F1 F2]].
    destruct (IHf p1 pm F1) as [n1 H1].
    destruct (IHm (BinaryOp left (curr p) (tree_factor leaf f)) pm p' F2 HM)
      as [n2 H2].
    exists (S (Nat.max n1 n2)). intros n [|m] Hn Hm; [lia|].
    cbn [foldOps tree_term_rest].
    rewrite mulop_token_of in C.
    assert (O : isMulOp (Type_ (curr p)) = true) by (rewrite C; now destruct op).
    rewrite O, N, H1 by lia. cbn [try]. rewrite <- C. apply H2; lia.
  - (* factor := NUMBER *)
    intros d ds p p' F. cbn [lexemes_factor map token_of] in F.
    apply feeds_cons_inv in F as [C [p1 [N F]]].
    apply feeds_nil_inv in F. subst p1.
    exists 1%nat. intros [|n] Hn; [lia|].
    cbn [parseFactor tree_factor]. rewrite C. cbn [Type_ Value]. now rewrite N.
  - (* factor := "(" expression ")" *)
    intros e IHe p p' F. cbn [lexemes_factor map] in F.
    apply feeds_cons_inv in F as [C [p1 [N F]]].
    rewrite map_app in F. apply feeds_app_inv in F as [pm [F1 F2]].
    cbn [map] in F2.
    apply feeds_cons_inv in F2 as [C2 [p3 [N2 F2]]].
    apply feeds_nil_inv in F2. subst p3.
    destruct (IHe p1 pm F1) as [n1 H1]; [now rewrite C2 | now rewrite C2 |].
    exists (S n1). intros [|n] Hn; [lia|].
    cbn [parseFactor tree_factor]. rewrite C. cbn [token_of Ascii.eqb Type_].
    cbn. rewrite N, H1 by lia. cbn [try]. rewrite C2. cbn. now rewrite N2.
Qed.

(** A spelled derivation, followed by anything that does not begin with
    an operator, parses to its tree; the parser stops at what follows. *)
Lemma ParseString_spelled e s rest :
  spells (lexemes_expression e) s rest ->
  isAddOp (Type_ (fst (scan rest))) = false ->
  isMulOp (Type_ (fst (scan rest))) = false ->
  exists p', ParseString Sscanf_other s
             = Returns (tree_expression leaf e, None) p'
          /\ curr p' = fst (scan rest).
Proof.
  intros Sp HA HM.
  destruct (spells_feeds _ _ _ Sp s 0%nat eq_refl) as [k' [D F]].
  destruct parses_grammar as [PE _].
  destruct (PE e _ _ F) as [n0 H0].
  { unfold parser_at; cbn [curr]. now rewrite D. }
  { unfold parser_at; cbn [curr]. now rewrite D. }
  exists (parser_at s k'). split.
  - unfold ParseString. rewrite NewLexer_at, NewParser_at.
    rewrite (Parse_eq _ n0); rewrite (H0 n0 (Nat.le_refl _)); [reflexivity | discriminate].
  - unfold parser_at; cbn [curr]. now rewrite D.
Qed.

End ParserCorrect.

(** ** Lexers made by [NewLexer] *)

Section LexerInvariant.

Lemma head_rune_byte s : 0 <= head_rune s <= 255.
Proof.
  destruct s as [|b s]; cbn; [lia|].
  destruct b as [[] [] [] [] [] [] [] []]; cbn; lia.
Qed.

(** The lookahead is 0 or [rune(b)] for a byte [b]. *)
Lemma ch_byte l : lexer_ok l -> 0 <= ch l <= 255.
Proof. intros [_ ->]. apply head_rune_byte. Qed.

Lemma scan_le s : (snd (scan s) <= String.length s)%nat.
Proof.
  unfold scan.
  pose proof (prefix_len_le IsSpace s) as Ln.
  set (n := prefix_len IsSpace s) in *.
  pose proof (drop_length n s) as Ld.
  pose proof (prefix_len_le IsDigit (drop n s)) as Lm.
  destruct (head_rune (drop n s) =? 0) eqn:Z0; cbn [snd]; [exact Ln|].
  destruct (IsDigit (head_rune (drop n s))); cbn [snd]; [lia|].
  destruct (drop n s); [discriminate | cbn in Ld; lia].
Qed.

Lemma NewLexer_ok s : exists l, NewLexer s = Some l /\ lexer_ok l.
Proof.
  exists (lexer_at s 0). split; [apply NewLexer_at | apply lexer_ok_at; lia].
Qed.

(** On a lexer that satisfies the invariant, [NextToken] does not panic
    and keeps the invariant. *)
Lemma NextToken_ok l :
  lexer_ok l ->
  exists tok l', NextToken l = Some (tok, l') /\ lexer_ok l'
    /\ tok = fst (scan (unread l))
    /\ unread l' = drop (snd (scan (unread l))) (unread l).
Proof.
  intros H. destruct (lexer_ok_inv l H) as [E K].
  set (k := Z.to_nat (pos l - 1)) in *.
  assert (U : unread l = drop k (input l)) by reflexivity.
  rewrite U.
  eexists _, _. split.
  { transitivity (NextToken (lexer_at (input l) k));
      [f_equal; exact E | apply NextToken_at]. }
  pose proof (scan_le (drop k (input l))) as L. rewrite drop_length in L.
  split; [apply lexer_ok_at; lia|].
  split; [reflexivity|]. now rewrite unread_at, drop_add.
Qed.

Lemma lexer_after_ok n : forall l,
  lexer_ok l -> exists l', lexer_after n l = Some l' /\ lexer_ok l'.
Proof.
  induction n as [|n IH]; intros l H; cbn [lexer_after].
  - eauto.
  - destruct (NextToken_ok l H) as [tok [l1 [N [H1 _]]]]. rewrite N. now apply IH.
Qed.

Lemma lexer_after_input n : forall l l',
  lexer_after n l = Some l' -> input l' = input l /\ pos l <= pos l'.
Proof.
  induction n as [|n IH]; intros l l'; cbn [lexer_after].
  - intros [= ->]. split; [reflexivity | lia].
  - destruct (NextToken l) as [[t l1]|] eqn:T; [|discriminate].
    intros A. apply IH in A as [A1 A2]. apply NextToken_pos in T as [T1 T2].
    split; [congruence | lia].
Qed.

(** The cursor never passes one beyond the end of the input: the
    increments of [pos] cannot overflow. *)
Lemma pos_le_len s n :
  exists l l', NewLexer s = Some l /\ lexer_after n l = Some l'
    /\ 1 <= pos l' <= len s + 1.
Proof.
  destruct (NewLexer_ok s) as [l [N H]].
  destruct (lexer_after_ok n l H) as [l' [A H']].
  exists l, l'. repeat split; try assumption; try apply H'.
  destruct (lexer_after_input _ _ _ A) as [I _].
  rewrite NewLexer_at in N. injection N as <-.
  destruct H' as [[_ P] _]. now rewrite I in P.
Qed.

End LexerInvariant.

(** ** Numerals and their float64 *)

Section Numerals.

Variable Sscanf_other : string -> option float64.

Lemma eqb_zero v : eqb v zero = is_zero v.
Proof. destruct v as [s|s| |s m e]; try reflexivity; destruct s; reflexivity. Qed.

Lemma digits_string_all_digits ds : Fmt.all_digits (digits_string ds) = true.
Proof.
  induction ds as [|d ds IH]; cbn; [reflexivity|].
  rewrite IH. now destruct d.
Qed.

Lemma numeral_is_numeral d ds : Fmt.is_numeral (numeral_string d ds) = true.
Proof.
  unfold numeral_string, Fmt.is_numeral. cbn [digits_string].
  apply (digits_string_all_digits (d :: ds)).
Qed.

Lemma decimal_value_digits ds : forall acc,
  Fmt.decimal_value_from acc (digits_string ds)
  = fold_left (fun a x => 10 * a + digit_Z x) ds acc.
Proof.
  induction ds as [|d ds IH]; intros acc; cbn; [reflexivity|].
  rewrite IH. f_equal. now destruct d.
Qed.

Lemma decimal_value_numeral d ds :
  Fmt.decimal_value (numeral_string d ds) = numeral_value d ds.
Proof. apply decimal_value_digits. Qed.

(** On a numeral that rounds to a finite float64, [parseNumber] is the
    rounding to nearest, ties to even. *)
Lemma parseNumber_numeral d ds :
  in_range_factor (Numeral d ds) = true ->
  parseNumber Sscanf_other (numeral_string d ds) = of_Z (numeral_value d ds).
Proof.
  cbn [in_range_factor]. intros H. apply andb_true_iff in H as [L F].
  unfold parseNumber, Fmt.Sscanf_f.
  rewrite numeral_is_numeral, L. cbn [andb].
  unfold Fmt.ParseFloat_numeral. rewrite decimal_value_numeral, F.
  reflexivity.
Qed.

End Numerals.

(** ** [Eval] on the tree of a derivation *)

Section EvalTree.

Variable Sscanf_other : string -> option float64.

Local Abbreviation leaf := (parseNumber Sscanf_other).

Lemma Eval_tree :
  (forall e, in_range_expression e = true ->
     Eval (tree_expression leaf e) = Eval_result (value_expression e))
  /\ (forall r, in_range_expression_rest r = true ->
        forall left x, Eval left = Eval_result x ->
        Eval (tree_expression_rest leaf left r)
        = Eval_result (continue_with x value_expression_rest r))
  /\ (forall t, in_range_term t = true ->
        Eval (tree_term leaf t) = Eval_result (value_term t))
  /\ (forall r, in_range_term_rest r = true ->
        forall left x, Eval left = Eval_result x ->
        Eval (tree_term_rest leaf left r)
        = Eval_result (continue_with x value_term_rest r))
  /\ (forall f, in_range_factor f = true ->
        Eval (tree_factor leaf f) = Eval_result (value_factor f)).
Proof.
  apply grammar_ind.
  - intros t IHt more IHm R. cbn [in_range_expression] in R.
    apply andb_true_iff in R as [Rt Rm].
    cbn [tree_expression value_expression].
    rewrite (IHm Rm _ _ (IHt Rt)). reflexivity.
  - intros _ left x H. cbn [tree_expression_rest]. rewrite H.
    destruct x; reflexivity.
  - intros op t IHt more IHm R left x H. cbn [in_range_expression_rest] in R.
    apply andb_true_iff in R as [Rt Rm].
    cbn [tree_expression_rest].
    rewrite (IHm Rm _ (continue_with x
              (fun acc _ => match value_term t with
                            | Val v => Val (apply_addop op acc v)
                            | DivisionByZero => DivisionByZero
                            end) tt)).
    + destruct x as [acc|]; cbn [continue_with value_expression_rest];
        [|reflexivity].
      destruct (value_term t); reflexivity.
    + cbn [Eval]. rewrite H, (IHt Rt).
      destruct x as [acc|]; cbn [Eval_result continue_with]; [|reflexivity].
      destruct (value_term t) as [v|]; cbn [Eval_result]; [|reflexivity].
      destruct op; reflexivity.
  - intros f IHf more IHm R. cbn [in_range_term] in R.
    apply andb_true_iff in R as [Rf Rm].
    cbn [tree_term value_term].
    rewrite (IHm Rm _ _ (IHf Rf)). reflexivity.
  - intros _ left x H. cbn [tree_term_rest]. rewrite H.
    destruct x; reflexivity.
  - intros op f IHf more IHm R left x H. cbn [in_range_term_rest] in R.
    apply andb_true_iff in R as [Rf Rm].
    cbn [tree_term_rest].
    rewrite (IHm Rm _ (continue_with x
              (fun acc _ => match value_factor f with
                            | Val v => apply_mulop op acc v
                            | DivisionByZero => DivisionByZero
                            end) tt)).
    + destruct x as [acc|]; cbn [continue_with value_term_rest];
        [|reflexivity].
      destruct (value_factor f) as [v|]; [|reflexivity].
      destruct (apply_mulop op acc v); reflexivity.
    + cbn [Eval]. rewrite H, (IHf Rf).
      destruct x as [acc|]; cbn [Eval_result continue_with]; [|reflexivity].
      destruct (value_factor f) as [v|]; cbn [Eval_result]; [|reflexivity].
      destruct op; cbn [mulop_token Type_ apply_mulop]; [reflexivity|].
      rewrite eqb_zero. destruct (is_zero v); reflexivity.
  - intros d ds R. cbn [tree_factor value_factor Eval Eval_result].
    now rewrite (parseNumber_numeral _ _ _ R).
  - intros e IHe R. cbn [in_range_factor] in R.
    cbn [tree_factor value_factor]. now apply IHe.
Qed.

(** Parsing and evaluating a generated string gives the float64 value of
    its derivation. *)
Lemma Run_generated e s :
  generates e s -> in_range_expression e = true ->
  Run Sscanf_other s = Some (printed_value (value_expression e)).
Proof.
  intros [ws [W Sp]] R.
  destruct (ParseString_spelled Sscanf_other e s ws Sp) as [p' [P _]].
  { now rewrite (scan_all_space ws W). }
  { now rewrite (scan_all_space ws W). }
  unfold Run. rewrite P.
  destruct Eval_tree as [E _]. rewrite (E e R).
  destruct (value_expression e); reflexivity.
Qed.

End EvalTree.

(** ** Strings spelled out *)

Section Render.

Lemma spells_render gs rest :
  render_ok gs rest = true -> spells (map snd gs) (render gs rest) rest.
Proof.
  induction gs as [|[ws x] gs IH]; cbn [render render_ok map snd].
  - intros _. constructor.
  - intros H. apply andb_true_iff in H as [H H4].
    apply andb_true_iff in H as [H H3]. apply andb_true_iff in H as [H1 H2].
    constructor; auto.
Qed.

(** A derivation and its lexemes, each after its whitespace, with
    whitespace [ws] at the end: a generated string. *)
Lemma generates_render e gs ws :
  map snd gs = lexemes_expression e -> all_space ws = true ->
  render_ok gs ws = true -> generates e (render gs ws).
Proof.
  intros L W R. exists ws. split; [exact W|]. rewrite <- L.
  now apply spells_render.
Qed.

End Render.


(** ** The first token of a string *)

Section FirstToken.

Lemma first_token_scan s : first_token s = Some (fst (scan s)).
Proof.
  unfold first_token. now rewrite NewLexer_at, NextToken_at.
Qed.

End FirstToken.

(** ** Division by zero in [Eval] *)

Section EvalFacts.

Lemma Eval_error_zero e err : snd (Eval e) = Some err -> fst (Eval e) = zero.
Proof.
  destruct e as [v|l op r|]; cbn [Eval].
  - discriminate.
  - destruct (Eval l) as [vl [el|]]; [reflexivity|].
    destruct (Eval r) as [vr [er|]]; [reflexivity|].
    destruct (Type_ op); try reflexivity; try discriminate.
    destruct (eqb vr zero); [reflexivity | discriminate].
  - reflexivity.
Qed.

Lemma DivByZero_iff e :
  snd (Eval e) = Some "division by zero" <-> DivByZero e.
Proof.
  induction e as [v|l IHl op r IHr|].
  - split; [discriminate | inversion 1].
  - split.
    + cbn [Eval].
      destruct (Eval l) as [vl [el|]] eqn:El.
      * intros H. apply DivByZero_left, IHl. exact H.
      * destruct (Eval r) as [vr [er|]] eqn:Er.
        -- intros H. eapply DivByZero_right; [exact El|]. apply IHr. exact H.
        -- destruct (Type_ op) eqn:T; try discriminate.
           destruct (eqb vr zero) eqn:Z; [|discriminate].
           intros _. eapply DivByZero_here; eauto. now rewrite <- eqb_zero.
    + inversion 1 as [l' op' r' Hl | l' op' r' v El Hr | l' op' r' vl vr El Er T Z];
        subst; cbn [Eval].
      * apply IHl in Hl. destruct (Eval l) as [vl [el|]]; cbn in Hl |- *;
          [exact Hl | discriminate].
      * rewrite El. apply IHr in Hr.
        destruct (Eval r) as [vr [er|]]; cbn in Hr |- *; [exact Hr | discriminate].
      * rewrite El, Er, T, eqb_zero, Z. reflexivity.
  - split; [discriminate | inversion 1].
Qed.

End EvalFacts.

(** ** The cursor *)

Section Cursor.

Lemma lexer_states_ge n : forall l,
  Forall (fun x => pos l <= x) (map pos (lexer_states n l)).
Proof.
  induction n as [|n IH]; intros l; cbn [lexer_states map].
  - constructor; [lia | constructor].
  - constructor; [lia|].
    destruct (NextToken l) as [[tok l']|] eqn:N; [|constructor].
    apply NextToken_pos in N as [N _].
    eapply Forall_impl; [|apply IH]. cbn. intros; lia.
Qed.

Lemma lexer_states_sorted n : forall l,
  StronglySorted Z.le (map pos (lexer_states n l)).
Proof.
  induction n as [|n IH]; intros l; cbn [lexer_states map].
  - repeat constructor.
  - constructor.
    + destruct (NextToken l) as [[tok l']|]; [apply IH | constructor].
    + destruct (NextToken l) as [[tok l']|] eqn:N; [|constructor].
      apply NextToken_pos in N as [N _].
      eapply Forall_impl; [|apply lexer_states_ge]. cbn. intros; lia.
Qed.

End Cursor.

(** ** Symbols *)

Section Symbols.

Lemma encodeRune_ascii b :
  rune_of_byte b <= 127 -> encodeRune (rune_of_byte b) = String b "".
Proof.
  destruct b as [[] [] [] [] [] [] [] []]; cbn; intros H; try reflexivity; lia.
Qed.

Lemma symbolToken_invalid c :
  ~ In c [43; 45; 42; 47; 40; 41] ->
  symbolToken c = mkToken INVALID ("Invalid character: " ++ encodeRune c).
Proof.
  intros H. unfold symbolToken.
  repeat match goal with
  | |- context [?x =? ?y] =>
      destruct (Z.eqb_spec x y) as [E|E];
      [exfalso; apply H; cbn; rewrite E; tauto | clear E]
  end.
  reflexivity.
Qed.

End Symbols.

(** ** The parser sees its input through the tokens only *)

Section SameTokens.

Variable Sscanf_other : string -> option float64.

Lemma same_tokens_next l1 l2 :
  same_tokens l1 l2 ->
  match NextToken l1, NextToken l2 with
  | Some (t1, l1'), Some (t2, l2') => t1 = t2 /\ same_tokens l1' l2'
  | None, None => True
  | _, _ => False
  end.
Proof.
  intros H. pose proof (H 1%nat) as H1. cbn [token_stream] in H1.
  destruct (NextToken l1) as [[t1 l1']|] eqn:N1;
    destruct (NextToken l2) as [[t2 l2']|] eqn:N2; try discriminate; [|exact I].
  injection H1 as ->. split; [reflexivity|].
  intros n. specialize (H (S n)). cbn [token_stream] in H. rewrite N1, N2 in H.
  destruct (token_stream n l1'), (token_stream n l2'); congruence.
Qed.

Lemma same_parser_next p1 p2 :
  same_parser p1 p2 ->
  match nextToken p1, nextToken p2 with
  | Some p1', Some p2' => same_parser p1' p2'
  | None, None => True
  | _, _ => False
  end.
Proof.
  intros [_ H]. apply same_tokens_next in H. unfold nextToken.
  destruct (NextToken (lexer p1)) as [[t1 l1']|];
    destruct (NextToken (lexer p2)) as [[t2 l2']|]; exact H.
Qed.

Lemma try_same r1 r2 k1 k2 :
  same_run r1 r2 ->
  (forall x p1 p2, same_parser p1 p2 -> same_run (k1 x p1) (k2 x p2)) ->
  same_run (try r1 k1) (try r2 k2).
Proof.
  intros H K.
  destruct r1 as [[x1 e1] p1| |]; destruct r2 as [[x2 e2] p2| |];
    cbn [same_run] in H; try tauto; try exact I.
  destruct H as [E S]. injection E as <- <-.
  destruct e1 as [err|]; cbn [try].
  - split; [reflexivity | exact S].
  - now apply K.
Qed.

Lemma foldOps_same isOp f :
  (forall p1 p2, same_parser p1 p2 -> same_run (f p1) (f p2)) ->
  forall fuel left p1 p2, same_parser p1 p2 ->
  same_run (foldOps isOp f fuel left p1) (foldOps isOp f fuel left p2).
Proof.
  intros F. induction fuel as [|fuel IH]; intros left p1 p2 S; cbn [foldOps].
  - exact I.
  - pose proof (same_parser_next _ _ S) as N. destruct S as [C S].
    rewrite <- C. destruct (isOp (Type_ (curr p1))).
    + destruct (nextToken p1) as [p1'|], (nextToken p2) as [p2'|];
        try tauto; try exact I.
      apply try_same; [now apply F|]. intros x q1 q2 Q. now apply IH.
    + cbn. split; [reflexivity | split; assumption].
Qed.

Lemma parse_same fuel :
  (forall p1 p2, same_parser p1 p2 ->
     same_run (parseExpr Sscanf_other fuel p1) (parseExpr Sscanf_other fuel p2))
  /\ (forall p1 p2, same_parser p1 p2 ->
        same_run (parseTerm Sscanf_other fuel p1) (parseTerm Sscanf_other fuel p2))
  /\ (forall p1 p2, same_parser p1 p2 ->
        same_run (parseFactor Sscanf_other fuel p1)
                 (parseFactor Sscanf_other fuel p2)).
Proof.
  induction fuel as [|fuel [IHe [IHt IHf]]].
  - repeat split; intros; exact I.
  - repeat split; intros p1 p2 S; cbn [parseExpr parseTerm parseFactor].
    + apply try_same; [now apply IHt|].
      intros x q1 q2 Q. now apply foldOps_same.
    + apply try_same; [now apply IHf|].
      intros x q1 q2 Q. now apply foldOps_same.
    + pose proof (same_parser_next _ _ S) as N. pose proof S as [C _].
      rewrite <- C.
      destruct (Type_ (curr p1));
        try (cbn; split; [reflexivity | exact S]).
      * destruct (nextToken p1) as [p1'|], (nextToken p2) as [p2'|];
          try tauto; try exact I.
        cbn. split; [reflexivity | exact N].
      * destruct (nextToken p1) as [p1'|], (nextToken p2) as [p2'|];
          try tauto; try exact I.
        apply try_same; [now apply IHe|].
        intros x q1 q2 Q.
        pose proof (same_parser_next _ _ Q) as N2. pose proof Q as [C2 _].
        rewrite <- C2.
        destruct (Type_ (curr q1));
          try (cbn; split; [reflexivity | exact Q]).
        destruct (nextToken q1) as [q1'|], (nextToken q2) as [q2'|];
          try tauto; try exact I.
        cbn. split; [reflexivity | exact N2].
Qed.

Lemma Parse_same p1 p2 :
  same_parser p1 p2 ->
  same_run (Parse Sscanf_other p1) (Parse Sscanf_other p2).
Proof.
  intros S.
  pose proof (proj1 (parse_same (3 * tokens_left p1 + 3)) p1 p2 S) as H.
  fold (Parse Sscanf_other p1) in H.
  rewrite (Parse_eq Sscanf_other (3 * tokens_left p1 + 3) p2); [exact H|].
  pose proof (Parse_fuel_enough Sscanf_other p1) as F.
  destruct (Parse Sscanf_other p1); destruct (parseExpr _ _ p2);
    cbn in H; try tauto; discriminate.
Qed.

End SameTokens.

(** ** The tokens of a spelled string *)

Section SpelledTokens.

Lemma token_stream_eof n : forall s k,
  all_space (drop k s) = true ->
  token_stream n (lexer_at s k) = Some (expected n []).
Proof.
  induction n as [|n IH]; intros s k W; cbn [token_stream expected];
    [reflexivity|].
  rewrite NextToken_at, (scan_all_space _ W). cbn [fst snd].
  rewrite IH; [reflexivity|].
  rewrite drop_add, (drop_all _ (drop k s)); [reflexivity | lia].
Qed.

Lemma token_stream_spelled xs suf ws :
  spells xs suf ws -> all_space ws = true ->
  forall s k n, drop k s = suf ->
  token_stream n (lexer_at s k) = Some (expected n (map token_of xs)).
Proof.
  induction 1 as [rest | w x xs s' rest Hw Hx Hs Hsp IH]; intros W s k n D.
  - apply token_stream_eof. now rewrite D.
  - destruct n as [|n]; [reflexivity|].
    cbn [token_stream map expected].
    rewrite NextToken_at, D, (scan_spelled w x s' Hw Hx Hs). cbn [fst snd].
    rewrite (IH W s _ n); [reflexivity|].
    rewrite drop_add, D, <- app_assoc_s, <- app_length_s. apply drop_app.
Qed.

Lemma parser_at_spelled xs suf ws :
  spells xs suf ws -> all_space ws = true ->
  forall s k, drop k s = suf ->
  curr (parser_at s k) = hd (mkToken EOF "") (map token_of xs)
  /\ forall n, token_stream n (lexer (parser_at s k))
               = Some (expected n (tl (map token_of xs))).
Proof.
  intros Sp.
  destruct Sp as [rest | w x xs' s' rest Hw Hx Hs Hsp]; intros W s k D;
    unfold parser_at; cbn [curr lexer]; rewrite D.
  - rewrite (scan_all_space _ W). cbn [fst snd map hd tl]. split; [reflexivity|].
    intros n. apply token_stream_eof.
    rewrite drop_add, D, (drop_all _ rest); [reflexivity | lia].
  - rewrite (scan_spelled w x s' Hw Hx Hs). cbn [fst snd map hd tl].
    split; [reflexivity|]. intros n.
    apply (token_stream_spelled xs' s' rest Hsp W).
    rewrite drop_add, D, <- app_assoc_s, <- app_length_s. apply drop_app.
Qed.

Lemma same_parser_spelled xs s1 s2 ws1 ws2 :
  spells xs s1 ws1 -> spells xs s2 ws2 ->
  all_space ws1 = true -> all_space ws2 = true ->
  same_parser (parser_at s1 0) (parser_at s2 0).
Proof.
  intros Sp1 Sp2 W1 W2.
  destruct (parser_at_spelled xs s1 ws1 Sp1 W1 s1 0%nat eq_refl) as [C1 T1].
  destruct (parser_at_spelled xs s2 ws2 Sp2 W2 s2 0%nat eq_refl) as [C2 T2].
  split; [congruence|]. intros n. now rewrite T1, T2.
Qed.

Lemma token_of_not_EOF x : lexeme_ok x = true -> Type_ (token_of x) <> EOF.
Proof.
  destruct x as [ds|b]; cbn [token_of]; [discriminate|].
  intros _.
  repeat match goal with
  | |- context [if ?c then _ else _] => destruct c; [discriminate|]
  end.
  discriminate.
Qed.

Lemma text_length x : lexeme_ok x = true -> (1 <= String.length (text x))%nat.
Proof.
  destruct x as [[|b ds]|b]; cbn; try discriminate; intros; lia.
Qed.

Lemma spells_length xs suf rest :
  spells xs suf rest ->
  (List.length xs + String.length rest <= String.length suf)%nat.
Proof.
  induction 1 as [rest | w x xs s' rest Hw Hx Hs Hsp IH]; cbn [List.length].
  - lia.
  - rewrite !app_length_s. pose proof (text_length x Hx). lia.
Qed.

Lemma tokens_until_EOF_spelled xs suf ws :
  spells xs suf ws -> all_space ws = true ->
  forall s k fuel, drop k s = suf -> (List.length xs < fuel)%nat ->
  tokens_until_EOF fuel (lexer_at s k) = map token_of xs.
Proof.
  induction 1 as [rest | w x xs s' rest Hw Hx Hs Hsp IH]; intros W s k fuel D F.
  - destruct fuel as [|fuel]; [cbn in F; lia|]. cbn [tokens_until_EOF map].
    rewrite NextToken_at, D, (scan_all_space _ W). reflexivity.
  - destruct fuel as [|fuel]; [lia|]. cbn [tokens_until_EOF map].
    rewrite NextToken_at, D, (scan_spelled w x s' Hw Hx Hs). cbn [fst snd].
    pose proof (token_of_not_EOF x Hx) as NE.
    rewrite (IH W s _ fuel).
    + destruct (Type_ (token_of x)); congruence.
    + rewrite drop_add, D, <- app_assoc_s, <- app_length_s. apply drop_app.
    + cbn [List.length] in F. lia.
Qed.

Lemma tokenize_spelled xs s ws :
  spells xs s ws -> all_space ws = true -> tokenize s = map token_of xs.
Proof.
  intros Sp W. unfold tokenize. rewrite NewLexer_at.
  apply (tokens_until_EOF_spelled xs s ws Sp W s 0%nat); [reflexivity|].
  pose proof (spells_length _ _ _ Sp). lia.
Qed.

End SpelledTokens.

(** ** The payload of a NUMBER token *)

Section NumberPayload.

Lemma substring_0_0 s : String.substring 0 0 s = "".
Proof. destruct s; reflexivity. Qed.

Lemma digits_prefix_all_digits s :
  Fmt.all_digits (String.substring 0 (prefix_len IsDigit s) s) = true.
Proof.
  induction s as [|b s IH]; [reflexivity|]. cbn [prefix_len].
  destruct (IsDigit (rune_of_byte b)) eqn:D.
  - cbn [String.substring Fmt.all_digits]. now rewrite D, IH.
  - now rewrite substring_0_0.
Qed.

Lemma digits_prefix_is_numeral s :
  IsDigit (head_rune s) = true ->
  Fmt.is_numeral (String.substring 0 (prefix_len IsDigit s) s) = true.
Proof.
  intros H. pose proof (digits_prefix_all_digits s) as A.
  destruct s as [|b s]; [discriminate|]. cbn [head_rune] in H.
  cbn [prefix_len] in *. rewrite H in *. exact A.
Qed.

Lemma symbolToken_not_NUMBER c : Type_ (symbolToken c) <> NUMBER.
Proof.
  unfold symbolToken.
  repeat match goal with
  | |- context [if ?c then _ else _] => destruct c; [discriminate|]
  end.
  discriminate.
Qed.

(** The lexer only attaches numerals to NUMBER tokens. *)
Lemma number_payload_is_numeral l tok l' :
  lexer_ok l -> NextToken l = Some (tok, l') -> Type_ tok = NUMBER ->
  Fmt.is_numeral (Value tok) = true.
Proof.
  intros Ok N T.
  destruct (NextToken_ok l Ok) as [tok0 [l0 [N0 [_ [E _]]]]].
  rewrite N in N0. injection N0 as <- <-. subst tok. revert T.
  unfold scan.
  destruct (head_rune (drop (prefix_len IsSpace (unread l)) (unread l)) =? 0);
    cbn [fst]; [discriminate|].
  destruct (IsDigit (head_rune (drop (prefix_len IsSpace (unread l)) (unread l))))
    eqn:D; cbn [fst Type_ Value].
  - intros _. now apply digits_prefix_is_numeral.
  - intros T. now apply symbolToken_not_NUMBER in T.
Qed.

End NumberPayload.

(** ** Runs of bytes of one class *)

Section Runs.

Lemma substring_drop_app n s : (String.substring 0 n s ++ drop n s)%string = s.
Proof.
  revert s. induction n as [|n IH]; intros s.
  - rewrite substring_0_0. reflexivity.
  - destruct s as [|b s]; [reflexivity|]. cbn. now rewrite IH.
Qed.

Lemma prefix_all_in cond s :
  all_in cond (String.substring 0 (prefix_len cond s) s) = true.
Proof.
  induction s as [|b s IH]; [reflexivity|]. cbn [prefix_len].
  destruct (cond (rune_of_byte b)) eqn:D.
  - cbn [String.substring all_in]. now rewrite D, IH.
  - now rewrite substring_0_0.
Qed.

Lemma prefix_len_maximal cond s :
  cond 0 = false -> cond (head_rune (drop (prefix_len cond s) s)) = false.
Proof.
  intros H0. induction s as [|b s IH]; [exact H0|]. cbn [prefix_len].
  destruct (cond (rune_of_byte b)) eqn:D; [exact IH | exact D].
Qed.

(** Unread input that shows a digit after its whitespace is whitespace,
    then a numeral, then something that does not start with a digit. *)
Lemma digit_run_exists u :
  IsDigit (head_rune (drop (prefix_len IsSpace u) u)) = true ->
  exists ws ds rest,
    u = (ws ++ ds ++ rest)%string /\ all_space ws = true
    /\ Fmt.is_numeral ds = true /\ IsDigit (head_rune rest) = false.
Proof.
  intros D.
  set (n := prefix_len IsSpace u) in *. set (u1 := drop n u) in *.
  exists (String.substring 0 n u), (String.substring 0 (prefix_len IsDigit u1) u1),
    (drop (prefix_len IsDigit u1) u1).
  repeat split.
  - rewrite (substring_drop_app (prefix_len IsDigit u1) u1).
    symmetry. apply substring_drop_app.
  - apply prefix_all_in.
  - now apply digits_prefix_is_numeral.
  - now apply prefix_len_maximal.
Qed.

End Runs.

(** ** float64 arithmetic on integers below 2^53 *)

Section ExactFloats.

Lemma iter_pos_nat {A} (f : A -> A) p : forall x,
  iter_pos f p x = Nat.iter (Pos.to_nat p) f x.
Proof.
  induction p as [p IH|p IH|]; intros x; cbn [iter_pos].
  - rewrite !IH, Pos2Nat.inj_xI.
    replace (S (2 * Pos.to_nat p)) with (Pos.to_nat p + (Pos.to_nat p + 1))%nat by lia.
    rewrite !Nat.iter_add. reflexivity.
  - rewrite !IH, Pos2Nat.inj_xO.
    replace (2 * Pos.to_nat p)%nat with (Pos.to_nat p + Pos.to_nat p)%nat by lia.
    now rewrite Nat.iter_add.
  - reflexivity.
Qed.

Lemma shl_succ p k : shl p (S k) = xO (shl p k).
Proof. reflexivity. Qed.

Lemma shl_shl p j k : shl (shl p j) k = shl p (j + k).
Proof. unfold shl. rewrite Nat.add_comm. now rewrite Nat.iter_add. Qed.

Lemma Pos_iter_shl p d : Pos.iter xO p d = shl p (Pos.to_nat d).
Proof. unfold shl. apply Pos2Nat.inj_iter. Qed.

Lemma Zpos_shl p k : Zpos (shl p k) = Zpos p * 2 ^ Z.of_nat k.
Proof.
  induction k as [|k IH].
  - cbn. lia.
  - rewrite shl_succ, Pos2Z.inj_xO, IH, Nat2Z.inj_succ, Z.pow_succ_r by lia. lia.
Qed.

Lemma size_shl p k : size (shl p k) = (size p + k)%nat.
Proof.
  unfold size. induction k as [|k IH]; [cbn; lia|].
  rewrite shl_succ. cbn [digits2_pos]. rewrite Pos2Nat.inj_succ, IH. lia.
Qed.

Lemma size_pos p : (1 <= size p)%nat.
Proof. unfold size. lia. Qed.

Lemma Zdigits_size p : Zpos (digits2_pos p) = Z.of_nat (size p).
Proof. unfold size. now rewrite positive_nat_Z. Qed.

Lemma shr_exact k : forall p,
  Nat.iter k shr_1 (Build_shr_record (Zpos (shl p k)) false false)
  = Build_shr_record (Zpos p) false false.
Proof.
  induction k as [|k IH]; intros p; [reflexivity|].
  rewrite Nat.iter_succ_r. rewrite shl_succ. cbn [shr_1 orb]. apply IH.
Qed.

Lemma fexp_normal z : -1021 <= z -> fexp prec emax z = z - 53.
Proof. unfold fexp, SpecFloat.emin, prec, emax. lia. Qed.

Lemma shr_fexp_exact c k :
  (size c <= 53)%nat -> (53 <= k + size c)%nat ->
  shr_fexp prec emax (Zpos (shl c k)) (- Z.of_nat k) loc_Exact
  = (Build_shr_record (Zpos (shl c (53 - size c))) false false,
     Z.of_nat (size c) - 53).
Proof.
  intros H1 H2. unfold shr_fexp. cbn [Zdigits2 shr_record_of_loc].
  rewrite Zdigits_size, size_shl, fexp_normal by lia.
  pose proof (size_pos c).
  replace (Z.of_nat (size c + k) + - Z.of_nat k - 53 - - Z.of_nat k)
    with (Z.of_nat (k + size c - 53)) by lia.
  unfold shr.
  destruct (Z.of_nat (k + size c - 53)) as [|t|t] eqn:T; try lia.
  - f_equal; [|lia]. do 3 f_equal. lia.
  - rewrite iter_pos_nat.
    replace (shl c k) with (shl (shl c (53 - size c)) (Pos.to_nat t))
      by (rewrite shl_shl; f_equal; lia).
    rewrite shr_exact. f_equal. lia.
Qed.

Lemma round_aux_exact s c k :
  (size c <= 53)%nat -> (53 <= k + size c)%nat ->
  binary_round_aux prec emax s (Zpos (shl c k)) (- Z.of_nat k) loc_Exact
  = normal s c.
Proof.
  intros H1 H2. unfold binary_round_aux.
  rewrite (shr_fexp_exact c k H1 H2).
  cbn [shr_m loc_of_shr_record round_nearest_even].
  pose proof (size_pos c).
  replace (Z.of_nat (size c) - 53) with (- Z.of_nat (53 - size c)) by lia.
  rewrite (shr_fexp_exact c (53 - size c)) by lia.
  cbn [shr_m].
  replace (Z.of_nat (size c) - 53 <=? emax - prec) with true
    by (symmetry; apply Z.leb_le; unfold emax, prec; lia).
  reflexivity.
Qed.

Lemma round_exact s c k :
  (size c <= 53)%nat ->
  binary_round prec emax s (shl c k) (- Z.of_nat k) = normal s c.
Proof.
  intros H1. unfold binary_round.
  pose proof (size_pos c).
  rewrite Zdigits_size, size_shl, fexp_normal by lia.
  unfold shl_align.
  replace (Z.of_nat (size c + k) + - Z.of_nat k - 53 - - Z.of_nat k)
    with (Z.of_nat (size c + k) - 53) by lia.
  destruct (Z.of_nat (size c + k) - 53) as [|t|t] eqn:T.
  - apply round_aux_exact; lia.
  - apply round_aux_exact; lia.
  - rewrite Pos_iter_shl, shl_shl.
    replace (Z.of_nat (size c + k) + - Z.of_nat k - 53)
      with (- Z.of_nat (k + Pos.to_nat t)) by lia.
    apply round_aux_exact; lia.
Qed.

Lemma size_log2 p : Z.of_nat (size p) = Z.log2 (Zpos p) + 1.
Proof.
  unfold size. rewrite positive_nat_Z.
  assert (E : forall q, digits2_pos q = Pos.size q)
    by (induction q as [q IH|q IH|]; cbn; now rewrite ?IH).
  rewrite E. destruct p as [p|p|]; cbn; try reflexivity; lia.
Qed.

Lemma size_small c : small (Zpos c) = true <-> (size c <= 53)%nat.
Proof.
  unfold small. rewrite Z.ltb_lt. cbn [Z.abs].
  rewrite (Z.log2_lt_pow2 (Zpos c) 53) by lia.
  pose proof (size_log2 c). lia.
Qed.

Lemma size_small_neg c : small (Zneg c) = true <-> (size c <= 53)%nat.
Proof. apply size_small. Qed.

Lemma of_Z_pos c : (size c <= 53)%nat -> of_Z (Zpos c) = normal false c.
Proof. intros H. apply (round_exact false c 0 H). Qed.

Lemma of_Z_neg c : (size c <= 53)%nat -> of_Z (Zneg c) = normal true c.
Proof. intros H. apply (round_exact true c 0 H). Qed.

(** An integer below 2^53 in magnitude, scaled by a power of two,
    normalizes to the float64 of that integer. *)
Lemma normalize_exact C k :
  small C = true ->
  binary_normalize prec emax (C * 2 ^ Z.of_nat k) (- Z.of_nat k) false = of_Z C.
Proof.
  intros S. destruct C as [|c|c].
  - reflexivity.
  - apply size_small in S. rewrite <- Zpos_shl, of_Z_pos by exact S.
    apply round_exact, S.
  - apply size_small_neg in S. rewrite of_Z_neg by exact S.
    replace (Z.neg c * 2 ^ Z.of_nat k) with (Zneg (shl c k))
      by (rewrite <- !Pos2Z.opp_pos, Zpos_shl; lia).
    apply round_exact, S.
Qed.

Lemma of_Z_signed s c : (size c <= 53)%nat -> of_Z (signed s c) = normal s c.
Proof. destruct s; [apply of_Z_neg | apply of_Z_pos]. Qed.

Lemma shl_align_fst a ka K :
  (ka <= K)%nat ->
  fst (shl_align (shl a ka) (- Z.of_nat ka) (- Z.of_nat K)) = shl a K.
Proof.
  intros H. unfold shl_align.
  destruct (- Z.of_nat K - - Z.of_nat ka) as [|t|t] eqn:T; cbn [fst].
  - f_equal. lia.
  - lia.
  - rewrite Pos_iter_shl, shl_shl. f_equal. lia.
Qed.

Lemma cond_Zopp_signed s c k :
  cond_Zopp s (Zpos (shl c k)) = signed s c * 2 ^ Z.of_nat k.
Proof.
  unfold cond_Zopp, signed. rewrite Zpos_shl. destruct s; lia.
Qed.

Lemma normal_exp s c : (size c <= 53)%nat ->
  normal s c = S754_finite s (shl c (53 - size c)) (- Z.of_nat (53 - size c)).
Proof. intros H. unfold normal. f_equal. lia. Qed.

Lemma add_normal sa a sb b :
  (size a <= 53)%nat -> (size b <= 53)%nat ->
  small (signed sa a + signed sb b) = true ->
  add (normal sa a) (normal sb b) = of_Z (signed sa a + signed sb b).
Proof.
  intros Ha Hb S. rewrite (normal_exp sa a Ha), (normal_exp sb b Hb).
  unfold add. cbn [SFadd].
  set (ka := (53 - size a)%nat). set (kb := (53 - size b)%nat).
  replace (Z.min (- Z.of_nat ka) (- Z.of_nat kb))
    with (- Z.of_nat (Nat.max ka kb)) by lia.
  rewrite !shl_align_fst by lia. rewrite !cond_Zopp_signed.
  rewrite <- Z.mul_add_distr_r. now apply normalize_exact.
Qed.

Lemma sub_normal sa a sb b :
  (size a <= 53)%nat -> (size b <= 53)%nat ->
  small (signed sa a - signed sb b) = true ->
  sub (normal sa a) (normal sb b) = of_Z (signed sa a - signed sb b).
Proof.
  intros Ha Hb S. rewrite (normal_exp sa a Ha), (normal_exp sb b Hb).
  unfold sub. cbn [SFsub].
  set (ka := (53 - size a)%nat). set (kb := (53 - size b)%nat).
  replace (Z.min (- Z.of_nat ka) (- Z.of_nat kb))
    with (- Z.of_nat (Nat.max ka kb)) by lia.
  rewrite !shl_align_fst by lia. rewrite !cond_Zopp_signed.
  rewrite <- Z.mul_sub_distr_r. now apply normalize_exact.
Qed.

Lemma mul_shl a ka b kb : (shl a ka * shl b kb)%positive = shl (a * b) (ka + kb).
Proof.
  apply Pos2Z.inj. rewrite Pos2Z.inj_mul, !Zpos_shl, Pos2Z.inj_mul.
  rewrite Nat2Z.inj_add, Z.pow_add_r by lia. ring.
Qed.

Lemma size_mul a b : (size a + size b <= size (a * b) + 1)%nat.
Proof.
  pose proof (size_log2 a). pose proof (size_log2 b).
  pose proof (size_log2 (a * b)) as H1. rewrite Pos2Z.inj_mul in H1.
  pose proof (Z.log2_mul_below (Zpos a) (Zpos b)). lia.
Qed.

Lemma signed_mul sa a sb b :
  signed sa a * signed sb b = signed (xorb sa sb) (a * b).
Proof. destruct sa, sb; reflexivity. Qed.

Lemma mul_normal sa a sb b :
  (size a <= 53)%nat -> (size b <= 53)%nat ->
  small (signed sa a * signed sb b) = true ->
  mul (normal sa a) (normal sb b) = of_Z (signed sa a * signed sb b).
Proof.
  intros Ha Hb S. rewrite signed_mul in *.
  assert (Hc : (size (a * b) <= 53)%nat)
    by (destruct (xorb sa sb); [apply size_small_neg | apply size_small]; exact S).
  rewrite of_Z_signed by exact Hc.
  rewrite (normal_exp sa a Ha), (normal_exp sb b Hb).
  unfold mul. cbn [SFmul]. rewrite mul_shl.
  replace (- Z.of_nat (53 - size a) + - Z.of_nat (53 - size b))
    with (- Z.of_nat (53 - size a + (53 - size b))) by lia.
  pose proof (size_mul a b). pose proof (size_pos a). pose proof (size_pos b).
  apply round_aux_exact; lia.
Qed.

Lemma size_mul_le b c : (size (b * c) <= size b + size c)%nat.
Proof.
  pose proof (size_log2 b). pose proof (size_log2 c).
  pose proof (size_log2 (b * c)) as H1. rewrite Pos2Z.inj_mul in H1.
  pose proof (Z.log2_mul_above (Zpos b) (Zpos c)). lia.
Qed.

Lemma div_eucl_exact q b : b <> 0 -> Z.div_eucl (q * b) b = (q, 0).
Proof.
  intros H. pose proof (Z.div_mul q b H) as D. pose proof (Z.mod_mul q b H) as M.
  unfold Z.div, Z.modulo in D, M. destruct (Z.div_eucl (q * b) b). now subst.
Qed.

Lemma new_location_0 n : new_location n 0 = loc_Exact.
Proof.
  unfold new_location, new_location_even, new_location_odd.
  destruct (Z.even n); reflexivity.
Qed.

Lemma div_core a ka b kb c :
  (size a + ka = 53)%nat -> (size b + kb = 53)%nat -> a = (b * c)%positive ->
  SFdiv_core_binary prec emax (Zpos (shl a ka)) (- Z.of_nat ka)
                              (Zpos (shl b kb)) (- Z.of_nat kb)
  = (Zpos (shl c (ka + 53 - kb)), - Z.of_nat (ka + 53 - kb), loc_Exact).
Proof.
  intros Ha Hb E. unfold SFdiv_core_binary. cbn [Zdigits2].
  rewrite !Zdigits_size, !size_shl, Ha, Hb.
  pose proof (size_pos a). pose proof (size_pos b).
  rewrite fexp_normal by lia.
  replace (Z.min (Z.of_nat 53 + - Z.of_nat ka - (Z.of_nat 53 + - Z.of_nat kb) - 53)
                 (- Z.of_nat ka - - Z.of_nat kb))
    with (- Z.of_nat (ka + 53 - kb)) by lia.
  replace (- Z.of_nat ka - - Z.of_nat kb - - Z.of_nat (ka + 53 - kb)) with 53 by lia.
  cbv iota. rewrite Z.shiftl_mul_pow2 by lia.
  replace (Zpos (shl a ka) * 2 ^ 53)
    with (Zpos (shl c (ka + 53 - kb)) * Zpos (shl b kb)).
  - rewrite div_eucl_exact by discriminate. now rewrite new_location_0.
  - rewrite !Zpos_shl, E, Pos2Z.inj_mul.
    replace (Z.of_nat (ka + 53 - kb)) with (Z.of_nat ka + 53 - Z.of_nat kb) by lia.
    replace (2 ^ 53) with (2 ^ (53 - Z.of_nat kb) * 2 ^ Z.of_nat kb)
      by (rewrite <- Z.pow_add_r by lia; f_equal; lia).
    replace (Z.of_nat ka + 53 - Z.of_nat kb) with (Z.of_nat ka + (53 - Z.of_nat kb)) by lia.
    rewrite Z.pow_add_r by lia. ring.
Qed.

Lemma div_normal sa a sb b c :
  (size a <= 53)%nat -> (size b <= 53)%nat -> a = (b * c)%positive ->
  div (normal sa a) (normal sb b) = of_Z (signed (xorb sa sb) c).
Proof.
  intros Ha Hb E.
  pose proof (size_mul b c) as M1. pose proof (size_mul_le b c) as M2.
  rewrite <- E in M1, M2.
  pose proof (size_pos a). pose proof (size_pos b). pose proof (size_pos c).
  assert (Hc : (size c <= 53)%nat) by lia.
  rewrite of_Z_signed by exact Hc.
  rewrite (normal_exp sa a Ha), (normal_exp sb b Hb).
  unfold div. cbn [SFdiv].
  rewrite (div_core a _ b _ c) by (try exact E; lia).
  apply round_aux_exact; lia.
Qed.

Lemma repr_cases v n :
  small n = true -> repr v n ->
  (n = 0 /\ exists s, v = S754_zero s)
  \/ (exists s c, n = signed s c /\ (size c <= 53)%nat /\ v = normal s c).
Proof.
  intros S [->|[-> ->]].
  - destruct n as [|c|c].
    + left. split; [reflexivity | now exists false].
    + right. exists false, c. apply size_small in S.
      repeat split; [exact S | now apply of_Z_pos].
    + right. exists true, c. apply size_small_neg in S.
      repeat split; [exact S | now apply of_Z_neg].
  - left. split; [reflexivity | now exists true].
Qed.

Lemma repr_zero s : repr (S754_zero s) 0.
Proof. destruct s; [right; auto | left; reflexivity]. Qed.

Lemma repr_normal s c : (size c <= 53)%nat -> repr (normal s c) (signed s c).
Proof. intros H. left. symmetry. now apply of_Z_signed. Qed.

Lemma small_signed s c : small (signed s c) = true <-> (size c <= 53)%nat.
Proof. destruct s; [apply size_small_neg | apply size_small]. Qed.

Lemma repr_is_zero v n : small n = true -> repr v n -> is_zero v = (n =? 0).
Proof.
  intros S R. destruct (repr_cases v n S R) as [[-> [s ->]]|[s [c [-> [_ ->]]]]].
  - reflexivity.
  - now destruct s.
Qed.

Lemma repr_add x a y b :
  small a = true -> small b = true -> small (a + b) = true ->
  repr x a -> repr y b -> repr (add x y) (a + b).
Proof.
  intros Sa Sb Sc Rx Ry.
  destruct (repr_cases x a Sa Rx) as [[-> [s ->]]|[s [c [-> [Hc ->]]]]];
    destruct (repr_cases y b Sb Ry) as [[-> [t ->]]|[t [d [-> [Hd ->]]]]].
  - destruct s, t; apply repr_zero.
  - cbn [Z.add]. unfold normal, add. cbn [SFadd]. now apply repr_normal.
  - rewrite Z.add_0_r. unfold normal, add. cbn [SFadd]. now apply repr_normal.
  - left. now apply add_normal.
Qed.

Lemma signed_opp s c : - signed s c = signed (negb s) c.
Proof. now destruct s. Qed.

Lemma repr_sub x a y b :
  small a = true -> small b = true -> small (a - b) = true ->
  repr x a -> repr y b -> repr (sub x y) (a - b).
Proof.
  intros Sa Sb Sc Rx Ry.
  destruct (repr_cases x a Sa Rx) as [[-> [s ->]]|[s [c [-> [Hc ->]]]]];
    destruct (repr_cases y b Sb Ry) as [[-> [t ->]]|[t [d [-> [Hd ->]]]]].
  - destruct s, t; apply repr_zero.
  - rewrite Z.sub_0_l, signed_opp. unfold normal, sub. cbn [SFsub].
    now apply repr_normal.
  - rewrite Z.sub_0_r. unfold normal, sub. cbn [SFsub]. now apply repr_normal.
  - left. now apply sub_normal.
Qed.

Lemma repr_mul x a y b :
  small a = true -> small b = true -> small (a * b) = true ->
  repr x a -> repr y b -> repr (mul x y) (a * b).
Proof.
  intros Sa Sb Sc Rx Ry.
  destruct (repr_cases x a Sa Rx) as [[-> [s ->]]|[s [c [-> [Hc ->]]]]];
    destruct (repr_cases y b Sb Ry) as [[-> [t ->]]|[t [d [-> [Hd ->]]]]].
  - apply repr_zero.
  - rewrite Z.mul_0_l. unfold normal, mul. cbn [SFmul]. apply repr_zero.
  - rewrite Z.mul_0_r. unfold normal, mul. cbn [SFmul]. apply repr_zero.
  - left. now apply mul_normal.
Qed.

Lemma signed_inj s c t d : signed s c = signed t d -> s = t /\ c = d.
Proof. destruct s, t; cbn; intros [=]; auto. Qed.

Lemma signed_cases n : n <> 0 -> exists s c, n = signed s c.
Proof.
  destruct n as [|c|c]; [congruence | now exists false, c | now exists true, c].
Qed.

Lemma repr_div x a y b :
  small a = true -> small b = true -> b <> 0 -> a mod b = 0 ->
  repr x a -> repr y b -> repr (div x y) (a / b).
Proof.
  intros Sa Sb Nb M Rx Ry.
  destruct (repr_cases x a Sa Rx) as [[-> [s ->]]|[s [c [-> [Hc ->]]]]];
    destruct (repr_cases y b Sb Ry) as [[-> [t ->]]|[t [d [-> [Hd ->]]]]];
    try congruence.
  - rewrite Z.div_0_l by exact Nb. unfold normal, div. cbn [SFdiv]. apply repr_zero.
  - left.
    assert (E : signed s c = signed t d * (signed s c / signed t d)).
    { apply Z.div_exact; assumption. }
    assert (Q : signed s c / signed t d <> 0).
    { intros Z0. rewrite Z0, Z.mul_0_r in E. destruct s; discriminate. }
    destruct (signed_cases _ Q) as [u [q Eq]]. rewrite Eq in E |- *.
    rewrite signed_mul in E. apply signed_inj in E as [Es Ec].
    rewrite (div_normal s c t d q Hc Hd Ec).
    f_equal. f_equal. subst s. now destruct t, u.
Qed.

Lemma agrees_addop op a b x y :
  small a = true -> small b = true -> repr x a -> repr y b ->
  agrees (integer_addop op a b) (Val (apply_addop op x y)).
Proof.
  intros Sa Sb Rx Ry. unfold integer_addop.
  destruct op; cbn [apply_addop].
  - destruct (small (a + b)) eqn:S; cbn [agrees]; [|exact I].
    split; [exact S|]. eexists. split; [reflexivity|]. now apply repr_add.
  - destruct (small (a - b)) eqn:S; cbn [agrees]; [|exact I].
    split; [exact S|]. eexists. split; [reflexivity|]. now apply repr_sub.
Qed.

Lemma small_div a b :
  small a = true -> b <> 0 -> a mod b = 0 -> small (a / b) = true.
Proof.
  unfold small. rewrite !Z.ltb_lt. intros H N M.
  pose proof (Z.div_exact a b N) as [_ E]. specialize (E M).
  assert (A : Z.abs a = Z.abs b * Z.abs (a / b)) by (rewrite <- Z.abs_mul; congruence).
  nia.
Qed.

Lemma agrees_mulop op a b x y :
  small a = true -> small b = true -> repr x a -> repr y b ->
  agrees (integer_mulop op a b) (apply_mulop op x y).
Proof.
  intros Sa Sb Rx Ry. unfold integer_mulop.
  destruct op; cbn [apply_mulop].
  - destruct (small (a * b)) eqn:S; cbn [agrees]; [|exact I].
    split; [exact S|]. eexists. split; [reflexivity|]. now apply repr_mul.
  - rewrite (repr_is_zero y b Sb Ry).
    destruct (Z.eqb_spec b 0) as [Z0|N]; cbn [agrees]; [reflexivity|].
    destruct (Z.eqb_spec (a mod b) 0) as [M|M]; cbn [agrees]; [|exact I].
    split; [now apply small_div|].
    eexists. split; [reflexivity|]. now apply repr_div.
Qed.

Lemma of_Z_repr n : repr (of_Z n) n.
Proof. now left. Qed.

Lemma value_integer :
  (forall e, agrees (integer_expression e) (value_expression e))
  /\ (forall r n v, small n = true -> repr v n ->
        agrees (integer_expression_rest n r) (value_expression_rest v r))
  /\ (forall t, agrees (integer_term t) (value_term t))
  /\ (forall r n v, small n = true -> repr v n ->
        agrees (integer_term_rest n r) (value_term_rest v r))
  /\ (forall f, agrees (integer_factor f) (value_factor f)).
Proof.
  apply grammar_ind.
  - intros t IHt more IHm. cbn [integer_expression value_expression].
    destruct (integer_term t) as [n| |]; cbn [agrees] in IHt |- *.
    + destruct IHt as [S [v [-> R]]]. now apply IHm.
    + now rewrite IHt.
    + exact I.
  - intros n v S R. cbn. split; [exact S|]. now exists v.
  - intros op t IHt more IHm n v S R.
    cbn [integer_expression_rest value_expression_rest].
    destruct (integer_term t) as [m| |]; cbn [agrees] in IHt |- *.
    + destruct IHt as [Sm [w [-> Rw]]].
      pose proof (agrees_addop op n m v w S Sm R Rw) as A.
      destruct (integer_addop op n m) as [k| |]; cbn [agrees] in A |- *.
      * destruct A as [Sk [u [[= <-] Ru]]]. now apply IHm.
      * discriminate.
      * exact I.
    + now rewrite IHt.
    + exact I.
  - intros f IHf more IHm. cbn [integer_term value_term].
    destruct (integer_factor f) as [n| |]; cbn [agrees] in IHf |- *.
    + destruct IHf as [S [v [-> R]]]. now apply IHm.
    + now rewrite IHf.
    + exact I.
  - intros n v S R. cbn. split; [exact S|]. now exists v.
  - intros op f IHf more IHm n v S R.
    cbn [integer_term_rest value_term_rest].
    destruct (integer_factor f) as [m| |]; cbn [agrees] in IHf |- *.
    + destruct IHf as [Sm [w [-> Rw]]].
      pose proof (agrees_mulop op n m v w S Sm R Rw) as A.
      destruct (integer_mulop op n m) as [k| |]; cbn [agrees] in A |- *.
      * destruct A as [Sk [u [-> Ru]]]. now apply IHm.
      * now rewrite A.
      * exact I.
    + now rewrite IHf.
    + exact I.
  - intros d ds. cbn [integer_factor value_factor].
    destruct (small (numeral_value d ds)) eqn:S; cbn [agrees]; [|exact I].
    split; [exact S|]. eexists. split; [reflexivity | apply of_Z_repr].
  - intros e IHe. exact IHe.
Qed.

(** A float64 that is an integer has that integer as its exact value. *)
Lemma repr_float_exact v n :
  small n = true -> repr v n ->
  exists q, float_exact v = Some q /\ Qeq q (inject_Z n).
Proof.
  intros S R. destruct (repr_cases v n S R) as [[-> [s ->]]|[s [c [-> [Hc ->]]]]].
  - eexists. split; [reflexivity|]. reflexivity.
  - unfold normal, float_exact. eexists. split; [reflexivity|].
    pose proof (size_pos c).
    destruct (Z.of_nat (size c) - 53) as [|p|p] eqn:E; try lia.
    + replace (53 - size c)%nat with 0%nat by lia. now destruct s.
    + unfold Qeq, inject_Z. cbn [Qnum Qden].
      rewrite Pos2Z.inj_pow, Z.mul_1_r.
      replace (Z.pos p) with (Z.of_nat (53 - size c)) by lia.
      unfold signed. destruct s.
      * change (Z.neg (shl c (53 - size c))) with (- Zpos (shl c (53 - size c))).
        rewrite Zpos_shl. lia.
      * now rewrite Zpos_shl.
Qed.

Lemma agrees_exact_addop op a b q r :
  Qeq q (inject_Z a) -> Qeq r (inject_Z b) ->
  agrees_exact (integer_addop op a b) (Some (exact_addop op q r)).
Proof.
  intros Hq Hr. unfold integer_addop.
  destruct op; cbn [exact_addop].
  - destruct (small (a + b)); cbn [agrees_exact]; [|exact I].
    eexists. split; [reflexivity|]. now rewrite Hq, Hr, inject_Z_plus.
  - destruct (small (a - b)); cbn [agrees_exact]; [|exact I].
    eexists. split; [reflexivity|].
    rewrite Hq, Hr. unfold Qminus, Z.sub. now rewrite inject_Z_plus, inject_Z_opp.
Qed.

Lemma inject_Z_eq_0 r b : Qeq r (inject_Z b) -> Qeq_bool r (inject_Z 0) = (b =? 0).
Proof.
  intros H. destruct (Z.eqb_spec b 0) as [->|N].
  - now apply Qeq_bool_iff.
  - destruct (Qeq_bool r (inject_Z 0)) eqn:E; [|reflexivity].
    apply Qeq_bool_iff in E. rewrite H in E.
    unfold Qeq, inject_Z in E. cbn in E. lia.
Qed.

Lemma agrees_exact_mulop op a b q r :
  Qeq q (inject_Z a) -> Qeq r (inject_Z b) ->
  agrees_exact (integer_mulop op a b) (exact_mulop op q r).
Proof.
  intros Hq Hr. unfold integer_mulop.
  destruct op; cbn [exact_mulop].
  - destruct (small (a * b)); cbn [agrees_exact]; [|exact I].
    eexists. split; [reflexivity|]. now rewrite Hq, Hr, inject_Z_mult.
  - rewrite (inject_Z_eq_0 r b Hr).
    destruct (Z.eqb_spec b 0) as [Z0|N]; cbn [agrees_exact]; [reflexivity|].
    destruct (Z.eqb_spec (a mod b) 0) as [M|M]; cbn [agrees_exact]; [|exact I].
    eexists. split; [reflexivity|].
    rewrite Hq, Hr.
    pose proof (Z.div_exact a b N) as [_ E]. specialize (E M).
    rewrite E at 1. rewrite inject_Z_mult, Qmult_comm.
    apply Qdiv_mult_l.
    unfold Qeq, inject_Z. cbn. lia.
Qed.

Lemma exact_integer :
  (forall e, agrees_exact (integer_expression e) (exact_expression e))
  /\ (forall r n q, Qeq q (inject_Z n) ->
        agrees_exact (integer_expression_rest n r) (exact_expression_rest q r))
  /\ (forall t, agrees_exact (integer_term t) (exact_term t))
  /\ (forall r n q, Qeq q (inject_Z n) ->
        agrees_exact (integer_term_rest n r) (exact_term_rest q r))
  /\ (forall f, agrees_exact (integer_factor f) (exact_factor f)).
Proof.
  apply grammar_ind.
  - intros t IHt more IHm. cbn [integer_expression exact_expression].
    destruct (integer_term t) as [n| |]; cbn [agrees_exact] in IHt |- *.
    + destruct IHt as [q [-> Hq]]. now apply IHm.
    + now rewrite IHt.
    + exact I.
  - intros n q Hq. cbn. now exists q.
  - intros op t IHt more IHm n q Hq.
    cbn [integer_expression_rest exact_expression_rest].
    destruct (integer_term t) as [m| |]; cbn [agrees_exact] in IHt |- *.
    + destruct IHt as [r [-> Hr]].
      pose proof (agrees_exact_addop op n m q r Hq Hr) as A.
      destruct (integer_addop op n m) as [k| |]; cbn [agrees_exact] in A |- *.
      * destruct A as [u [[= <-] Hu]]. now apply IHm.
      * discriminate.
      * exact I.
    + now rewrite IHt.
    + exact I.
  - intros f IHf more IHm. cbn [integer_term exact_term].
    destruct (integer_factor f) as [n| |]; cbn [agrees_exact] in IHf |- *.
    + destruct IHf as [q [-> Hq]]. now apply IHm.
    + now rewrite IHf.
    + exact I.
  - intros n q Hq. cbn. now exists q.
  - intros op f IHf more IHm n q Hq.
    cbn [integer_term_rest exact_term_rest].
    destruct (integer_factor f) as [m| |]; cbn [agrees_exact] in IHf |- *.
    + destruct IHf as [r [-> Hr]].
      pose proof (agrees_exact_mulop op n m q r Hq Hr) as A.
      destruct (integer_mulop op n m) as [k| |]; cbn [agrees_exact] in A |- *.
      * destruct A as [u [-> Hu]]. now apply IHm.
      * now rewrite A.
      * exact I.
    + now rewrite IHf.
    + exact I.
  - intros d ds. cbn [integer_factor exact_factor].
    destruct (small (numeral_value d ds)); cbn [agrees_exact]; [|exact I].
    eexists. split; reflexivity.
  - intros e IHe. exact IHe.
Qed.

End ExactFloats.

(* ================================================================== *)
(** * Further facts about the lexer *)

Section MoreStrings.

Lemma all_in_app cond a b :
  all_in cond (a ++ b) = all_in cond a && all_in cond b.
Proof.
  induction a as [|c a IH]; [reflexivity|]. cbn.
  rewrite IH. now rewrite andb_assoc.
Qed.

Lemma head_rune_app a b :
  head_rune (a ++ b) = match a with EmptyString => head_rune b | _ => head_rune a end.
Proof. destruct a; reflexivity. Qed.

Lemma head_rune_0_app a t : head_rune t = 0 -> head_rune (a ++ t) = head_rune a.
Proof. intros H. rewrite head_rune_app. now destruct a. Qed.

Lemma drop_app_le n : forall a t,
  (n <= String.length a)%nat -> drop n (a ++ t) = (drop n a ++ t)%string.
Proof.
  induction n as [|n IH]; intros a t L; [reflexivity|].
  destruct a as [|c a]; cbn in L; [lia|]. cbn. apply IH. lia.
Qed.

Lemma substring_app_le n : forall a t,
  (n <= String.length a)%nat ->
  String.substring 0 n (a ++ t) = String.substring 0 n a.
Proof.
  induction n as [|n IH]; intros a t L.
  - now rewrite !substring_0_0.
  - destruct a as [|c a]; cbn in L; [lia|]. cbn. rewrite IH by lia. reflexivity.
Qed.

Lemma prefix_len_app_stop cond a t :
  cond (head_rune t) = false -> prefix_len cond (a ++ t) = prefix_len cond a.
Proof.
  intros H. induction a as [|c a IH]; cbn.
  - now apply prefix_len_head.
  - now rewrite IH.
Qed.

Lemma space_not_digit r : IsSpace r = true -> IsDigit r = false.
Proof.
  unfold IsSpace, IsDigit. intros H.
  destruct ((48 <=? r) && (r <=? 57)) eqn:D; [|reflexivity].
  apply andb_true_iff in D as [D1 D2].
  apply Z.leb_le in D1. apply Z.leb_le in D2.
  repeat (apply orb_true_iff in H as [H|H]);
    repeat match goal with
           | H : _ && _ = true |- _ => apply andb_true_iff in H as [? ?]
           | H : (_ <=? _) = true |- _ => apply Z.leb_le in H
           | H : (_ =? _) = true |- _ => apply Z.eqb_eq in H
           end; lia.
Qed.

Lemma NUL_free_head s : NUL_free s = true -> head_rune s = 0 -> s = "".
Proof.
  destruct s as [|c s]; [reflexivity|]. unfold NUL_free. cbn. intros H Z.
  rewrite Z in H. discriminate.
Qed.

Lemma NUL_free_app a b : NUL_free (a ++ b) = NUL_free a && NUL_free b.
Proof. apply all_in_app. Qed.

Lemma all_space_NUL_free s : all_space s = true -> NUL_free s = true.
Proof.
  unfold all_space, NUL_free. induction s as [|c s IH]; [reflexivity|]. cbn.
  intros H. apply andb_true_iff in H as [H1 H2]. rewrite (IH H2), andb_true_r.
  destruct (rune_of_byte c =? 0) eqn:E; [|reflexivity].
  apply Z.eqb_eq in E. rewrite E in H1. discriminate.
Qed.

End MoreStrings.

(** ** What [scan] returns *)

Section ScanFacts.

Lemma symbolToken_cases c :
  In (symbolToken c) symbol_tokens
  \/ symbolToken c = mkToken INVALID ("Invalid character: " ++ encodeRune c).
Proof.
  unfold symbolToken, symbol_tokens.
  repeat match goal with
         | |- context [if ?b then _ else _] => destruct b
         end; cbn; auto 10.
Qed.

Lemma symbolToken_not_EOF c : Type_ (symbolToken c) <> EOF.
Proof.
  unfold symbolToken.
  repeat match goal with
         | |- context [if ?b then _ else _] => destruct b
         end; discriminate.
Qed.

(** The token of some unread input is the EOF token, a NUMBER token
    that holds a numeral, a symbol token or an INVALID token. *)
Lemma scan_token u :
  fst (scan u) = mkToken EOF ""
  \/ (Type_ (fst (scan u)) = NUMBER /\ Fmt.is_numeral (Value (fst (scan u))) = true)
  \/ In (fst (scan u)) symbol_tokens
  \/ Type_ (fst (scan u)) = INVALID.
Proof.
  unfold scan.
  destruct (head_rune (drop (prefix_len IsSpace u) u) =? 0); [now left|].
  destruct (IsDigit (head_rune (drop (prefix_len IsSpace u) u))) eqn:D.
  - right; left. cbn [fst Type_ Value]. split; [reflexivity|].
    now apply digits_prefix_is_numeral.
  - cbn [fst].
    destruct (symbolToken_cases (head_rune (drop (prefix_len IsSpace u) u))) as [H|H].
    + now right; right; left.
    + right; right; right. now rewrite H.
Qed.

Lemma scan_EOF u :
  Type_ (fst (scan u)) = EOF ->
  fst (scan u) = mkToken EOF "" /\ head_rune (drop (snd (scan u)) u) = 0.
Proof.
  unfold scan.
  destruct (head_rune (drop (prefix_len IsSpace u) u) =? 0) eqn:Z.
  - intros _. split; [reflexivity|]. now apply Z.eqb_eq in Z.
  - destruct (IsDigit (head_rune (drop (prefix_len IsSpace u) u))); cbn [fst Type_].
    + discriminate.
    + intros H. now apply symbolToken_not_EOF in H.
Qed.

(** A token other than EOF takes at least one byte. *)
Lemma scan_progress u : Type_ (fst (scan u)) <> EOF -> (1 <= snd (scan u))%nat.
Proof.
  unfold scan.
  destruct (head_rune (drop (prefix_len IsSpace u) u) =? 0) eqn:Z.
  - intros H. now contradiction H.
  - destruct (IsDigit (head_rune (drop (prefix_len IsSpace u) u))) eqn:D;
      cbn [fst snd]; intros _; [|lia].
    destruct (drop (prefix_len IsSpace u) u) as [|c s]; [discriminate|].
    cbn [head_rune] in D. cbn [prefix_len]. rewrite D. lia.
Qed.

(** [scan] splits the unread input into whitespace, a lexeme and the
    rest; at the end of the input, or at a byte 0, into whitespace and
    the rest. *)
Lemma scan_decomposes u :
  exists ws, all_space ws = true
    /\ ((fst (scan u) = mkToken EOF ""
         /\ u = (ws ++ drop (snd (scan u)) u)%string
         /\ head_rune (drop (snd (scan u)) u) = 0)
        \/ (exists x, lexeme_ok x = true
              /\ separated x (drop (snd (scan u)) u) = true
              /\ fst (scan u) = token_of x
              /\ u = (ws ++ text x ++ drop (snd (scan u)) u)%string)).
Proof.
  exists (String.substring 0 (prefix_len IsSpace u) u).
  split; [apply prefix_all_in|].
  pose proof (substring_drop_app (prefix_len IsSpace u) u) as U.
  pose proof (prefix_len_maximal IsSpace u eq_refl) as NS.
  unfold scan.
  set (n := prefix_len IsSpace u) in *. set (s1 := drop n u) in *.
  destruct (head_rune s1 =? 0) eqn:Z.
  - left. cbn [fst snd]. fold s1. apply Z.eqb_eq in Z. now rewrite U.
  - right. destruct (IsDigit (head_rune s1)) eqn:D.
    + exists (LNumber (String.substring 0 (prefix_len IsDigit s1) s1)).
      cbn [fst snd lexeme_ok separated text token_of].
      rewrite drop_add. fold s1.
      split; [now apply digits_prefix_is_numeral|].
      split; [now rewrite (prefix_len_maximal IsDigit s1 eq_refl)|].
      split; [reflexivity|].
      now rewrite (substring_drop_app (prefix_len IsDigit s1) s1), U.
    + destruct s1 as [|b r] eqn:E; [discriminate|].
      exists (LSymbol b). cbn [fst snd lexeme_ok separated text].
      cbn [head_rune] in Z, D, NS. rewrite Z, D, NS.
      rewrite (drop_succ n u b r E).
      repeat split; [apply symbolToken_token_of | exact (eq_sym U)].
Qed.

(** Text after a byte 0 (or nothing at all) makes no difference. *)
Lemma scan_app_NUL u t : head_rune t = 0 -> scan (u ++ t) = scan u.
Proof.
  intros H. unfold scan.
  assert (HS : IsSpace (head_rune t) = false) by now rewrite H.
  assert (HD : IsDigit (head_rune t) = false) by now rewrite H.
  rewrite (prefix_len_app_stop IsSpace u t HS).
  rewrite (drop_app_le _ u t (prefix_len_le IsSpace u)).
  set (s1 := drop (prefix_len IsSpace u) u).
  rewrite (head_rune_0_app s1 t H).
  rewrite (prefix_len_app_stop IsDigit s1 t HD).
  now rewrite (substring_app_le _ s1 t (prefix_len_le IsDigit s1)).
Qed.

End ScanFacts.

(** ** The end of the input, and progress towards it *)

Section EndOfInput.

Lemma readWhile_exit (cond : charclass) l :
  forall l', readWhile cond l = Some l' -> cond (ch l') = false.
Proof.
  funelim (readWhile cond l); intros l2 E.
  - injection E as <-. assumption.
  - match goal with
    | IH : forall l', readWhile _ _ = Some l' -> _ |- _ => exact (IH _ E)
    end.
  - discriminate.
Qed.

Lemma readWhile_advances (cond : charclass) l l' :
  readWhile cond l = Some l' -> cond (ch l) = true -> pos l < pos l'.
Proof.
  intros E C. rewrite readWhile_step, C in E.
  destruct (readChar l) as [l1|] eqn:R; [|discriminate].
  apply readChar_pos in R as [P _].
  apply readWhile_pos in E as [Q _]. lia.
Qed.

Lemma readWhile_stay (cond : charclass) l :
  cond (ch l) = false -> readWhile cond l = Some l.
Proof. intros C. now rewrite readWhile_step, C. Qed.

(** Once [NextToken] has returned EOF it returns EOF again, and leaves
    the lexer as it is. *)
Lemma NextToken_EOF l tok l' :
  NextToken l = Some (tok, l') -> Type_ tok = EOF ->
  tok = mkToken EOF "" /\ NextToken l' = Some (tok, l').
Proof.
  unfold NextToken at 1.
  destruct (readWhile spaces l) as [l1|] eqn:W; [|discriminate].
  apply readWhile_exit in W.
  destruct (ch l1 =? 0) eqn:Z0.
  - intros [= <- <-] _. split; [reflexivity|].
    unfold NextToken. rewrite (readWhile_stay spaces l1 W). now rewrite Z0.
  - destruct (IsDigit (ch l1)).
    + destruct (readNumber l1) as [[s l2]|]; [|discriminate].
      intros [= <- _]. discriminate.
    + destruct (readChar l1); [|discriminate].
      intros [= <- _] T. now apply symbolToken_not_EOF in T.
Qed.

(** A token other than EOF moves the cursor. *)
Lemma NextToken_advances l tok l' :
  NextToken l = Some (tok, l') -> Type_ tok <> EOF -> pos l < pos l'.
Proof.
  unfold NextToken.
  destruct (readWhile spaces l) as [l1|] eqn:W; [|discriminate].
  apply readWhile_pos in W as [P1 _].
  destruct (ch l1 =? 0).
  - intros [= <- _] T. now contradiction T.
  - destruct (IsDigit (ch l1)) eqn:D.
    + unfold readNumber.
      destruct (readWhile digits l1) as [l2|] eqn:W2; [|discriminate].
      pose proof (readWhile_advances digits l1 l2 W2 D).
      destruct (slice (input l2) (pos l1 - 1) (pos l2 - 1)); [|discriminate].
      intros [= _ <-] _. lia.
    + destruct (readChar l1) as [l2|] eqn:R; [|discriminate].
      apply readChar_pos in R as [P2 _].
      intros [= _ <-] _. lia.
Qed.

Lemma unread_length l :
  lexer_ok l ->
  Z.of_nat (String.length (unread l)) = len (input l) + 1 - pos l.
Proof.
  intros [[P1 P2] _]. unfold unread, len in *. rewrite drop_length. lia.
Qed.

Lemma token_stream_S n l :
  token_stream (S n) l
  = match NextToken l with
    | Some (tok, l') =>
        match token_stream n l' with
        | Some toks => Some (tok :: toks)
        | None => None
        end
    | None => None
    end.
Proof. reflexivity. Qed.

(** With one unit of fuel per unread byte and one more,
    [tokens_until_EOF] returns the tokens the lexer yields before its
    first EOF: there are no more of them than unread bytes. *)
Lemma tokens_until_EOF_stream fuel : forall l,
  lexer_ok l -> (String.length (unread l) < fuel)%nat ->
  (List.length (tokens_until_EOF fuel l) <= String.length (unread l))%nat
  /\ no_EOF (tokens_until_EOF fuel l)
  /\ token_stream (S (List.length (tokens_until_EOF fuel l))) l
     = Some (tokens_until_EOF fuel l ++ [mkToken EOF ""])%list.
Proof.
  induction fuel as [|fuel IH]; intros l Ok L; [lia|].
  destruct (NextToken_ok l Ok) as [tok [l' [N [Ok' [T U]]]]].
  cbn [tokens_until_EOF]. rewrite N.
  pose proof (scan_le (unread l)) as SL.
  destruct (Type_ tok) eqn:Ty;
    [split; [cbn; lia|]; split; [constructor|];
     cbn [List.length token_stream]; rewrite N; cbn [app];
     rewrite T in Ty |- *; now rewrite (proj1 (scan_EOF _ Ty)) | ..];
    (assert (P : (1 <= snd (scan (unread l)))%nat)
       by (apply scan_progress; rewrite <- T, Ty; discriminate);
     assert (L' : (String.length (unread l') < fuel)%nat)
       by (rewrite U, drop_length; lia);
     destruct (IH l' Ok' L') as [I1 [I2 I3]];
     assert (String.length (unread l') < String.length (unread l))%nat
       by (rewrite U, drop_length; lia);
     split; [cbn [List.length]; lia|];
     split; [constructor; [rewrite Ty; discriminate | exact I2]|];
     cbn [List.length];
     rewrite token_stream_S;
     rewrite N, I3; reflexivity).
Qed.

(** The tokens before the first EOF determine [tokens_until_EOF],
    whatever the fuel beyond their number. *)
Lemma tokens_until_EOF_unique toks : forall fuel l,
  no_EOF toks -> (List.length toks < fuel)%nat ->
  token_stream (S (List.length toks)) l = Some (toks ++ [mkToken EOF ""])%list ->
  tokens_until_EOF fuel l = toks.
Proof.
  induction toks as [|tok toks IH]; intros fuel l E L St;
    (destruct fuel as [|fuel]; [cbn in L; lia|]);
    rewrite token_stream_S in St; cbn [tokens_until_EOF];
    destruct (NextToken l) as [[t l']|]; try discriminate.
  - cbn [token_stream app] in St. injection St as ->. reflexivity.
  - cbn [List.length] in St.
    destruct (token_stream (S (List.length toks)) l') as [ts|] eqn:S'; [|discriminate].
    cbn [app] in St. injection St as -> ->.
    inversion E as [|? ? E1 E2]; subst.
    rewrite (IH fuel l' E2); [|cbn in L; lia | exact S'].
    destruct (Type_ tok); try reflexivity. now contradiction E1.
Qed.

Lemma tokenize_stream s :
  (List.length (tokenize s) <= String.length s)%nat
  /\ no_EOF (tokenize s)
  /\ token_stream (S (List.length (tokenize s))) (lexer_at s 0)
     = Some (tokenize s ++ [mkToken EOF ""])%list.
Proof.
  unfold tokenize. rewrite NewLexer_at.
  pose proof (tokens_until_EOF_stream (S (String.length s)) (lexer_at s 0)
                (lexer_ok_at s 0 (Nat.le_0_l _))) as H.
  rewrite unread_at, drop_0 in H. apply H. lia.
Qed.

(** Lexers that yield the same tokens give the same [tokenize]. *)
Lemma tokenize_same s1 s2 :
  same_tokens (lexer_at s1 0) (lexer_at s2 0) ->
  (String.length s1 <= String.length s2)%nat ->
  tokenize s2 = tokenize s1.
Proof.
  intros Sm L. destruct (tokenize_stream s1) as [L1 [E1 S1]].
  unfold tokenize at 1. rewrite NewLexer_at.
  apply tokens_until_EOF_unique; [exact E1 | lia|].
  now rewrite <- Sm.
Qed.

End EndOfInput.

(** ** A byte 0 in the input *)

Section NUL.

Lemma token_stream_app_NUL a t n : forall k,
  head_rune t = 0 -> (k <= String.length a)%nat ->
  token_stream n (lexer_at (a ++ t) k) = token_stream n (lexer_at a k).
Proof.
  induction n as [|n IH]; intros k H L; [reflexivity|].
  rewrite !token_stream_S, !NextToken_at.
  rewrite (drop_app_le k a t L), (scan_app_NUL _ t H).
  rewrite IH; [reflexivity | exact H|].
  pose proof (scan_le (drop k a)) as S. rewrite drop_length in S. lia.
Qed.

Lemma same_parser_app_NUL a t :
  head_rune t = 0 -> same_parser (parser_at (a ++ t) 0) (parser_at a 0).
Proof.
  intros H. unfold same_parser, parser_at. cbn [curr lexer drop].
  rewrite (scan_app_NUL a t H). split; [reflexivity|].
  intros n. apply token_stream_app_NUL; [exact H | apply scan_le].
Qed.

End NUL.

(** ** Every input is made of lexemes *)

Section Lexemes.

(** An input without a byte 0 is lexemes, each after a run of
    whitespace, and a last run of whitespace. *)
Lemma spelled_exists n : forall u,
  (String.length u <= n)%nat -> NUL_free u = true ->
  exists gs ws, u = render gs ws /\ render_ok gs ws = true /\ all_space ws = true.
Proof.
  induction n as [|n IH]; intros u L F.
  - destruct u; [|cbn in L; lia]. now exists [], "".
  - destruct (scan_decomposes u) as [ws [W [[_ [U Z]]|[x [X [Sep [_ U]]]]]]].
    + rewrite U, NUL_free_app in F. apply andb_true_iff in F as [_ F].
      rewrite (NUL_free_head _ F Z), app_empty_r in U.
      exists [], u. cbn [render render_ok]. rewrite U at 3. auto.
    + set (u' := drop (snd (scan u)) u) in *.
      assert (F' : NUL_free u' = true).
      { rewrite U, !NUL_free_app in F.
        apply andb_true_iff in F as [_ F]. now apply andb_true_iff in F as [_ F]. }
      assert (L' : (String.length u' <= n)%nat).
      { pose proof (text_length x X) as TL.
        rewrite U, !app_length_s in L. lia. }
      destruct (IH u' L' F') as [gs [ws' [R [Ok W']]]].
      exists ((ws, x) :: gs), ws'. cbn [render render_ok].
      rewrite <- R, W, X, Sep, Ok. auto.
Qed.

Lemma spelled s :
  NUL_free s = true ->
  exists gs ws, s = render gs ws /\ render_ok gs ws = true /\ all_space ws = true
    /\ tokenize s = map token_of (map snd gs).
Proof.
  intros F. destruct (spelled_exists _ s (le_n _) F) as [gs [ws [R [Ok W]]]].
  exists gs, ws. repeat split; try assumption.
  apply (tokenize_spelled (map snd gs) s ws); [|exact W].
  rewrite R. now apply spells_render.
Qed.

(** Lexemes go on being spelled when text that starts with no digit
    is put after them. *)
Lemma spells_app_tail xs s rest :
  spells xs s rest -> forall t, IsDigit (head_rune t) = false ->
  spells xs (s ++ t) (rest ++ t).
Proof.
  induction 1 as [rest|ws x xs s rest W X Sep Sp IH]; intros t D.
  - constructor.
  - rewrite !app_assoc_s. constructor; try assumption; [|now apply IH].
    destruct x as [ds|b]; [|reflexivity]. cbn [separated] in *.
    rewrite head_rune_app. destruct s; [now rewrite D | exact Sep].
Qed.

Lemma spells_trans xs a b :
  spells xs a b -> forall ys c, spells ys b c -> spells (xs ++ ys) a c.
Proof.
  induction 1 as [rest|ws x xs s rest W X Sep Sp IH]; intros ys c Sy.
  - exact Sy.
  - cbn [app]. constructor; auto.
Qed.

(** Whitespace before spelled lexemes joins the whitespace of the
    first lexeme, or the last run when there is none. *)
Lemma spells_space w ys b c :
  spells ys b c -> all_space w = true -> all_space c = true ->
  exists c', spells ys (w ++ b) c' /\ all_space c' = true.
Proof.
  intros Sy W C. destruct Sy as [rest|ws x xs s rest Ws X Sep Sp].
  - exists (w ++ rest)%string. split; [constructor|].
    unfold all_space in *. now rewrite all_in_app, W, C.
  - exists rest. split; [|exact C].
    rewrite <- app_assoc_s. constructor; try assumption.
    unfold all_space in *. now rewrite all_in_app, W, Ws.
Qed.

Lemma tokenize_app s1 w s2 :
  NUL_free s1 = true -> NUL_free s2 = true ->
  all_space w = true -> w <> "" ->
  tokenize (s1 ++ w ++ s2) = (tokenize s1 ++ tokenize s2)%list.
Proof.
  intros F1 F2 W NE.
  destruct (spelled s1 F1) as [g1 [w1 [R1 [O1 [W1 T1]]]]].
  destruct (spelled s2 F2) as [g2 [w2 [R2 [O2 [W2 T2]]]]].
  pose proof (spells_render g1 w1 O1) as S1. rewrite <- R1 in S1.
  pose proof (spells_render g2 w2 O2) as S2. rewrite <- R2 in S2.
  assert (D : IsDigit (head_rune (w ++ s2)) = false).
  { destruct w as [|c w]; [congruence|]. cbn in W |- *.
    apply andb_true_iff in W as [W _]. now apply space_not_digit. }
  pose proof (spells_app_tail _ _ _ S1 (w ++ s2)%string D) as S1'.
  assert (Ww : all_space (w1 ++ w) = true)
    by (unfold all_space in *; now rewrite all_in_app, W1, W).
  destruct (spells_space (w1 ++ w) _ _ _ S2 Ww W2) as [c' [S2' C']].
  rewrite app_assoc_s in S2'.
  rewrite T1, T2, <- map_app.
  apply (tokenize_spelled _ _ c'); [|exact C'].
  apply (spells_trans _ _ _ S1' _ _ S2').
Qed.

End Lexemes.

(* ================================================================== *)
(** * Further facts about the parser *)

Section ParserStates.

Lemma parser_ok_lexer p : parser_ok p -> lexer_ok (lexer p).
Proof.
  intros [l [Ok N]]. destruct (NextToken_ok l Ok) as [tok [l' [N' [Ok' _]]]].
  rewrite N in N'. now injection N' as _ <-.
Qed.

Lemma parser_ok_token p : parser_ok p -> exists u, curr p = fst (scan u).
Proof.
  intros [l [Ok N]]. destruct (NextToken_ok l Ok) as [tok [l' [N' [_ [T _]]]]].
  rewrite N in N'. injection N' as <- _. now exists (unread l).
Qed.

Lemma nextToken_ok p :
  parser_ok p -> exists p', nextToken p = Some p' /\ parser_ok p'.
Proof.
  intros Ok. apply parser_ok_lexer in Ok.
  destruct (NextToken_ok _ Ok) as [tok [l' [N _]]].
  exists (mkParser l' tok). unfold nextToken. rewrite N. split; [reflexivity|].
  now exists (lexer p).
Qed.

Lemma parser_at_ok s k : (k <= String.length s)%nat -> parser_ok (parser_at s k).
Proof.
  intros L. exists (lexer_at s k). split; [now apply lexer_ok_at|].
  apply NextToken_at.
Qed.

Lemma digit_of_byte c :
  IsDigit (rune_of_byte c) = true -> exists d, c = digit_byte d.
Proof.
  destruct c as [[] [] [] [] [] [] [] []]; try discriminate; intros _;
    first [ now exists D0 | now exists D1 | now exists D2 | now exists D3
          | now exists D4 | now exists D5 | now exists D6 | now exists D7
          | now exists D8 | now exists D9 ].
Qed.

Lemma digits_of_string s :
  Fmt.all_digits s = true -> exists ds, s = digits_string ds.
Proof.
  induction s as [|c s IH]; cbn [Fmt.all_digits]; intros H.
  - now exists [].
  - apply andb_true_iff in H as [H1 H2].
    destruct (digit_of_byte c H1) as [d ->]. destruct (IH H2) as [ds ->].
    now exists (d :: ds).
Qed.

(** A numeral is the text of a numeral of the grammar. *)
Lemma numeral_of_string s :
  Fmt.is_numeral s = true -> exists d ds, s = numeral_string d ds.
Proof.
  destruct s as [|c s]; [discriminate|]. intros H.
  destruct (digits_of_string _ H) as [[|d ds] E]; [discriminate|].
  now exists d, ds.
Qed.

Lemma curr_symbol p :
  parser_ok p ->
  isOperator (Type_ (curr p)) = true \/ Type_ (curr p) = LPAREN
  \/ Type_ (curr p) = RPAREN ->
  In (curr p) symbol_tokens.
Proof.
  intros Ok H. destruct (parser_ok_token p Ok) as [u E]. rewrite E in H |- *.
  destruct (scan_token u) as [T|[[T _]|[T|T]]]; try exact T;
    rewrite T in H; cbn in H; intuition discriminate.
Qed.

Lemma curr_mulop p :
  parser_ok p -> isMulOp (Type_ (curr p)) = true ->
  exists op, curr p = mulop_token op.
Proof.
  intros Ok H.
  assert (I : In (curr p) symbol_tokens).
  { apply curr_symbol; [exact Ok|]. left. unfold isOperator.
    now rewrite H, orb_true_r. }
  cbn in I. destruct I as [I|[I|[I|[I|[I|[I|[]]]]]]]; rewrite <- I in H |- *;
    try discriminate; [now exists OpStar | now exists OpSlash].
Qed.

Lemma curr_addop p :
  parser_ok p -> isAddOp (Type_ (curr p)) = true ->
  exists op, curr p = addop_token op.
Proof.
  intros Ok H.
  assert (I : In (curr p) symbol_tokens).
  { apply curr_symbol; [exact Ok|]. left. unfold isOperator. now rewrite H. }
  cbn in I. destruct I as [I|[I|[I|[I|[I|[I|[]]]]]]]; rewrite <- I in H |- *;
    try discriminate; [now exists OpPlus | now exists OpMinus].
Qed.

Lemma curr_LPAREN p :
  parser_ok p -> Type_ (curr p) = LPAREN -> curr p = mkToken LPAREN "(".
Proof.
  intros Ok H.
  assert (I : In (curr p) symbol_tokens) by (apply curr_symbol; auto).
  cbn in I. destruct I as [I|[I|[I|[I|[I|[I|[]]]]]]]; rewrite <- I in H |- *;
    try discriminate; reflexivity.
Qed.

Lemma curr_RPAREN p :
  parser_ok p -> Type_ (curr p) = RPAREN -> curr p = mkToken RPAREN ")".
Proof.
  intros Ok H.
  assert (I : In (curr p) symbol_tokens) by (apply curr_symbol; auto).
  cbn in I. destruct I as [I|[I|[I|[I|[I|[I|[]]]]]]]; rewrite <- I in H |- *;
    try discriminate; reflexivity.
Qed.

Lemma curr_NUMBER p :
  parser_ok p -> Type_ (curr p) = NUMBER ->
  exists d ds, curr p = mkToken NUMBER (numeral_string d ds).
Proof.
  intros Ok H. destruct (parser_ok_token p Ok) as [u E].
  assert (N : Fmt.is_numeral (Value (curr p)) = true).
  { rewrite E in H |- *.
    destruct (scan_token u) as [T|[[_ T]|[T|T]]]; try exact T.
    - rewrite T in H. discriminate.
    - cbn in T. intuition (subst; match goal with
                                  | X : _ = fst (scan u) |- _ =>
                                      rewrite <- X in H; discriminate
                                  end).
    - congruence. }
  destruct (numeral_of_string _ N) as [d [ds V]]. exists d, ds.
  destruct (curr p) as [t v]. cbn in H, V. now subst.
Qed.

End ParserStates.

(** ** What every call of a parsing function ends in *)

Section ParseInvariant.

Variable Sscanf_other : string -> option float64.

Local Abbreviation leaf := (parseNumber Sscanf_other).

Lemma parse_post_impl (Q Q' : Expr -> Parser -> Prop) r :
  (forall x p', Q x p' -> Q' x p') -> parse_post Q r -> parse_post Q' r.
Proof.
  intros H. destruct r as [[x [msg|]] p'| |]; cbn [parse_post]; try tauto.
  intros [Ok Hq]. split; [exact Ok | now apply H].
Qed.

Lemma try_post (Q Q' : Expr -> Parser -> Prop) r k :
  parse_post Q r ->
  (forall x p, parser_ok p -> Q x p -> parse_post Q' (k x p)) ->
  parse_post Q' (try r k).
Proof.
  intros H K. destruct r as [[x [msg|]] p'| |]; cbn [parse_post try] in *;
    try tauto.
  destruct H as [Ok Hq]. now apply K.
Qed.

Lemma foldOps_mul_post operand :
  (forall p, parser_ok p -> parse_post (factor_parsed Sscanf_other p) (operand p)) ->
  forall fuel left p, parser_ok p ->
  parse_post (term_rest_parsed Sscanf_other left p)
    (foldOps isMulOp operand fuel left p).
Proof.
  intros H. induction fuel as [|fuel IH]; intros left p Ok; [exact I|].
  cbn [foldOps]. destruct (isMulOp (Type_ (curr p))) eqn:O.
  - destruct (nextToken_ok p Ok) as [p1 [N Ok1]]. rewrite N.
    destruct (curr_mulop p Ok O) as [op C].
    apply (try_post (factor_parsed Sscanf_other p1)); [now apply H|].
    intros right p2 Ok2 [f [F ->]].
    apply (parse_post_impl
             (term_rest_parsed Sscanf_other
                (BinaryOp left (curr p) (tree_factor leaf f)) p2));
      [|now apply IH].
    intros x p' [r [Fr [-> M]]].
    exists (MoreFactors op f r). cbn [lexemes_term_rest map tree_term_rest].
    rewrite mulop_token_of, <- C, map_app. repeat split; [|exact M].
    econstructor; [exact N|]. now apply (feeds_app _ _ _ p2).
  - cbn [parse_post]. split; [exact Ok|].
    exists NoMoreFactors. repeat split; [constructor | exact O].
Qed.

Lemma foldOps_add_post operand :
  (forall p, parser_ok p -> parse_post (term_parsed Sscanf_other p) (operand p)) ->
  forall fuel left p, parser_ok p -> isMulOp (Type_ (curr p)) = false ->
  parse_post (expression_rest_parsed Sscanf_other left p)
    (foldOps isAddOp operand fuel left p).
Proof.
  intros H. induction fuel as [|fuel IH]; intros left p Ok M; [exact I|].
  cbn [foldOps]. destruct (isAddOp (Type_ (curr p))) eqn:O.
  - destruct (nextToken_ok p Ok) as [p1 [N Ok1]]. rewrite N.
    destruct (curr_addop p Ok O) as [op C].
    apply (try_post (term_parsed Sscanf_other p1)); [now apply H|].
    intros right p2 Ok2 [t [F [-> M2]]].
    apply (parse_post_impl
             (expression_rest_parsed Sscanf_other
                (BinaryOp left (curr p) (tree_term leaf t)) p2));
      [|now apply IH].
    intros x p' [r [Fr [-> Op]]].
    exists (MoreTerms op t r).
    cbn [lexemes_expression_rest map tree_expression_rest].
    rewrite addop_token_of, <- C, map_app. repeat split; [|exact Op].
    econstructor; [exact N|]. now apply (feeds_app _ _ _ p2).
  - cbn [parse_post]. split; [exact Ok|].
    exists NoMoreTerms. repeat split; [constructor|].
    unfold isOperator. now rewrite O, M.
Qed.

Lemma parse_invariant fuel :
  (forall p, parser_ok p ->
     parse_post (factor_parsed Sscanf_other p) (parseFactor Sscanf_other fuel p))
  /\ (forall p, parser_ok p ->
        parse_post (term_parsed Sscanf_other p) (parseTerm Sscanf_other fuel p))
  /\ (forall p, parser_ok p ->
        parse_post (expression_parsed Sscanf_other p) (parseExpr Sscanf_other fuel p)).
Proof.
  induction fuel as [|fuel [IHf [IHt IHe]]]; [repeat split; intros; exact I|].
  split; [|split]; intros p Ok.
  - (* parseFactor *)
    cbn [parseFactor].
    destruct (nextToken_ok p Ok) as [p1 [N Ok1]].
    destruct (Type_ (curr p)) eqn:T;
      try (cbn [parse_post]; split; [exact Ok|]; split; [reflexivity|];
           right; rewrite T; repeat split; discriminate).
    + (* NUMBER *)
      rewrite N. cbn [parse_post]. split; [exact Ok1|].
      destruct (curr_NUMBER p Ok T) as [d [ds C]].
      exists (Numeral d ds). cbn [lexemes_factor map token_of tree_factor].
      split; [|now rewrite C].
      rewrite <- C. econstructor; [exact N | constructor].
    + (* LPAREN *)
      rewrite N.
      apply (try_post (expression_parsed Sscanf_other p1)); [now apply IHe|].
      intros x p2 Ok2 [e [F [-> Op]]].
      destruct (nextToken_ok p2 Ok2) as [p3 [N3 Ok3]].
      destruct (Type_ (curr p2)) eqn:T2;
        try (cbn [parse_post]; split; [exact Ok2|]; split; [reflexivity|];
             left; rewrite T2; split; [reflexivity|];
             split; [discriminate | exact Op]).
      rewrite N3. cbn [parse_post]. split; [exact Ok3|].
      exists (Parens e). cbn [lexemes_factor map tree_factor]. split; [|reflexivity].
      change (token_of (LSymbol "(")) with (mkToken LPAREN "(").
      rewrite <- (curr_LPAREN p Ok T). econstructor; [exact N|].
      rewrite map_app. apply (feeds_app _ _ _ p2); [exact F|].
      cbn [map]. change (token_of (LSymbol ")")) with (mkToken RPAREN ")").
      rewrite <- (curr_RPAREN p2 Ok2 T2). econstructor; [exact N3 | constructor].
  - (* parseTerm *)
    cbn [parseTerm].
    apply (try_post (factor_parsed Sscanf_other p)); [now apply IHf|].
    intros left p1 Ok1 [f [F ->]].
    apply (parse_post_impl (term_rest_parsed Sscanf_other (tree_factor leaf f) p1));
      [|now apply foldOps_mul_post].
    intros x p' [r [Fr [-> M]]].
    exists (Term f r). cbn [lexemes_term tree_term]. rewrite map_app.
    repeat split; [|exact M]. now apply (feeds_app _ _ _ p1).
  - (* parseExpr *)
    cbn [parseExpr].
    apply (try_post (term_parsed Sscanf_other p)); [now apply IHt|].
    intros left p1 Ok1 [t [F [-> M]]].
    apply (parse_post_impl
             (expression_rest_parsed Sscanf_other (tree_term leaf t) p1));
      [|now apply foldOps_add_post].
    intros x p' [r [Fr [-> Op]]].
    exists (Expression t r). cbn [lexemes_expression tree_expression].
    rewrite map_app. repeat split; [|exact Op]. now apply (feeds_app _ _ _ p1).
Qed.

(** [Parse] returns, and its result is as [parse_post] says. *)
Lemma Parse_post p :
  parser_ok p ->
  exists x err p', Parse Sscanf_other p = Returns (x, err) p'
    /\ parse_post (expression_parsed Sscanf_other p) (Parse Sscanf_other p).
Proof.
  intros Ok.
  pose proof (proj2 (proj2 (parse_invariant (3 * tokens_left p + 3))) p Ok) as H.
  pose proof (Parse_fuel_enough Sscanf_other p) as F.
  fold (Parse Sscanf_other p) in H.
  destruct (Parse Sscanf_other p) as [[x err] p'| |] eqn:E.
  - now exists x, err, p'.
  - destruct H.
  - now contradiction F.
Qed.

Lemma ParseString_at s : ParseString Sscanf_other s = Parse Sscanf_other (parser_at s 0).
Proof. unfold ParseString. now rewrite NewLexer_at, NewParser_at. Qed.

End ParseInvariant.

(** ** From the tokens consumed back to the text *)

Section Consumed.

Lemma grammar_lexeme_ok x : grammar_lexeme x = true -> lexeme_ok x = true.
Proof.
  destruct x as [ds|b]; [trivial|]. cbn [grammar_lexeme lexeme_ok].
  intros H. repeat (apply orb_true_iff in H as [H|H]);
    apply Ascii.eqb_eq in H; subst b; reflexivity.
Qed.

Lemma token_of_symbol_not_NUMBER b : Type_ (token_of (LSymbol b)) <> NUMBER.
Proof. rewrite <- symbolToken_token_of. apply symbolToken_not_NUMBER. Qed.

(** The token of a lexeme of the grammar is the token of no other
    lexeme. *)
Lemma token_of_grammar_inj x x' :
  grammar_lexeme x = true -> token_of x' = token_of x -> x' = x.
Proof.
  destruct x as [ds|b]; cbn [grammar_lexeme]; intros G E.
  - destruct x' as [ds'|b'].
    + cbn in E. now injection E as ->.
    + exfalso. apply (token_of_symbol_not_NUMBER b'). now rewrite E.
  - destruct x' as [ds'|b'].
    + exfalso. apply (token_of_symbol_not_NUMBER b). now rewrite <- E.
    + f_equal.
      repeat (apply orb_true_iff in G as [G|G]);
        apply Ascii.eqb_eq in G; subst b; cbn in E;
        repeat match type of E with
               | context [Ascii.eqb b' ?c] =>
                   let Q := fresh "Q" in
                   destruct (Ascii.eqb b' c) eqn:Q;
                   [apply Ascii.eqb_eq in Q; try discriminate; try exact Q|]
               end; discriminate.
Qed.

Lemma lexemes_grammar :
  (forall e, Forall (fun x => grammar_lexeme x = true) (lexemes_expression e))
  /\ (forall r, Forall (fun x => grammar_lexeme x = true) (lexemes_expression_rest r))
  /\ (forall t, Forall (fun x => grammar_lexeme x = true) (lexemes_term t))
  /\ (forall r, Forall (fun x => grammar_lexeme x = true) (lexemes_term_rest r))
  /\ (forall f, Forall (fun x => grammar_lexeme x = true) (lexemes_factor f)).
Proof.
  apply grammar_ind; intros;
    cbn [lexemes_expression lexemes_expression_rest lexemes_term
         lexemes_term_rest lexemes_factor];
    repeat first [ apply Forall_nil
                 | apply Forall_app; split
                 | apply Forall_cons
                 | assumption
                 | apply numeral_is_numeral
                 | match goal with
                   | op : addop |- _ => destruct op; reflexivity
                   | op : mulop |- _ => destruct op; reflexivity
                   end
                 | reflexivity ].
Qed.

(** A parser that has consumed the tokens of lexemes of the grammar
    has read a text that spells them. *)
Lemma feeds_spells xs :
  Forall (fun x => grammar_lexeme x = true) xs ->
  forall s k p', (k <= String.length s)%nat ->
  feeds (parser_at s k) (map token_of xs) p' ->
  exists k', (k' <= String.length s)%nat /\ p' = parser_at s k'
    /\ spells xs (drop k s) (drop k' s).
Proof.
  induction 1 as [|x xs G _ IH]; intros s k p' L F; cbn [map] in F.
  - apply feeds_nil_inv in F. subst p'. exists k. repeat split; [exact L | constructor].
  - apply feeds_cons_inv in F as [C [p1 [N F]]].
    rewrite nextToken_parser_at in N. injection N as <-.
    cbn [parser_at curr] in C.
    pose proof (scan_le (drop k s)) as SL. rewrite drop_length in SL.
    destruct (scan_decomposes (drop k s)) as [ws [W [[E _]|[x' [X [Sep [T U]]]]]]].
    + exfalso. apply (token_of_not_EOF x (grammar_lexeme_ok x G)).
      now rewrite <- C, E.
    + assert (x' = x) by (apply token_of_grammar_inj; [exact G | congruence]).
      subst x'. rewrite <- drop_add in U, Sep.
      destruct (IH s (k + snd (scan (drop k s)))%nat p') as [k' [L' [-> Sp]]];
        [lia | exact F|].
      exists k'. repeat split; [exact L'|].
      rewrite U. now constructor.
Qed.

End Consumed.

(** ** Trees of derivations, and what [Eval] makes of trees *)

Section Trees.

Variable leaf : string -> float64.

Lemma tree_arithmetic :
  (forall e, arithmetic (tree_expression leaf e) = true)
  /\ (forall r left, arithmetic left = true ->
        arithmetic (tree_expression_rest leaf left r) = true)
  /\ (forall t, arithmetic (tree_term leaf t) = true)
  /\ (forall r left, arithmetic left = true ->
        arithmetic (tree_term_rest leaf left r) = true)
  /\ (forall f, arithmetic (tree_factor leaf f) = true).
Proof.
  apply grammar_ind; intros;
    cbn [tree_expression tree_expression_rest tree_term tree_term_rest tree_factor];
    auto.
  - apply H0. cbn [arithmetic]. rewrite H1, H. now destruct op.
  - apply H0. cbn [arithmetic]. rewrite H1, H. now destruct op.
Qed.

End Trees.

Section EvalMore.

Lemma Eval_arithmetic e :
  arithmetic e = true ->
  snd (Eval e) = None \/ snd (Eval e) = Some "division by zero".
Proof.
  induction e as [v|l IHl op r IHr|]; cbn [arithmetic Eval]; intros A.
  - now left.
  - apply andb_true_iff in A as [A Ar]. apply andb_true_iff in A as [Al O].
    specialize (IHl Al). specialize (IHr Ar).
    destruct (Eval l) as [vl [el|]]; cbn [snd] in *; [right; intuition congruence|].
    destruct (Eval r) as [vr [er|]]; cbn [snd] in *; [right; intuition congruence|].
    destruct (Type_ op); try discriminate; cbn [snd]; auto.
    destruct (eqb vr zero); cbn [snd]; auto.
  - discriminate.
Qed.

Lemma Eval_success e : snd (Eval e) = None -> arithmetic e = true.
Proof.
  induction e as [v|l IHl op r IHr|]; cbn [arithmetic Eval]; intros E.
  - reflexivity.
  - destruct (Eval l) as [vl [el|]]; cbn [snd] in *; [discriminate|].
    destruct (Eval r) as [vr [er|]]; cbn [snd] in *; [discriminate|].
    rewrite IHl, IHr by reflexivity.
    destruct (Type_ op); try discriminate; reflexivity.
  - discriminate.
Qed.

Lemma Eval_messages e err : snd (Eval e) = Some err -> In err Eval_errors.
Proof.
  revert err. induction e as [v|l IHl op r IHr|]; cbn [Eval]; intros err E.
  - discriminate.
  - destruct (Eval l) as [vl [el|]]; cbn [snd] in *; [injection E as <-; auto|].
    destruct (Eval r) as [vr [er|]]; cbn [snd] in *; [injection E as <-; auto|].
    destruct (Type_ op); cbn [snd] in E; try discriminate;
      try (injection E as <-; cbn; auto).
    destruct (eqb vr zero); cbn [snd] in E; [|discriminate].
    injection E as <-; cbn; auto.
  - injection E as <-. cbn. auto.
Qed.

Lemma Eval_erase e : Eval (erase e) = Eval e.
Proof.
  induction e as [v|l IHl op r IHr|]; cbn [erase Eval]; try reflexivity.
  now rewrite IHl, IHr.
Qed.

End EvalMore.

(** ** Where an operand is missing *)

Section MissingOperand.

Variable Sscanf_other : string -> option float64.

Local Abbreviation parseExpr' := (parseExpr Sscanf_other).
Local Abbreviation parseTerm' := (parseTerm Sscanf_other).
Local Abbreviation parseFactor' := (parseFactor Sscanf_other).
Local Abbreviation leaf := (parseNumber Sscanf_other).

Lemma parseFactor_missing n p :
  Type_ (curr p) <> NUMBER -> Type_ (curr p) <> LPAREN ->
  parseFactor' (S n) p = Returns (Nil, Some (expected_operand (Type_ (curr p)))) p.
Proof.
  intros H1 H2. cbn [parseFactor]. unfold expected_operand.
  destruct (Type_ (curr p)); try reflexivity; congruence.
Qed.

Lemma parseTerm_missing n p :
  Type_ (curr p) <> NUMBER -> Type_ (curr p) <> LPAREN ->
  parseTerm' (S (S n)) p = Returns (Nil, Some (expected_operand (Type_ (curr p)))) p.
Proof.
  intros H1 H2. cbn [parseTerm]. now rewrite parseFactor_missing.
Qed.

Lemma parseExpr_missing n p :
  Type_ (curr p) <> NUMBER -> Type_ (curr p) <> LPAREN ->
  parseExpr' (S (S (S n))) p
  = Returns (Nil, Some (expected_operand (Type_ (curr p)))) p.
Proof.
  intros H1 H2. cbn [parseExpr]. now rewrite parseTerm_missing.
Qed.

Lemma Parse_missing p :
  Type_ (curr p) <> NUMBER -> Type_ (curr p) <> LPAREN ->
  Parse Sscanf_other p = Returns (Nil, Some (expected_operand (Type_ (curr p)))) p.
Proof.
  intros H1 H2. unfold Parse.
  replace (3 * tokens_left p + 3)%nat with (S (S (S (3 * tokens_left p)))) by lia.
  now apply parseExpr_missing.
Qed.

(** The tokens of a derivation, then an operator, then a token that
    starts no operand: the operand of that operator is missed. *)
Lemma term_rest_dangling r : forall left p pm p',
  feeds p (map token_of (lexemes_term_rest r)) pm ->
  isMulOp (Type_ (curr pm)) = true -> nextToken pm = Some p' ->
  Type_ (curr p') <> NUMBER -> Type_ (curr p') <> LPAREN ->
  exists n0, forall n m, (n0 <= n)%nat -> (n0 <= m)%nat ->
    foldOps isMulOp (parseFactor' n) m left p
    = Returns (Nil, Some (expected_operand (Type_ (curr p')))) p'.
Proof.
  induction r as [|op f more IH]; intros left p pm p' F O N B1 B2;
    cbn [lexemes_term_rest map] in F.
  - apply feeds_nil_inv in F. subst pm.
    exists 1%nat. intros [|n] [|m] Hn Hm; try lia.
    cbn [foldOps]. rewrite O, N, parseFactor_missing by assumption. reflexivity.
  - rewrite map_app in F.
    apply feeds_cons_inv in F as [C [p1 [N1 F]]].
    apply feeds_app_inv in F as [p2 [F1 F2]].
    destruct (proj2 (proj2 (proj2 (proj2 (parses_grammar Sscanf_other)))) f p1 p2 F1)
      as [n1 H1].
    destruct (IH (BinaryOp left (curr p) (tree_factor leaf f)) p2 pm p' F2 O N B1 B2)
      as [n2 H2].
    exists (S (Nat.max n1 n2)). intros n [|m] Hn Hm; [lia|].
    cbn [foldOps]. rewrite mulop_token_of in C.
    assert (O1 : isMulOp (Type_ (curr p)) = true) by (rewrite C; now destruct op).
    rewrite O1, N1, H1 by lia. cbn [try]. apply H2; lia.
Qed.

Lemma term_dangling t p pm p' :
  feeds p (map token_of (lexemes_term t)) pm ->
  isMulOp (Type_ (curr pm)) = true -> nextToken pm = Some p' ->
  Type_ (curr p') <> NUMBER -> Type_ (curr p') <> LPAREN ->
  exists n0, forall n, (n0 <= n)%nat ->
    parseTerm' n p = Returns (Nil, Some (expected_operand (Type_ (curr p')))) p'.
Proof.
  destruct t as [f more]. cbn [lexemes_term]. rewrite map_app. intros F O N B1 B2.
  apply feeds_app_inv in F as [p1 [F1 F2]].
  destruct (proj2 (proj2 (proj2 (proj2 (parses_grammar Sscanf_other)))) f p p1 F1)
    as [n1 H1].
  destruct (term_rest_dangling more (tree_factor leaf f) p1 pm p' F2 O N B1 B2)
    as [n2 H2].
  exists (S (Nat.max n1 n2)). intros [|n] Hn; [lia|].
  cbn [parseTerm]. rewrite H1 by lia. cbn [try]. apply H2; lia.
Qed.

Lemma expression_rest_first op t more pm p' :
  feeds pm (map token_of (lexemes_expression_rest (MoreTerms op t more))) p' ->
  isMulOp (Type_ (curr pm)) = false.
Proof.
  cbn [lexemes_expression_rest map]. intros F.
  apply feeds_cons_inv in F as [C _]. rewrite C, addop_token_of. now destruct op.
Qed.

Lemma isAddOp_not_isMulOp t : isAddOp t = true -> isMulOp t = false.
Proof. now destruct t. Qed.

Lemma expression_rest_dangling_add r : forall left p pm p',
  feeds p (map token_of (lexemes_expression_rest r)) pm ->
  isAddOp (Type_ (curr pm)) = true -> nextToken pm = Some p' ->
  Type_ (curr p') <> NUMBER -> Type_ (curr p') <> LPAREN ->
  exists n0, forall n m, (n0 <= n)%nat -> (n0 <= m)%nat ->
    foldOps isAddOp (parseTerm' n) m left p
    = Returns (Nil, Some (expected_operand (Type_ (curr p')))) p'.
Proof.
  induction r as [|op t more IH]; intros left p pm p' F O N B1 B2.
  - cbn [lexemes_expression_rest map] in F. apply feeds_nil_inv in F. subst pm.
    exists 2%nat. intros [|[|n]] [|m] Hn Hm; try lia.
    cbn [foldOps]. rewrite O, N, parseTerm_missing by assumption. reflexivity.
  - cbn [lexemes_expression_rest map] in F. rewrite map_app in F.
    apply feeds_cons_inv in F as [C [p1 [N1 F]]].
    apply feeds_app_inv in F as [p2 [F1 F2]].
    assert (M2 : isMulOp (Type_ (curr p2)) = false)
      by (apply (expression_rest_head more p2 pm F2);
          now apply isAddOp_not_isMulOp).
    destruct (proj1 (proj2 (proj2 (parses_grammar Sscanf_other))) t p1 p2 F1 M2)
      as [n1 H1].
    destruct (IH (BinaryOp left (curr p) (tree_term leaf t)) p2 pm p' F2 O N B1 B2)
      as [n2 H2].
    exists (S (Nat.max n1 n2)). intros n [|m] Hn Hm; [lia|].
    cbn [foldOps]. rewrite addop_token_of in C.
    assert (O1 : isAddOp (Type_ (curr p)) = true) by (rewrite C; now destruct op).
    rewrite O1, N1, H1 by lia. cbn [try]. apply H2; lia.
Qed.

Lemma expression_rest_dangling_mul r : forall left p pm p',
  r <> NoMoreTerms ->
  feeds p (map token_of (lexemes_expression_rest r)) pm ->
  isMulOp (Type_ (curr pm)) = true -> nextToken pm = Some p' ->
  Type_ (curr p') <> NUMBER -> Type_ (curr p') <> LPAREN ->
  exists n0, forall n m, (n0 <= n)%nat -> (n0 <= m)%nat ->
    foldOps isAddOp (parseTerm' n) m left p
    = Returns (Nil, Some (expected_operand (Type_ (curr p')))) p'.
Proof.
  induction r as [|op t more IH]; intros left p pm p' NE F O N B1 B2;
    [congruence|].
  cbn [lexemes_expression_rest map] in F. rewrite map_app in F.
  apply feeds_cons_inv in F as [C [p1 [N1 F]]].
  rewrite addop_token_of in C.
  assert (O1 : isAddOp (Type_ (curr p)) = true) by (rewrite C; now destruct op).
  destruct more as [|op' t' more'].
  - cbn [lexemes_expression_rest map] in F. rewrite app_nil_r in F.
    destruct (term_dangling t p1 pm p' F O N B1 B2) as [n1 H1].
    exists (S n1). intros n [|m] Hn Hm; [lia|].
    cbn [foldOps]. rewrite O1, N1, H1 by lia. reflexivity.
  - apply feeds_app_inv in F as [p2 [F1 F2]].
    pose proof (expression_rest_first _ _ _ _ _ F2) as M2.
    destruct (proj1 (proj2 (proj2 (parses_grammar Sscanf_other))) t p1 p2 F1 M2)
      as [n1 H1].
    destruct (IH (BinaryOp left (curr p) (tree_term leaf t)) p2 pm p')
      as [n2 H2]; try assumption; [discriminate|].
    exists (S (Nat.max n1 n2)). intros n [|m] Hn Hm; [lia|].
    cbn [foldOps]. rewrite O1, N1, H1 by lia. cbn [try]. apply H2; lia.
Qed.

Lemma expression_dangling e p pm p' :
  feeds p (map token_of (lexemes_expression e)) pm ->
  isOperator (Type_ (curr pm)) = true -> nextToken pm = Some p' ->
  Type_ (curr p') <> NUMBER -> Type_ (curr p') <> LPAREN ->
  exists n0, forall n, (n0 <= n)%nat ->
    parseExpr' n p = Returns (Nil, Some (expected_operand (Type_ (curr p')))) p'.
Proof.
  destruct e as [t more]. cbn [lexemes_expression]. rewrite map_app.
  intros F O N B1 B2. unfold isOperator in O.
  destruct (isAddOp (Type_ (curr pm))) eqn:A.
  - apply feeds_app_inv in F as [p1 [F1 F2]].
    assert (M1 : isMulOp (Type_ (curr p1)) = false)
      by (apply (expression_rest_head more p1 pm F2);
          now apply isAddOp_not_isMulOp).
    destruct (proj1 (proj2 (proj2 (parses_grammar Sscanf_other))) t p p1 F1 M1)
      as [n1 H1].
    destruct (expression_rest_dangling_add more (tree_term leaf t) p1 pm p'
                F2 A N B1 B2) as [n2 H2].
    exists (S (Nat.max n1 n2)). intros [|n] Hn; [lia|].
    cbn [parseExpr]. rewrite H1 by lia. cbn [try]. apply H2; lia.
  - cbn [orb] in O. destruct more as [|op' t' more'].
    + cbn [lexemes_expression_rest map] in F. rewrite app_nil_r in F.
      destruct (term_dangling t p pm p' F O N B1 B2) as [n1 H1].
      exists (S n1). intros [|n] Hn; [lia|].
      cbn [parseExpr]. rewrite H1 by lia. reflexivity.
    + apply feeds_app_inv in F as [p1 [F1 F2]].
      pose proof (expression_rest_first _ _ _ _ _ F2) as M1.
      destruct (proj1 (proj2 (proj2 (parses_grammar Sscanf_other))) t p p1 F1 M1)
        as [n1 H1].
      destruct (expression_rest_dangling_mul (MoreTerms op' t' more')
                  (tree_term leaf t) p1 pm p') as [n2 H2];
        try assumption; [discriminate|].
      exists (S (Nat.max n1 n2)). intros [|n] Hn; [lia|].
      cbn [parseExpr]. rewrite H1 by lia. cbn [try]. apply H2; lia.
Qed.

End MissingOperand.

(** ** Parentheses around a generated string *)

Section Parenthesised.

Lemma spells_close xs s ws :
  spells xs s ws -> all_space ws = true ->
  spells (xs ++ [LSymbol ")"]) (s ++ ")") "".
Proof.
  intros Sp W.
  apply (spells_trans xs (s ++ ")") (ws ++ ")")).
  - now apply spells_app_tail.
  - apply (spells_cons ws (LSymbol ")") [] "" ""); try reflexivity;
      [exact W | constructor].
Qed.

Lemma generates_parens e s :
  generates e s ->
  generates (Expression (Term (Parens e) NoMoreFactors) NoMoreTerms)
    ("(" ++ s ++ ")").
Proof.
  intros [ws [W Sp]]. exists "". split; [reflexivity|].
  cbn [lexemes_expression lexemes_term lexemes_factor lexemes_term_rest
       lexemes_expression_rest].
  rewrite !app_nil_r.
  apply (spells_cons "" (LSymbol "(") _ (s ++ ")") ""); try reflexivity.
  now apply (spells_close _ s ws).
Qed.

End Parenthesised.

(** ** Runs that end alike *)

Section SameRuns.

Variable Sscanf_other : string -> option float64.

Lemma Run_same s1 s2 :
  same_run (ParseString Sscanf_other s1) (ParseString Sscanf_other s2) ->
  Run Sscanf_other s1 = Run Sscanf_other s2.
Proof.
  intros S. unfold Run.
  destruct (ParseString Sscanf_other s1) as [[x1 e1] p1| |];
    destruct (ParseString Sscanf_other s2) as [[x2 e2] p2| |];
    cbn [same_run] in S; try tauto.
  destruct S as [[= <- <-] _]. reflexivity.
Qed.

Lemma ParseString_generated e s :
  generates e s ->
  exists p', ParseString Sscanf_other s
             = Returns (tree_expression (parseNumber Sscanf_other) e, None) p'.
Proof.
  intros [ws [W Sp]].
  destruct (ParseString_spelled Sscanf_other e s ws Sp) as [p' [P _]];
    try (rewrite (scan_all_space ws W); reflexivity).
  now exists p'.
Qed.

End SameRuns.

(** ** Numerals and their conversion *)

Section Conversion.

Variable Sscanf_other : string -> option float64.

Lemma round_aux_sign sx mx ex lx :
  is_finite (binary_round_aux prec emax sx mx ex lx) = true ->
  binary_round_aux prec emax sx mx ex lx = S754_zero sx
  \/ exists m e, binary_round_aux prec emax sx mx ex lx = S754_finite sx m e.
Proof.
  unfold binary_round_aux.
  destruct (shr_fexp prec emax mx ex lx) as [mrs' e'].
  destruct (shr_fexp prec emax
              (round_nearest_even (shr_m mrs') (loc_of_shr_record mrs')) e' loc_Exact)
    as [mrs'' e''].
  destruct (shr_m mrs'') as [|m|m]; [now left | | discriminate].
  destruct (e'' <=? emax - prec); [|discriminate].
  intros _. right. now exists m, e''.
Qed.

(** The float64 nearest to a natural number below the overflow
    threshold is [+0] or positive. *)
Lemma of_Z_sign n :
  0 <= n -> is_finite (of_Z n) = true ->
  of_Z n = zero \/ exists m e, of_Z n = S754_finite false m e.
Proof.
  intros N. destruct n as [|p|p]; [now left | | lia].
  unfold of_Z, binary_normalize, binary_round.
  destruct (shl_align p 0 (fexp prec emax (Zpos (digits2_pos p) + 0))) as [mz ez].
  apply round_aux_sign.
Qed.

Lemma decimal_value_from_nonneg s : forall acc,
  Fmt.all_digits s = true -> 0 <= acc -> 0 <= Fmt.decimal_value_from acc s.
Proof.
  induction s as [|c s IH]; cbn [Fmt.all_digits Fmt.decimal_value_from];
    intros acc D A; [exact A|].
  apply andb_true_iff in D as [D1 D2]. apply IH; [exact D2|].
  unfold Fmt.digit_value, IsDigit in *.
  apply andb_true_iff in D1 as [D1 _]. apply Z.leb_le in D1. lia.
Qed.

Lemma is_numeral_all_digits s : Fmt.is_numeral s = true -> Fmt.all_digits s = true.
Proof. now destruct s. Qed.

Lemma parseNumber_sign s :
  Fmt.is_numeral s = true -> len s <= Fmt.hugeWid ->
  parseNumber Sscanf_other s = zero
  \/ exists m e, parseNumber Sscanf_other s = S754_finite false m e.
Proof.
  intros N L. unfold parseNumber, Fmt.Sscanf_f, Fmt.ParseFloat_numeral.
  apply Z.leb_le in L. rewrite N, L. cbn [andb].
  destruct (is_finite (of_Z (Fmt.decimal_value s))) eqn:F; cbn [negb]; [|now left].
  apply of_Z_sign; [|exact F].
  apply decimal_value_from_nonneg; [now apply is_numeral_all_digits | lia].
Qed.

Lemma zeros_length k : String.length (zeros k) = k.
Proof. induction k; cbn; congruence. Qed.

Lemma decimal_value_zeros k s : forall acc,
  Fmt.decimal_value_from acc (zeros k ++ s)
  = Fmt.decimal_value_from (acc * 10 ^ Z.of_nat k) s.
Proof.
  induction k as [|k IH]; intros acc.
  - cbn. f_equal. lia.
  - cbn [zeros append Fmt.decimal_value_from]. rewrite IH. f_equal.
    change (Fmt.digit_value "0") with 0.
    rewrite Nat2Z.inj_succ, Z.pow_succ_r by lia. lia.
Qed.

Lemma is_numeral_zeros k s :
  Fmt.is_numeral s = true -> Fmt.is_numeral (zeros k ++ s) = true.
Proof.
  intros N. destruct k as [|k]; [exact N|].
  cbn. induction k as [|k IH]; cbn; [now apply is_numeral_all_digits | exact IH].
Qed.

(** Zeros before a numeral do not change the number it converts to. *)
Lemma parseNumber_zeros k s :
  Fmt.is_numeral s = true -> len (zeros k ++ s) <= Fmt.hugeWid ->
  parseNumber Sscanf_other (zeros k ++ s) = parseNumber Sscanf_other s.
Proof.
  intros N L. unfold parseNumber, Fmt.Sscanf_f, Fmt.ParseFloat_numeral.
  assert (L' : len s <= Fmt.hugeWid).
  { unfold len in *. rewrite app_length_s in L. lia. }
  apply Z.leb_le in L. apply Z.leb_le in L'.
  rewrite (is_numeral_zeros k s N), N, L, L'. cbn [andb].
  unfold Fmt.decimal_value. now rewrite decimal_value_zeros.
Qed.

End Conversion.

(** ** Bytes above the ASCII range *)

Section Latin1.

Lemma high_byte b :
  128 <= rune_of_byte b ->
  (IsSpace (rune_of_byte b) = true
   /\ (rune_of_byte b = 133 \/ rune_of_byte b = 160))
  \/ (IsSpace (rune_of_byte b) = false
      /\ symbolToken (rune_of_byte b)
         = mkToken INVALID ("Invalid character: " ++ two_bytes (rune_of_byte b))
      /\ IsDigit (rune_of_byte b) = false /\ rune_of_byte b <> 0).
Proof.
  destruct b as [[] [] [] [] [] [] [] []]; intros H;
    try (exfalso; vm_compute in H; now apply H);
    first [ left; split; [reflexivity|]; first [now left | now right]
          | right; repeat split; discriminate ].
Qed.

End Latin1.

(** ** Streams of tokens *)

Section Streams.

Lemma token_stream_ok n : forall l,
  lexer_ok l -> exists toks, token_stream n l = Some toks /\ List.length toks = n.
Proof.
  induction n as [|n IH]; intros l Ok; [now exists []|].
  destruct (NextToken_ok l Ok) as [tok [l' [N [Ok' _]]]].
  destruct (IH l' Ok') as [toks [S L]].
  exists (tok :: toks). rewrite token_stream_S, N, S. cbn. now rewrite L.
Qed.

Lemma token_stream_fixed tok l n :
  NextToken l = Some (tok, l) ->
  token_stream n l = Some (repeat tok n) /\ lexer_after n l = Some l.
Proof.
  intros N. induction n as [|n [IH1 IH2]]; [now split|].
  rewrite token_stream_S. cbn [lexer_after repeat]. now rewrite N, IH1, IH2.
Qed.

End Streams.

(** ** One expression after another *)

Section Juxtaposed.

Variable Sscanf_other : string -> option float64.

(** A derivation starts with a numeral or an opening parenthesis. *)
Lemma lexemes_expression_head e :
  exists x xs, lexemes_expression e = x :: xs
    /\ isOperator (Type_ (token_of x)) = false.
Proof.
  destruct e as [[[d ds|e] more] rest];
    cbn [lexemes_expression lexemes_term lexemes_factor app]; eauto.
Qed.

Lemma Parse_fed e p p' :
  feeds p (map token_of (lexemes_expression e)) p' ->
  isOperator (Type_ (curr p')) = false ->
  Parse Sscanf_other p
  = Returns (tree_expression (parseNumber Sscanf_other) e, None) p'.
Proof.
  intros F O. apply orb_false_iff in O as [A M].
  destruct (proj1 (parses_grammar Sscanf_other) e p p' F A M) as [n0 H].
  rewrite (Parse_eq Sscanf_other n0); rewrite (H n0 (le_n _));
    [reflexivity | discriminate].
Qed.

End Juxtaposed.

(** ** Operands in the other order *)

Section Commute.

Lemma add_comm x y : add x y = add y x.
Proof.
  unfold add, SFadd.
  destruct x as [sx|sx| |sx mx ex], y as [sy|sy| |sy my ey]; try reflexivity.
  - now destruct sx, sy.
  - now destruct sx, sy.
  - now rewrite (Z.min_comm ex ey), Z.add_comm.
Qed.

Lemma mul_comm x y : mul x y = mul y x.
Proof.
  unfold mul, SFmul.
  destruct x as [sx|sx| |sx mx ex], y as [sy|sy| |sy my ey];
    try reflexivity; try (now rewrite xorb_comm).
  now rewrite xorb_comm, Pos.mul_comm, Z.add_comm.
Qed.

End Commute.

(** ** The tokens of an input, for ever *)

Section AllTokens.

Lemma expected_nil n : expected n [] = repeat (mkToken EOF "") n.
Proof. induction n as [|n IH]; cbn; congruence. Qed.

Lemma token_stream_expected toks : forall l,
  token_stream (S (List.length toks)) l = Some (toks ++ [mkToken EOF ""])%list ->
  forall n, token_stream n l = Some (expected n toks).
Proof.
  induction toks as [|t ts IH]; intros l St n; rewrite token_stream_S in St;
    destruct (NextToken l) as [[tok l']|] eqn:N; try discriminate.
  - cbn [token_stream List.length app] in St. injection St as ->.
    destruct (NextToken_EOF l _ l' N eq_refl) as [_ N'].
    destruct n as [|n]; [reflexivity|].
    rewrite token_stream_S, N, (proj1 (token_stream_fixed _ l' n N')).
    cbn [expected]. now rewrite expected_nil.
  - cbn [List.length] in St.
    destruct (token_stream (S (List.length ts)) l') as [x|] eqn:S'; [|discriminate].
    cbn [app] in St. injection St as -> ->.
    destruct n as [|n]; [reflexivity|].
    rewrite token_stream_S, N, (IH l' S' n). reflexivity.
Qed.

(** The tokens a lexer yields are those of [tokenize], then EOF for
    ever. *)
Lemma tokenize_expected s n :
  token_stream n (lexer_at s 0) = Some (expected n (tokenize s)).
Proof.
  apply token_stream_expected. apply (tokenize_stream s).
Qed.

Lemma same_parser_tokenize s1 s2 :
  tokenize s1 = tokenize s2 -> same_parser (parser_at s1 0) (parser_at s2 0).
Proof.
  intros E.
  assert (S : same_tokens (lexer_at s1 0) (lexer_at s2 0))
    by (intros n; now rewrite !tokenize_expected, E).
  apply same_tokens_next in S. rewrite !NextToken_at in S.
  destruct S as [T S]. split; [exact T | exact S].
Qed.

End AllTokens.

(* ================================================================== *)
(** * The program on the store does what the program on values does *)

Section Lists.

Context {A : Type}.

Lemma update_length i (a : A) xs :
  List.length (Imperative.update i a xs) = List.length xs.
Proof.
  revert i. induction xs as [|x xs IH]; intros [|i]; cbn; auto.
Qed.

Lemma nth_error_update i (a : A) xs :
  (i < List.length xs)%nat -> nth_error (Imperative.update i a xs) i = Some a.
Proof.
  revert i. induction xs as [|x xs IH]; intros [|i] L; cbn in *; try lia; auto.
  apply IH. lia.
Qed.

Lemma update_update i (a b : A) xs :
  Imperative.update i b (Imperative.update i a xs) = Imperative.update i b xs.
Proof.
  revert i. induction xs as [|x xs IH]; intros [|i]; cbn; auto.
  now rewrite IH.
Qed.

Lemma update_same i (a : A) xs :
  nth_error xs i = Some a -> Imperative.update i a xs = xs.
Proof.
  revert i. induction xs as [|x xs IH]; intros [|i] H; cbn in *; auto.
  - now injection H as ->.
  - now rewrite IH.
Qed.

Lemma update_last (a b : A) xs :
  Imperative.update (List.length xs) b (xs ++ [a]) = (xs ++ [b])%list.
Proof. induction xs as [|x xs IH]; cbn; [reflexivity | now rewrite IH]. Qed.

Lemma update_app i (a b : A) xs :
  (i < List.length xs)%nat ->
  Imperative.update i b (xs ++ [a]) = (Imperative.update i b xs ++ [a])%list.
Proof.
  revert i. induction xs as [|x xs IH]; intros [|i] L; cbn in *; try lia; auto.
  rewrite IH; [reflexivity | lia].
Qed.

Lemma nth_error_last (a : A) xs : nth_error (xs ++ [a]) (List.length xs) = Some a.
Proof. induction xs as [|x xs IH]; cbn; auto. Qed.

Lemma nth_error_in_range i (a : A) xs :
  nth_error xs i = Some a -> (i < List.length xs)%nat.
Proof. intros H. apply nth_error_Some. congruence. Qed.

End Lists.

(** ** The lexer *)

Section LexerOnStore.

Lemma with_Lexer_at a x st :
  (a < List.length (Imperative.lexers st))%nat ->
  nth_error (Imperative.lexers (with_Lexer a x st)) a = Some x.
Proof. intros L. cbn. now apply nth_error_update. Qed.

Lemma with_Lexer_twice a x y st :
  with_Lexer a y (with_Lexer a x st) = with_Lexer a y st.
Proof. unfold with_Lexer. cbn. now rewrite update_update. Qed.

Lemma with_Lexer_same a x st :
  nth_error (Imperative.lexers st) a = Some x -> with_Lexer a x st = st.
Proof.
  intros H. unfold with_Lexer. rewrite (update_same _ _ _ H). now destruct st.
Qed.

Lemma get_Lexer_at a x st :
  nth_error (Imperative.lexers st) a = Some x ->
  Imperative.get_Lexer (Some a) st = Imperative.Done x st.
Proof. intros H. unfold Imperative.get_Lexer. now rewrite H. Qed.

Lemma set_ch_at a x c st :
  nth_error (Imperative.lexers st) a = Some x ->
  Imperative.set_ch (Some a) c st
  = Imperative.Done tt (with_Lexer a (mkLexer (input x) (pos x) c) st).
Proof.
  intros H. unfold Imperative.set_ch, Imperative.bind.
  now rewrite (get_Lexer_at a x st H).
Qed.

Lemma set_pos_at a x n st :
  nth_error (Imperative.lexers st) a = Some x ->
  Imperative.set_pos (Some a) n st
  = Imperative.Done tt (with_Lexer a (mkLexer (input x) n (ch x)) st).
Proof.
  intros H. unfold Imperative.set_pos, Imperative.bind.
  now rewrite (get_Lexer_at a x st H).
Qed.

(** [readChar] through a pointer writes the lexer that [readChar] on
    the value returns, at the address of the pointer. *)
Lemma readChar_store a x st :
  nth_error (Imperative.lexers st) a = Some x ->
  Imperative.readChar (Some a) st
  = match readChar x with
    | Some x' => Imperative.Done tt (with_Lexer a x' st)
    | None => Imperative.Panic
    end.
Proof.
  intros H. pose proof (nth_error_in_range _ _ _ H) as L.
  unfold Imperative.readChar, readChar.
  unfold Imperative.bind at 1. rewrite (get_Lexer_at a x st H).
  unfold Imperative.bind at 1.
  destruct (len (input x) <=? pos x).
  - rewrite (set_ch_at a x 0 st H).
    unfold Imperative.bind.
    rewrite (get_Lexer_at a _ _ (with_Lexer_at a _ st L)).
    rewrite (set_pos_at a _ _ _ (with_Lexer_at a _ st L)).
    cbn [input pos ch]. now rewrite with_Lexer_twice.
  - destruct (index (input x) (pos x)) as [c|]; [|reflexivity].
    rewrite (set_ch_at a x _ st H).
    unfold Imperative.bind.
    rewrite (get_Lexer_at a _ _ (with_Lexer_at a _ st L)).
    rewrite (set_pos_at a _ _ _ (with_Lexer_at a _ st L)).
    cbn [input pos ch]. now rewrite with_Lexer_twice.
Qed.

Lemma readChar_measure (cond : charclass) x x' :
  readChar x = Some x' -> cond (ch x) = true ->
  (loop_measure cond x' < loop_measure cond x)%nat.
Proof.
  intros R C. pose proof (holds_0 cond) as H0.
  unfold readChar in R. unfold loop_measure.
  destruct (len (input x) <=? pos x) eqn:E.
  - injection R as <-. cbn [input pos ch]. rewrite H0, C.
    apply Z.leb_le in E. lia.
  - destruct (index (input x) (pos x)) as [b|] eqn:I; [|discriminate].
    injection R as <-. cbn [input pos ch]. rewrite C.
    apply Z.leb_gt in E.
    unfold index in I. destruct (pos x <? 0) eqn:N; [discriminate|].
    apply Z.ltb_ge in N.
    destruct (holds cond (rune_of_byte b)); lia.
Qed.

Lemma readWhile_fuel_store (cond : charclass) a fuel : forall x st,
  nth_error (Imperative.lexers st) a = Some x ->
  (loop_measure cond x < fuel)%nat ->
  Imperative.readWhile_fuel cond fuel (Some a) st
  = match readWhile cond x with
    | Some x' => Imperative.Done tt (with_Lexer a x' st)
    | None => Imperative.Panic
    end.
Proof.
  induction fuel as [|fuel IH]; intros x st H L; [lia|].
  pose proof (nth_error_in_range _ _ _ H) as R.
  cbn [Imperative.readWhile_fuel]. unfold Imperative.bind at 1.
  rewrite (get_Lexer_at a x st H), (readWhile_step cond x).
  destruct (holds cond (ch x)) eqn:C.
  - unfold Imperative.bind. rewrite (readChar_store a x st H).
    destruct (readChar x) as [x1|] eqn:E; [|reflexivity].
    pose proof (readChar_measure cond x x1 E C) as M.
    rewrite (IH x1 (with_Lexer a x1 st)); [|now apply with_Lexer_at | lia].
    destruct (readWhile cond x1); [|reflexivity].
    now rewrite with_Lexer_twice.
  - unfold Imperative.ret. now rewrite (with_Lexer_same a x st H).
Qed.

Lemma readWhile_store (cond : charclass) a x st :
  nth_error (Imperative.lexers st) a = Some x ->
  Imperative.readWhile cond (Some a) st
  = match readWhile cond x with
    | Some x' => Imperative.Done tt (with_Lexer a x' st)
    | None => Imperative.Panic
    end.
Proof.
  intros H. unfold Imperative.readWhile, Imperative.bind.
  rewrite (get_Lexer_at a x st H).
  apply readWhile_fuel_store; [exact H | lia].
Qed.

Lemma readNumber_store a x st :
  nth_error (Imperative.lexers st) a = Some x ->
  Imperative.readNumber (Some a) st
  = match readNumber x with
    | Some (s, x') => Imperative.Done s (with_Lexer a x' st)
    | None => Imperative.Panic
    end.
Proof.
  intros H. pose proof (nth_error_in_range _ _ _ H) as R.
  unfold Imperative.readNumber, readNumber.
  unfold Imperative.bind at 1. rewrite (get_Lexer_at a x st H).
  unfold Imperative.bind at 1. rewrite (readWhile_store digits a x st H).
  destruct (readWhile digits x) as [x'|]; [|reflexivity].
  unfold Imperative.bind.
  rewrite (get_Lexer_at a _ _ (with_Lexer_at a x' st R)).
  now destruct (slice (input x') (pos x - 1) (pos x' - 1)).
Qed.

(** [NextToken] through a pointer returns the token, and writes the
    lexer, that [NextToken] on the value returns. *)
Lemma NextToken_store a x st :
  nth_error (Imperative.lexers st) a = Some x ->
  Imperative.NextToken (Some a) st
  = match NextToken x with
    | Some (tok, x') => Imperative.Done tok (with_Lexer a x' st)
    | None => Imperative.Panic
    end.
Proof.
  intros H. pose proof (nth_error_in_range _ _ _ H) as R.
  unfold Imperative.NextToken, NextToken.
  unfold Imperative.bind at 1. rewrite (readWhile_store spaces a x st H).
  destruct (readWhile spaces x) as [x1|]; [|reflexivity].
  pose proof (with_Lexer_at a x1 st R) as H1.
  unfold Imperative.bind at 1. rewrite (get_Lexer_at a _ _ H1).
  destruct (ch x1 =? 0); [reflexivity|].
  destruct (IsDigit (ch x1)).
  - unfold Imperative.bind. rewrite (readNumber_store a x1 _ H1).
    destruct (readNumber x1) as [[s x2]|]; [|reflexivity].
    unfold Imperative.ret. now rewrite with_Lexer_twice.
  - unfold Imperative.bind. rewrite (readChar_store a x1 _ H1).
    destruct (readChar x1) as [x2|]; [|reflexivity].
    unfold Imperative.ret. now rewrite with_Lexer_twice.
Qed.

Lemma NewLexer_store s st :
  Imperative.NewLexer s st
  = match NewLexer s with
    | Some x =>
        Imperative.Done (Some (List.length (Imperative.lexers st)))
          (Imperative.mkStore (Imperative.lexers st ++ [x])%list (Imperative.parsers st))
    | None => Imperative.Panic
    end.
Proof.
  unfold Imperative.NewLexer, NewLexer, Imperative.bind, Imperative.new_Lexer.
  rewrite (readChar_store (List.length (Imperative.lexers st)) (mkLexer s 0 0));
    [|apply nth_error_last].
  destruct (readChar (mkLexer s 0 0)) as [x|]; [|reflexivity].
  unfold Imperative.ret, with_Lexer. cbn [Imperative.lexers Imperative.parsers].
  now rewrite update_last.
Qed.

End LexerOnStore.

(** ** The parser *)

Section ParserOnStore.

Variable Sscanf_other : string -> option float64.

Variables b a : nat.

Lemma stored_range p st :
  stored b a p st ->
  (b < List.length (Imperative.parsers st))%nat
  /\ (a < List.length (Imperative.lexers st))%nat.
Proof. intros [H1 H2]. split; eapply nth_error_in_range; eassumption. Qed.

Lemma put_stored p st :
  (b < List.length (Imperative.parsers st))%nat ->
  (a < List.length (Imperative.lexers st))%nat ->
  stored b a p (put b a p st).
Proof. intros Lb La. split; cbn; now apply nth_error_update. Qed.

Lemma put_twice p q st : put b a q (put b a p st) = put b a q st.
Proof. unfold put. cbn. now rewrite !update_update. Qed.

Lemma put_same p st : stored b a p st -> put b a p st = st.
Proof.
  intros [H1 H2]. unfold put.
  rewrite (update_same _ _ _ H1), (update_same _ _ _ H2). now destruct st.
Qed.

Lemma put_range p st :
  List.length (Imperative.parsers (put b a p st)) = List.length (Imperative.parsers st)
  /\ List.length (Imperative.lexers (put b a p st)) = List.length (Imperative.lexers st).
Proof. cbn. now rewrite !update_length. Qed.

Lemma stored_put p q st : stored b a p st -> stored b a q (put b a q st).
Proof. intros H. apply stored_range in H as [Lb La]. now apply put_stored. Qed.

Lemma lift_put {A} p st (r : run A) :
  lift b a (put b a p st) r = lift b a st r.
Proof. destruct r; cbn [lift]; [now rewrite put_twice | reflexivity..]. Qed.

Lemma get_Parser_stored p st :
  stored b a p st ->
  Imperative.get_Parser (Some b) st
  = Imperative.Done (Imperative.mkParser (Some a) (curr p)) st.
Proof. intros [H _]. unfold Imperative.get_Parser. now rewrite H. Qed.

(** [nextToken] through a pointer leaves in the store the parser that
    [nextToken] on the value returns. *)
Lemma nextToken_store p st :
  stored b a p st ->
  Imperative.nextToken (Some b) st
  = match nextToken p with
    | Some p' => Imperative.Done tt (put b a p' st)
    | None => Imperative.Panic
    end.
Proof.
  intros H. pose proof (get_Parser_stored p st H) as G. destruct H as [Hp Hl].
  unfold Imperative.nextToken, nextToken.
  unfold Imperative.bind at 1. rewrite G. cbn [Imperative.lexer].
  unfold Imperative.bind. rewrite (NextToken_store a _ st Hl).
  destruct (NextToken (lexer p)) as [[tok x']|]; [|reflexivity].
  unfold Imperative.set_curr, Imperative.bind, Imperative.get_Parser.
  cbn [with_Lexer Imperative.parsers]. rewrite Hp. reflexivity.
Qed.

Lemma try_store_eq m r k kp st :
  m st = lift b a st r ->
  (forall x p', k x (put b a p' st) = lift b a st (kp x p')) ->
  Imperative.try m k st = lift b a st (try r kp).
Proof.
  intros E K. unfold Imperative.try, Imperative.bind. rewrite E.
  destruct r as [[x [err|]] p'| |]; cbn [lift try]; auto.
Qed.

Lemma foldOps_store isOp operandM operand :
  (forall p st, stored b a p st -> operandM (Some b) st = lift b a st (operand p)) ->
  forall fuel left p st, stored b a p st ->
  Imperative.foldOps isOp operandM fuel left (Some b) st
  = lift b a st (foldOps isOp operand fuel left p).
Proof.
  intros O. induction fuel as [|fuel IH]; intros left p st H; [reflexivity|].
  cbn [Imperative.foldOps foldOps]. unfold Imperative.bind at 1.
  rewrite (get_Parser_stored p st H). cbn [Imperative.curr].
  destruct (isOp (Type_ (curr p))).
  - unfold Imperative.bind. rewrite (nextToken_store p st H).
    destruct (nextToken p) as [p1|]; [|reflexivity].
    pose proof (stored_put p p1 st H) as H1.
    rewrite <- (lift_put p1 st).
    apply try_store_eq; [now apply O|].
    intros right p2. rewrite put_twice, lift_put.
    rewrite <- (lift_put p2 st). apply IH. now apply (stored_put p).
  - cbn [lift]. unfold Imperative.ret. now rewrite (put_same p st H).
Qed.

Lemma parse_store fuel :
  (forall p st, stored b a p st ->
     Imperative.parseExpr Sscanf_other fuel (Some b) st
     = lift b a st (parseExpr Sscanf_other fuel p))
  /\ (forall p st, stored b a p st ->
        Imperative.parseTerm Sscanf_other fuel (Some b) st
        = lift b a st (parseTerm Sscanf_other fuel p))
  /\ (forall p st, stored b a p st ->
        Imperative.parseFactor Sscanf_other fuel (Some b) st
        = lift b a st (parseFactor Sscanf_other fuel p)).
Proof.
  induction fuel as [|fuel [IHe [IHt IHf]]]; [repeat split; reflexivity|].
  split; [|split]; intros p st H.
  - cbn [Imperative.parseExpr parseExpr].
    apply try_store_eq; [now apply IHt|].
    intros left p1. rewrite <- (lift_put p1 st).
    apply foldOps_store; [exact IHt | now apply (stored_put p)].
  - cbn [Imperative.parseTerm parseTerm].
    apply try_store_eq; [now apply IHf|].
    intros left p1. rewrite <- (lift_put p1 st).
    apply foldOps_store; [exact IHf | now apply (stored_put p)].
  - cbn [Imperative.parseFactor parseFactor]. unfold Imperative.bind at 1.
    rewrite (get_Parser_stored p st H). cbn [Imperative.curr].
    destruct (Type_ (curr p)) eqn:T;
      try (cbn [lift]; unfold Imperative.ret; now rewrite (put_same p st H)).
    + (* NUMBER *)
      unfold Imperative.bind. rewrite (nextToken_store p st H).
      now destruct (nextToken p).
    + (* LPAREN *)
      unfold Imperative.bind at 1. rewrite (nextToken_store p st H).
      destruct (nextToken p) as [p1|]; [|reflexivity].
      pose proof (stored_put p p1 st H) as H1.
      rewrite <- (lift_put p1 st).
      apply try_store_eq; [now apply IHe|].
      intros expr p2. rewrite put_twice, lift_put.
      pose proof (stored_put p p2 st H) as H2.
      unfold Imperative.bind at 1.
      rewrite (get_Parser_stored p2 _ H2). cbn [Imperative.curr].
      destruct (Type_ (curr p2));
        try (cbn [lift]; unfold Imperative.ret; reflexivity).
      unfold Imperative.bind. rewrite (nextToken_store p2 _ H2).
      destruct (nextToken p2) as [p3|]; [|reflexivity].
      cbn [lift]. unfold Imperative.ret. now rewrite put_twice.
Qed.

Lemma Parse_store p st :
  stored b a p st ->
  Imperative.Parse Sscanf_other (Some b) st = lift b a st (Parse Sscanf_other p).
Proof.
  intros H. unfold Imperative.Parse, Parse, Imperative.fuel_of.
  destruct H as [Hp Hl]. rewrite Hp. cbn [Imperative.lexer Imperative.curr].
  rewrite Hl. unfold Parse_fuel.
  replace (mkParser (lexer p) (curr p)) with p by now destruct p.
  now apply (proj1 (parse_store _)).
Qed.

End ParserOnStore.

Section RunsOnStore.

Variable Sscanf_other : string -> option float64.

Lemma NewParser_store a x st :
  nth_error (Imperative.lexers st) a = Some x ->
  Imperative.NewParser (Some a) st
  = match NewParser x with
    | Some p =>
        Imperative.Done (Some (List.length (Imperative.parsers st)))
          (Imperative.mkStore (Imperative.update a (lexer p) (Imperative.lexers st))
             (Imperative.parsers st
              ++ [Imperative.mkParser (Some a) (curr p)])%list)
    | None => Imperative.Panic
    end.
Proof.
  intros H. unfold Imperative.NewParser, NewParser, Imperative.new_Parser.
  unfold Imperative.bind at 1.
  set (b := List.length (Imperative.parsers st)).
  set (st1 := Imperative.mkStore (Imperative.lexers st)
                (Imperative.parsers st ++ [Imperative.mkParser (Some a) Token_zero])%list).
  assert (S1 : stored b a (mkParser x Token_zero) st1).
  { split; cbn; [apply nth_error_last | exact H]. }
  unfold Imperative.bind. rewrite (nextToken_store b a _ st1 S1).
  destruct (nextToken (mkParser x Token_zero)) as [p|]; [|reflexivity].
  unfold Imperative.ret, put, st1. cbn [Imperative.lexers Imperative.parsers].
  unfold b. now rewrite update_last.
Qed.

(** A run on any store returns what the run on values returns, and
    adds its lexer and its parser to the store. *)
Lemma ParseString_store s st :
  Imperative.ParseString Sscanf_other s st
  = match ParseString Sscanf_other s with
    | Returns r p' => Imperative.Done r (grown st p')
    | Panics => Imperative.Panic
    | NoFuel => Imperative.OutOfFuel
    end.
Proof.
  unfold Imperative.ParseString, ParseString.
  unfold Imperative.bind at 1. rewrite NewLexer_store.
  destruct (NewLexer s) as [x|]; [|reflexivity].
  unfold Imperative.bind at 1.
  set (a := List.length (Imperative.lexers st)).
  rewrite (NewParser_store a x); [|apply nth_error_last].
  destruct (NewParser x) as [p|]; [|reflexivity].
  cbn [Imperative.lexers Imperative.parsers]. unfold a. rewrite update_last.
  set (b := List.length (Imperative.parsers st)).
  set (st2 := Imperative.mkStore _ _).
  assert (S2 : stored b (List.length (Imperative.lexers st)) p st2).
  { split; cbn; apply nth_error_last. }
  rewrite (Parse_store Sscanf_other b _ p st2 S2).
  destruct (Parse Sscanf_other p) as [r p'| |]; cbn [lift]; try reflexivity.
  unfold put, grown, st2, b. cbn [Imperative.lexers Imperative.parsers].
  now rewrite !update_last.
Qed.

Lemma Run_store s st :
  Imperative.Run Sscanf_other s st
  = match ParseString Sscanf_other s, Run Sscanf_other s with
    | Returns _ p', Some o => Imperative.Done o (grown st p')
    | Returns _ _, None => Imperative.Panic
    | Panics, _ => Imperative.Panic
    | NoFuel, _ => Imperative.OutOfFuel
    end.
Proof.
  unfold Imperative.Run, Run, Imperative.bind. rewrite ParseString_store.
  destruct (ParseString Sscanf_other s) as [[x [err|]] p'| |]; try reflexivity.
  now destruct (Eval x) as [v [err|]].
Qed.

Lemma extends_store_refl st : extends_store st st.
Proof. split; exists []; now rewrite app_nil_r. Qed.

Lemma extends_store_trans st1 st2 st3 :
  extends_store st1 st2 -> extends_store st2 st3 -> extends_store st1 st3.
Proof.
  intros [[l1 L1] [p1 P1]] [[l2 L2] [p2 P2]]. split.
  - exists (l1 ++ l2)%list. now rewrite L2, L1, app_assoc.
  - exists (p1 ++ p2)%list. now rewrite P2, P1, app_assoc.
Qed.

Lemma extends_store_grown st p : extends_store st (grown st p).
Proof. split; eexists; reflexivity. Qed.

Lemma Runs_store s o p' :
  (forall st, Imperative.Run Sscanf_other s st = Imperative.Done o (grown st p')) ->
  forall n st, exists st',
    Imperative.Runs Sscanf_other n s st = Imperative.Done (repeat o n) st'
    /\ extends_store st st'.
Proof.
  intros R. induction n as [|n IH]; intros st.
  - exists st. split; [reflexivity | apply extends_store_refl].
  - destruct (IH (grown st p')) as [st' [E X]].
    exists st'. cbn [Imperative.Runs repeat]. unfold Imperative.bind.
    rewrite R, E. split; [reflexivity|].
    apply (extends_store_trans _ (grown st p')); [apply extends_store_grown | exact X].
Qed.

End RunsOnStore.

(** ** [Eval] and nil pointers *)

Section NilPointers.

Lemma Eval_any_any e : Eval_any (any e) = Some (Eval e).
Proof.
  induction e as [v|l IHl op r IHr|]; cbn [any Eval_any Eval]; try reflexivity.
  rewrite IHl, IHr.
  destruct (Eval l) as [vl [el|]]; [reflexivity|].
  destruct (Eval r) as [vr [er|]]; [reflexivity|].
  destruct (Type_ op); try reflexivity. now destruct (eqb vr zero).
Qed.

(** A value that [Eval] evaluates without an error is a tree without
    nil pointers. *)
Lemma Eval_any_success n : forall v,
  Eval_any n = Some (v, None) -> exists e, n = any e /\ Eval e = (v, None).
Proof.
  induction n as [v0|l IHl op r IHr| | |]; cbn [Eval_any]; intros v E;
    try discriminate.
  - injection E as <-. now exists (Number v0).
  - destruct (Eval_any l) as [[vl [el|]]|]; try discriminate.
    destruct (Eval_any r) as [[vr [er|]]|]; try discriminate.
    destruct (IHl vl eq_refl) as [el [-> El]].
    destruct (IHr vr eq_refl) as [er [-> Er]].
    exists (BinaryOp el op er). split; [reflexivity|].
    cbn [Eval]. rewrite El, Er.
    destruct (Type_ op); try discriminate; try (now injection E as <-).
    destruct (eqb vr zero); [discriminate | now injection E as <-].
Qed.

Lemma Eval_any_error n : forall v err,
  Eval_any n = Some (v, Some err) -> v = zero /\ In err Eval_errors.
Proof.
  induction n as [v0|l IHl op r IHr| | |]; cbn [Eval_any]; intros v err E;
    try discriminate.
  - destruct (Eval_any l) as [[vl [el|]]|]; try discriminate.
    { injection E as <- <-. split; [reflexivity|]. now apply (IHl vl). }
    destruct (Eval_any r) as [[vr [er|]]|]; try discriminate.
    { injection E as <- <-. split; [reflexivity|]. now apply (IHr vr). }
    destruct (Type_ op); try discriminate;
      try (injection E as <- <-; cbn; auto).
    destruct (eqb vr zero); [|discriminate].
    injection E as <- <-; cbn; auto.
  - injection E as <- <-. cbn. auto.
Qed.

Lemma Eval_any_panic n : Eval_any n = None <-> NilDereference n.
Proof.
  split.
  - induction n as [v0|l IHl op r IHr| | |]; cbn [Eval_any]; intros E;
      [discriminate | | apply NilDereference_Number
      | apply NilDereference_BinaryOp | discriminate].
    destruct (Eval_any l) as [[vl [el|]]|] eqn:El; try discriminate;
      [|apply NilDereference_left; now apply IHl].
    destruct (Eval_any r) as [[vr [er|]]|] eqn:Er; try discriminate.
    + destruct (Type_ op); try discriminate. now destruct (eqb vr zero).
    + apply (NilDereference_right l op r vl); [exact El | now apply IHr].
  - induction 1 as [| |l op r _ IH|l op r v El _ IH]; cbn [Eval_any];
      try reflexivity.
    + now rewrite IH.
    + now rewrite El, IH.
Qed.

End NilPointers.
(* ================================================================== *)
(** * The claims *)

Section Claims.

Variable Sscanf_other : string -> option float64.

Local Abbreviation leaf := (parseNumber Sscanf_other).

(** C1 (as amended).  For every string the grammar generates whose
    numerals round to finite float64 values, [Parse] succeeds and [Eval]
    returns the value of the derivation computed in float64 arithmetic
    under standard precedence (a term is an operand of its expression, a
    factor of its term) and left-to-right grouping at each level, or the
    division-by-zero error when a divisor is zero.  When the numerals
    and every intermediate result are integers below 2^53 in magnitude
    and every division is exact, that value is the exact value of the
    expression, and the error is returned when the exact evaluation
    divides by zero.  In particular "2 + 3 * 4" gives 14, "10 - 2 - 3"
    gives 5, "(2 + 3) * 5" gives 25. *)
Theorem parse_eval_value :
  (forall e s, generates e s -> in_range_expression e = true ->
     Run Sscanf_other s = Some (printed_value (value_expression e)))
  /\ (forall e s, generates e s -> in_range_expression e = true ->
        match integer_expression e with
        | Integer n =>
            exists v q r, Run Sscanf_other s = Some (Result v)
              /\ float_exact v = Some q /\ exact_expression e = Some r
              /\ Qeq q r /\ Qeq r (inject_Z n)
        | DividedByZero =>
            Run Sscanf_other s = Some (ErrorEvaluating "division by zero")
            /\ exact_expression e = None
        | NotExact => True
        end)
  /\ Run Sscanf_other "2 + 3 * 4" = Some (Result (of_Z 14))
  /\ Run Sscanf_other "10 - 2 - 3" = Some (Result (of_Z 5))
  /\ Run Sscanf_other "(2 + 3) * 5" = Some (Result (of_Z 25)).
Proof.
  split; [intros e s; apply Run_generated|].
  split; [|repeat split; vm_compute; reflexivity].
  intros e s G R.
  pose proof (Run_generated Sscanf_other e s G R) as Rn.
  pose proof (proj1 value_integer e) as V.
  pose proof (proj1 exact_integer e) as X.
  destruct (integer_expression e) as [n| |]; cbn [agrees agrees_exact] in V, X.
  - destruct V as [S [v [Ev Rv]]]. destruct X as [r [Er Hr]].
    destruct (repr_float_exact v n S Rv) as [q [Fq Hq]].
    exists v, q, r. rewrite Rn, Ev. repeat split; try assumption.
    now rewrite Hq, Hr.
  - rewrite Rn, V. split; [reflexivity | exact X].
  - exact I.
Qed.

(** C2.  [Eval] returns the division-by-zero error exactly when the
    evaluation, left child before right child, reaches a [DIV] node whose
    right child evaluates to a zero (the comparison [right == 0], with no
    tolerance); the number returned with the error is the placeholder 0,
    not a result.  Parsing and evaluating "1 / 0" prints that error. *)
Theorem Eval_division_by_zero :
  (forall e, snd (Eval e) = Some "division by zero" <-> DivByZero e)
  /\ (forall e, DivByZero e -> Eval e = (zero, Some "division by zero"))
  /\ Run Sscanf_other "1 / 0" = Some (ErrorEvaluating "division by zero").
Proof.
  split; [exact DivByZero_iff|]. split; [|vm_compute; reflexivity].
  intros e H. apply DivByZero_iff in H.
  pose proof (Eval_error_zero e _ H) as Z.
  destruct (Eval e) as [v err]; cbn [fst snd] in *. now subst.
Qed.

(** C3.  When the lookahead of a lexer is not 0, not whitespace, not a
    digit and none of [+ - * / ( )], [NextToken] returns an INVALID token
    whose payload ends with that character as [%c] prints it (the byte
    itself when it is ASCII), and moves the lexer just past it, ready to
    go on.  [parseFactor] fails on an INVALID token (as on "2 + @").
    Where an operator could come, the loops of [parseExpr] and
    [parseTerm] end on an INVALID token without an error and without
    consuming it, so that after a complete expression [Parse] succeeds
    (as on "2 @ 3"); inside parentheses it is then [parseFactor] that
    misses the closing parenthesis (as on "(2 @)"). *)
Theorem invalid_character :
  (forall l, lexer_ok l ->
     ch l <> 0 -> IsSpace (ch l) = false -> IsDigit (ch l) = false ->
     ~ In (ch l) [43; 45; 42; 47; 40; 41] ->
     exists l',
       NextToken l
       = Some (mkToken INVALID ("Invalid character: " ++ encodeRune (ch l)), l')
       /\ lexer_ok l' /\ unread l' = drop 1 (unread l))
  /\ (forall b, rune_of_byte b <= 127 -> encodeRune (rune_of_byte b) = String b "")
  /\ (forall fuel p, Type_ (curr p) = INVALID ->
        parseFactor Sscanf_other (S fuel) p
        = Returns (Nil, Some "expected a number or parenthesis, got 8") p)
  /\ (forall fuel operand left p, Type_ (curr p) = INVALID ->
        foldOps isAddOp operand (S fuel) left p = Returns (left, None) p
        /\ foldOps isMulOp operand (S fuel) left p = Returns (left, None) p)
  /\ (forall e s rest tok, spells (lexemes_expression e) s rest ->
        first_token rest = Some tok -> Type_ tok = INVALID ->
        exists p', ParseString Sscanf_other s
                   = Returns (tree_expression leaf e, None) p'
                /\ curr p' = tok)
  /\ Run Sscanf_other "2 + @"
     = Some (ErrorParsing "expected a number or parenthesis, got 8")
  /\ Run Sscanf_other "2 @ 3" = Some (Result (of_Z 2))
  /\ Run Sscanf_other "(2 @)" = Some (ErrorParsing "expected closing parenthesis").
Proof.
  split; [|split; [exact encodeRune_ascii | split; [|split; [|split]]]];
    [| | | |repeat split; vm_compute; reflexivity].
  - intros l Ok Nz Sp Dg Sy.
    destruct (NextToken_ok l Ok) as [tok [l' [N [Ok' [T U]]]]].
    destruct Ok as [_ C]. rewrite C in Nz, Sp, Dg, Sy |- *.
    assert (Sc : scan (unread l)
                 = (mkToken INVALID
                      ("Invalid character: " ++ encodeRune (head_rune (unread l))),
                    1%nat)).
    { unfold scan. rewrite (prefix_len_head IsSpace _ Sp). cbn [drop].
      apply Z.eqb_neq in Nz. rewrite Nz, Dg.
      now rewrite (symbolToken_invalid _ Sy). }
    rewrite Sc in T, U. cbn [fst snd] in T, U. subst tok.
    exists l'. auto.
  - intros fuel p T. cbn [parseFactor]. rewrite T. reflexivity.
  - intros fuel operand left p T. cbn [foldOps]. rewrite T. split; reflexivity.
  - intros e s rest tok Sp F T.
    rewrite first_token_scan in F. injection F as <-.
    destruct (ParseString_spelled Sscanf_other e s rest Sp) as [p' [P C]];
      try (rewrite T; reflexivity).
    exists p'. split; [exact P | exact C].
Qed.

(** C4.  On a LPAREN token [parseFactor] consumes it and parses a full
    expression; when the token after that expression is not RPAREN it
    fails with the error "expected closing parenthesis" (as on
    "(2 + 3"); when it is RPAREN, that token is consumed and the tree of
    the inner expression is returned as it is: parentheses add no
    node. *)
Theorem parseFactor_parenthesis :
  (forall p p1 fuel expr p2,
     Type_ (curr p) = LPAREN -> nextToken p = Some p1 ->
     (3 * tokens_left p + 1 <= fuel)%nat ->
     Parse Sscanf_other p1 = Returns (expr, None) p2 ->
     (Type_ (curr p2) <> RPAREN ->
        parseFactor Sscanf_other fuel p
        = Returns (Nil, Some "expected closing parenthesis") p2)
     /\ (Type_ (curr p2) = RPAREN -> forall p3, nextToken p2 = Some p3 ->
           parseFactor Sscanf_other fuel p = Returns (expr, None) p3))
  /\ Run Sscanf_other "(2 + 3"
     = Some (ErrorParsing "expected closing parenthesis")
  /\ (forall e, tree_factor leaf (Parens e) = tree_expression leaf e).
Proof.
  split; [|split; [vm_compute; reflexivity | reflexivity]].
  intros p p1 fuel expr p2 T N F P.
  destruct fuel as [|n]; [lia|].
  assert (L1 : (tokens_left p1 < tokens_left p)%nat)
    by (apply nextToken_left; [exact N | congruence]).
  assert (E : parseExpr Sscanf_other n p1 = Returns (expr, None) p2).
  { rewrite <- P. apply (parse_extends Sscanf_other (3 * tokens_left p1 + 3) n);
      [lia|]. apply Parse_fuel_enough. }
  cbn [parseFactor]. rewrite T, N, E. cbn [try].
  split.
  - intros R. destruct (Type_ (curr p2)); try reflexivity. congruence.
  - intros R p3 N3. now rewrite R, N3.
Qed.

(** C5.  When, after whitespace [ws], the unread input of a lexer goes
    on with the digits [ds] and no digit follows them, [NextToken]
    returns the NUMBER token with payload [ds], and the lexer is left
    with the bytes after [ds] unread, its lookahead being the first of
    them, or 0 when there is none.  The unread input has that shape
    whenever the lookahead after the whitespace is a digit. *)
Theorem NextToken_number :
  (forall l ws ds rest,
     lexer_ok l -> unread l = (ws ++ ds ++ rest)%string ->
     all_space ws = true -> Fmt.is_numeral ds = true ->
     IsDigit (head_rune rest) = false ->
     exists l', NextToken l = Some (mkToken NUMBER ds, l')
       /\ lexer_ok l' /\ unread l' = rest /\ ch l' = head_rune rest)
  /\ (forall l,
        IsDigit (head_rune (drop (prefix_len IsSpace (unread l)) (unread l))) = true ->
        exists ws ds rest,
          unread l = (ws ++ ds ++ rest)%string /\ all_space ws = true
          /\ Fmt.is_numeral ds = true /\ IsDigit (head_rune rest) = false).
Proof.
  split; [|intros l; apply digit_run_exists].
  intros l ws ds rest Ok U W D R.
  destruct (NextToken_ok l Ok) as [tok [l' [N [Ok' [T U']]]]].
  assert (Sc : scan (unread l)
               = (mkToken NUMBER ds, (String.length ws + String.length ds)%nat)).
  { rewrite U. apply (scan_spelled ws (LNumber ds) rest W D).
    cbn [separated]. now rewrite R. }
  rewrite Sc in T, U'. cbn [fst snd] in T, U'. subst tok.
  assert (UR : unread l' = rest).
  { rewrite U', U, <- app_assoc_s, <- app_length_s. apply drop_app. }
  exists l'. repeat split; try assumption; try apply Ok'.
  destruct Ok' as [_ C]. now rewrite C, UR.
Qed.

(** C6.  [Parse] does not require the end of the input: when the input
    is a generated string followed by [rest] (no digit of [rest] running
    into a numeral that ends the string), and the first token of [rest]
    is none of PLUS, MINUS, MULT and DIV, [Parse] returns the tree of
    the leading expression, with that token left as the current one and
    no error; "2 3" and "1+2)" parse (and evaluate) as "2" and "1+2". *)
Theorem Parse_ignores_trailing_tokens :
  (forall e s rest tok, spells (lexemes_expression e) s rest ->
     first_token rest = Some tok ->
     isAddOp (Type_ tok) = false -> isMulOp (Type_ tok) = false ->
     exists p', ParseString Sscanf_other s
                = Returns (tree_expression leaf e, None) p'
             /\ curr p' = tok)
  /\ Run Sscanf_other "2 3" = Some (Result (of_Z 2))
  /\ Run Sscanf_other "1+2)" = Some (Result (of_Z 3)).
Proof.
  split; [|split; vm_compute; reflexivity].
  intros e s rest tok Sp F A M.
  rewrite first_token_scan in F. injection F as <-.
  now apply ParseString_spelled.
Qed.

(** C10.  The cursor only advances: in the lexer states before and
    after each of any number of successive calls of [NextToken], [pos]
    never decreases from a state to a later one; and every [readChar],
    the only place where the input is indexed, reads at [pos] and moves
    [pos] one further, so no position is read twice. *)
Theorem cursor_only_advances :
  (forall n l, StronglySorted Z.le (map pos (lexer_states n l)))
  /\ (forall l, match readChar l with
                | Some l' => pos l' = pos l + 1 /\ input l' = input l
                | None => True
                end).
Proof.
  split; [intros n l; apply lexer_states_sorted|].
  intros l. destruct (readChar l) eqn:R; [|exact I].
  now apply readChar_pos.
Qed.

(** C7.  Two strings that spell the same lexemes, with whatever runs of
    whitespace before, between and after them, give the same tokens,
    the same outcome of [Parse] and the same printed result; "2+3" and
    " 2 +   3 " do. *)
Theorem whitespace_insensitive :
  (forall xs s1 s2 ws1 ws2,
     spells xs s1 ws1 -> spells xs s2 ws2 ->
     all_space ws1 = true -> all_space ws2 = true ->
     tokenize s1 = map token_of xs /\ tokenize s2 = map token_of xs
     /\ same_run (ParseString Sscanf_other s1) (ParseString Sscanf_other s2)
     /\ Run Sscanf_other s1 = Run Sscanf_other s2)
  /\ tokenize "2+3" = tokenize " 2 +   3 "
  /\ Run Sscanf_other "2+3" = Run Sscanf_other " 2 +   3 ".
Proof.
  split; [|split; vm_compute; reflexivity].
  intros xs s1 s2 ws1 ws2 Sp1 Sp2 W1 W2.
  split; [now apply (tokenize_spelled xs s1 ws1)|].
  split; [now apply (tokenize_spelled xs s2 ws2)|].
  assert (S : same_run (ParseString Sscanf_other s1) (ParseString Sscanf_other s2)).
  { unfold ParseString. rewrite !NewLexer_at, !NewParser_at.
    apply Parse_same. now apply (same_parser_spelled xs s1 s2 ws1 ws2). }
  split; [exact S|].
  unfold Run.
  destruct (ParseString Sscanf_other s1) as [[x1 e1] p1| |];
    destruct (ParseString Sscanf_other s2) as [[x2 e2] p2| |];
    cbn [same_run] in S; try tauto.
  destruct S as [[= <- <-] _]. reflexivity.
Qed.

(** C8 (the code departs from it).  On the numeral 1 followed by 309
    zeros, a token the lexer produces, the conversion fails: [ParseFloat]
    reports a range error, [Sscanf] stores nothing, and [parseNumber]
    returns 0, not the float64 of the numeral (an infinity); the
    input "1000...0 + 1" evaluates to 1. *)
Theorem parseNumber_out_of_range :
  Fmt.is_numeral ten_to_the_309 = true
  /\ tokenize ten_to_the_309 = [mkToken NUMBER ten_to_the_309]
  /\ of_Z (Fmt.decimal_value ten_to_the_309) = S754_infinity false
  /\ parseNumber Sscanf_other ten_to_the_309 = zero
  /\ Run Sscanf_other (ten_to_the_309 ++ " + 1") = Some (Result (of_Z 1)).
Proof.
  repeat split; vm_compute; reflexivity.
Qed.

(** C9.  Runs on the same input have the same outcome, whatever went
    on before them.  On every store of lexers and parsers, as earlier
    runs on whatever inputs have left it, a run that makes a lexer and a
    parser of its own with [NewLexer] and [NewParser] returns from
    [Parse] the same tree or error, and prints the same: what the
    program computes on values, which depends on the input alone.  The
    run leaves every object that was in the store as it was, and adds
    its lexer and its parser.  So any number of runs, one after the
    other on the same store, print the same every time.  (The state
    lies in the objects: a second [Parse] through the pointer to the
    parser that has parsed "2" fails.) *)
Theorem runs_agree :
  (forall s, exists r o p',
     ParseString Sscanf_other s = Returns r p'
     /\ Run Sscanf_other s = Some o
     /\ (forall st, Imperative.ParseString Sscanf_other s st
                    = Imperative.Done r (grown st p'))
     /\ (forall st, Imperative.Run Sscanf_other s st
                    = Imperative.Done o (grown st p'))
     /\ (forall n st, exists st',
           Imperative.Runs Sscanf_other n s st = Imperative.Done (repeat o n) st'
           /\ extends_store st st'))
  /\ Imperative.ParseString Sscanf_other "2" Imperative.empty
     = Imperative.Done (Number (of_Z 2), None)
         (grown Imperative.empty (parser_at "2" 1))
  /\ Imperative.Parse Sscanf_other (Some 0%nat)
       (grown Imperative.empty (parser_at "2" 1))
     = Imperative.Done (Nil, Some "expected a number or parenthesis, got 0")
         (grown Imperative.empty (parser_at "2" 1)).
Proof.
  split; [|split; vm_compute; reflexivity].
  intros s.
  destruct (Parse_post Sscanf_other (parser_at s 0)) as [x [err [p' [E _]]]];
    [apply parser_at_ok; lia|].
  rewrite <- ParseString_at in E.
  assert (R : forall st, Imperative.ParseString Sscanf_other s st
                         = Imperative.Done (x, err) (grown st p'))
    by (intros st; now rewrite ParseString_store, E).
  assert (O : exists o, Run Sscanf_other s = Some o).
  { unfold Run. rewrite E. destruct err; [eauto|].
    destruct (Eval x) as [v [er|]]; eauto. }
  destruct O as [o O].
  assert (Q : forall st, Imperative.Run Sscanf_other s st
                         = Imperative.Done o (grown st p'))
    by (intros st; now rewrite Run_store, E, O).
  exists (x, err), o, p'.
  split; [exact E|]. split; [exact O|]. split; [exact R|]. split; [exact Q|].
  exact (Runs_store Sscanf_other s o p' Q).
Qed.

End Claims.

(* ================================================================== *)
(** * Witnesses and counterexamples *)

Lemma parse_eval_value_witness :
  generates two_plus_three_times_four "2 + 3 * 4"
  /\ in_range_expression two_plus_three_times_four = true
  /\ Run Sscanf_fails "2 + 3 * 4"
     = Some (printed_value (value_expression two_plus_three_times_four))
  /\ exists v q r, Run Sscanf_fails "2 + 3 * 4" = Some (Result v)
       /\ float_exact v = Some q
       /\ exact_expression two_plus_three_times_four = Some r
       /\ Qeq q r /\ Qeq r (inject_Z 14).
Proof.
  assert (G : generates two_plus_three_times_four "2 + 3 * 4").
  { apply (generates_render two_plus_three_times_four
             [("", LNumber "2"); (" ", LSymbol "+"); (" ", LNumber "3");
              (" ", LSymbol "*"); (" ", LNumber "4")] "");
      reflexivity. }
  split; [exact G|]. split; [reflexivity|]. split.
  - apply (proj1 (parse_eval_value Sscanf_fails)); [exact G | reflexivity].
  - apply (proj1 (proj2 (parse_eval_value Sscanf_fails))
             two_plus_three_times_four "2 + 3 * 4" G eq_refl).
Defined.

(** C1 as stated fails: "9007199254740993" evaluates to the float64
    9007199254740992. *)
Lemma evaluates_exactly_fails : ~ exists Sscanf_other, evaluates_exactly Sscanf_other.
Proof.
  intros [scan H].
  destruct (H two_to_53_plus_1 "9007199254740993") as [v [q [r [R [F [E Q]]]]]].
  - apply (generates_render two_to_53_plus_1
             [("", LNumber "9007199254740993")] ""); reflexivity.
  - vm_compute in R. injection R as <-.
    vm_compute in F. injection F as <-.
    vm_compute in E. injection E as <-.
    vm_compute in Q. discriminate.
Qed.

Lemma Eval_division_by_zero_witness :
  DivByZero one_over_zero
  /\ Eval one_over_zero = (zero, Some "division by zero").
Proof.
  assert (D : DivByZero one_over_zero).
  { apply (proj1 (Eval_division_by_zero Sscanf_fails)). reflexivity. }
  split; [exact D|].
  apply (proj1 (proj2 (Eval_division_by_zero Sscanf_fails))). exact D.
Defined.

Lemma invalid_character_witness :
  (exists l',
     NextToken (lexer_at "@" 0)
     = Some (mkToken INVALID "Invalid character: @", l')
     /\ lexer_ok l' /\ unread l' = "")
  /\ (exists p', ParseString Sscanf_fails "2 @"
                 = Returns (Number (of_Z 2), None) p'
              /\ Type_ (curr p') = INVALID).
Proof.
  split.
  - apply (proj1 (invalid_character Sscanf_fails) (lexer_at "@" 0)).
    + vm_compute. split; [split; discriminate | reflexivity].
    + vm_compute. discriminate.
    + reflexivity.
    + reflexivity.
    + vm_compute. intuition discriminate.
  - destruct (proj1 (proj2 (proj2 (proj2 (proj2 (invalid_character Sscanf_fails)))))
                two "2 @" " @" (mkToken INVALID "Invalid character: @"))
      as [p' [P C]].
    + apply (spells_render [("", LNumber "2")] " @"). reflexivity.
    + reflexivity.
    + reflexivity.
    + exists p'. split; [exact P | now rewrite C].
Defined.

Lemma parseFactor_parenthesis_witness :
  parseFactor Sscanf_fails 30 (parser_at "(2 + 3" 0)
  = Returns (Nil, Some "expected closing parenthesis") (parser_at "(2 + 3" 6)
  /\ parseFactor Sscanf_fails 30 (parser_at "(2 + 3)" 0)
     = Returns (BinaryOp (Number (of_Z 2)) (mkToken PLUS "+") (Number (of_Z 3)),
                None)
         (parser_at "(2 + 3)" 7).
Proof.
  split.
  - refine (proj1 (proj1 (parseFactor_parenthesis Sscanf_fails)
                     (parser_at "(2 + 3" 0) (parser_at "(2 + 3" 1) 30%nat
                     (BinaryOp (Number (of_Z 2)) (mkToken PLUS "+") (Number (of_Z 3)))
                     (parser_at "(2 + 3" 6) _ _ _ _) _).
    + reflexivity.
    + vm_compute. reflexivity.
    + vm_compute. lia.
    + vm_compute. reflexivity.
    + vm_compute. discriminate.
  - refine (proj2 (proj1 (parseFactor_parenthesis Sscanf_fails)
                     (parser_at "(2 + 3)" 0) (parser_at "(2 + 3)" 1) 30%nat
                     (BinaryOp (Number (of_Z 2)) (mkToken PLUS "+") (Number (of_Z 3)))
                     (parser_at "(2 + 3)" 6) _ _ _ _) _ (parser_at "(2 + 3)" 7) _).
    + reflexivity.
    + vm_compute. reflexivity.
    + vm_compute. lia.
    + vm_compute. reflexivity.
    + reflexivity.
    + vm_compute. reflexivity.
Defined.

Lemma NextToken_number_witness :
  exists l', NextToken (lexer_at "  123+4" 0) = Some (mkToken NUMBER "123", l')
    /\ lexer_ok l' /\ unread l' = "+4" /\ ch l' = head_rune "+4".
Proof.
  apply (proj1 NextToken_number (lexer_at "  123+4" 0) "  " "123" "+4").
  - vm_compute. split; [split; discriminate | reflexivity].
  - reflexivity.
  - reflexivity.
  - reflexivity.
  - reflexivity.
Defined.

Lemma Parse_ignores_trailing_tokens_witness :
  exists p', ParseString Sscanf_fails "2 3" = Returns (Number (of_Z 2), None) p'
    /\ curr p' = mkToken NUMBER "3".
Proof.
  apply (proj1 (Parse_ignores_trailing_tokens Sscanf_fails) two "2 3" " 3").
  - apply (spells_render [("", LNumber "2")] " 3"). reflexivity.
  - reflexivity.
  - reflexivity.
  - reflexivity.
Defined.

Lemma whitespace_insensitive_witness :
  tokenize "2+3" = [mkToken NUMBER "2"; mkToken PLUS "+"; mkToken NUMBER "3"]
  /\ tokenize " 2 +   3 " = [mkToken NUMBER "2"; mkToken PLUS "+"; mkToken NUMBER "3"]
  /\ same_run (ParseString Sscanf_fails "2+3") (ParseString Sscanf_fails " 2 +   3 ")
  /\ Run Sscanf_fails "2+3" = Run Sscanf_fails " 2 +   3 ".
Proof.
  apply (proj1 (whitespace_insensitive Sscanf_fails)
           [LNumber "2"; LSymbol "+"; LNumber "3"] "2+3" " 2 +   3 " "" " ").
  - apply (spells_render [("", LNumber "2"); ("", LSymbol "+"); ("", LNumber "3")] "").
    reflexivity.
  - apply (spells_render
             [(" ", LNumber "2"); (" ", LSymbol "+"); ("   ", LNumber "3")] " ").
    reflexivity.
  - reflexivity.
  - reflexivity.
Defined.

(* ================================================================== *)
(** * Further properties of the lexer, the parser and the evaluator *)

Section Properties.

Variable Sscanf_other : string -> option float64.

Local Abbreviation leaf := (parseNumber Sscanf_other).

(** ** The lexer *)

(** X1.  The lexer never panics: on every input, [NewLexer] and any
    number [n] of calls of [NextToken] after it return (no index and no
    slice is out of range), with [n] tokens, and they leave a lexer on
    the same input that satisfies the invariant: the cursor is between
    1 and one past the end of the input, and the lookahead is the byte
    before the cursor, or 0 at the end. *)
Theorem lexer_never_panics s n :
  exists l toks l',
    NewLexer s = Some l /\ token_stream n l = Some toks
    /\ List.length toks = n /\ lexer_after n l = Some l'
    /\ input l' = s /\ lexer_ok l'.
Proof.
  pose proof (lexer_ok_at s 0 (Nat.le_0_l _)) as Ok.
  destruct (token_stream_ok n _ Ok) as [toks [S L]].
  destruct (lexer_after_ok n _ Ok) as [l' [A Ok']].
  exists (lexer_at s 0), toks, l'. rewrite NewLexer_at.
  repeat split; try assumption; try apply Ok'.
  now destruct (lexer_after_input n _ _ A) as [-> _].
Qed.

(** X2.  The end of the input is final: once [NextToken] has returned
    a token of type EOF (its payload is empty), every later call
    returns that token again and leaves the lexer as it is. *)
Theorem EOF_is_final l tok l' :
  NextToken l = Some (tok, l') -> Type_ tok = EOF ->
  tok = mkToken EOF ""
  /\ forall n, token_stream n l' = Some (repeat (mkToken EOF "") n)
               /\ lexer_after n l' = Some l'.
Proof.
  intros N T. destruct (NextToken_EOF l tok l' N T) as [-> N'].
  split; [reflexivity|]. intros n. now apply token_stream_fixed.
Qed.

(** X3.  A token other than EOF moves the cursor at least one byte
    further; so an input of [n] bytes yields at most [n] tokens before
    the first EOF, which [tokenize] collects. *)
Theorem tokens_bounded :
  (forall l tok l', NextToken l = Some (tok, l') -> Type_ tok <> EOF ->
     pos l < pos l' /\ input l' = input l)
  /\ (forall s, (List.length (tokenize s) <= String.length s)%nat
        /\ no_EOF (tokenize s)
        /\ exists l, NewLexer s = Some l
             /\ token_stream (S (List.length (tokenize s))) l
                = Some (tokenize s ++ [mkToken EOF ""])%list).
Proof.
  split.
  - intros l tok l' N T. split; [now apply (NextToken_advances l tok l')|].
    now apply (NextToken_pos l tok l').
  - intros s. destruct (tokenize_stream s) as [L [E S]].
    repeat split; try assumption.
    exists (lexer_at s 0). split; [apply NewLexer_at | exact S].
Qed.

(** X4.  [NextToken] loses nothing but whitespace: the unread input is
    a run of whitespace, the text of one lexeme (a numeral that no
    digit follows, or one byte that is not 0, whitespace or a digit)
    and the input left unread, and the token returned is the token of
    that lexeme; or it is a run of whitespace up to the end of the input
    or a byte 0, and the token is EOF. *)
Theorem NextToken_splits_input l :
  lexer_ok l ->
  exists tok l' ws,
    NextToken l = Some (tok, l') /\ lexer_ok l' /\ all_space ws = true
    /\ ((tok = mkToken EOF "" /\ unread l = (ws ++ unread l')%string
         /\ head_rune (unread l') = 0)
        \/ (exists x, lexeme_ok x = true /\ separated x (unread l') = true
              /\ tok = token_of x
              /\ unread l = (ws ++ text x ++ unread l')%string)).
Proof.
  intros Ok. destruct (NextToken_ok l Ok) as [tok [l' [N [Ok' [T U]]]]].
  destruct (scan_decomposes (unread l)) as [ws [W D]].
  exists tok, l', ws.
  split; [exact N|]. split; [exact Ok'|]. split; [exact W|].
  rewrite U, T. exact D.
Qed.

(** X5.  Every input without a byte 0 is a sequence of lexemes, each
    after a run of whitespace (possibly empty), and a last run of
    whitespace; its tokens are the tokens of these lexemes, in order. *)
Theorem input_is_lexemes s :
  NUL_free s = true ->
  exists gs ws, s = render gs ws /\ render_ok gs ws = true /\ all_space ws = true
    /\ tokenize s = map token_of (map snd gs).
Proof. apply spelled. Qed.

(** X6.  Lexing composes over whitespace: the tokens of two inputs
    (without a byte 0) joined by a non-empty run of whitespace are the
    tokens of the first followed by the tokens of the second.  Joined
    without whitespace they need not be: "1" and "2" give one token. *)
Theorem tokenize_app_space :
  (forall s1 w s2,
     NUL_free s1 = true -> NUL_free s2 = true ->
     all_space w = true -> w <> "" ->
     tokenize (s1 ++ w ++ s2) = (tokenize s1 ++ tokenize s2)%list)
  /\ tokenize ("1" ++ "2") = [mkToken NUMBER "12"].
Proof. split; [exact tokenize_app | reflexivity]. Qed.

(** X7.  A byte 0 ends the input: the lexer returns EOF when it reaches
    one, so whatever follows it is never read.  The tokens, the outcome
    of [Parse] and what is printed are those of the text before it. *)
Theorem NUL_ends_input a b :
  tokenize (a ++ String NUL b) = tokenize a
  /\ same_run (ParseString Sscanf_other (a ++ String NUL b))
              (ParseString Sscanf_other a)
  /\ Run Sscanf_other (a ++ String NUL b) = Run Sscanf_other a.
Proof.
  assert (H : head_rune (String NUL b) = 0) by reflexivity.
  assert (S : same_run (ParseString Sscanf_other (a ++ String NUL b))
                       (ParseString Sscanf_other a)).
  { rewrite !ParseString_at. apply Parse_same. now apply same_parser_app_NUL. }
  split; [|split; [exact S | now apply Run_same]].
  apply tokenize_same.
  - intros n. symmetry. apply token_stream_app_NUL; [exact H | lia].
  - rewrite app_length_s. lia.
Qed.

(** X8.  The lexer reads bytes, not characters.  A byte from 128 to
    255 is taken for the rune of that number: the bytes 133 and 160
    are skipped as whitespace (NEL and the no-break space), and any
    other is an INVALID token whose payload ends with the two bytes
    that encode that rune, not with the byte read. *)
Theorem high_bytes b rest :
  128 <= rune_of_byte b ->
  (rune_of_byte b = 133 \/ rune_of_byte b = 160 ->
     first_token (String b rest) = first_token rest)
  /\ (rune_of_byte b <> 133 -> rune_of_byte b <> 160 ->
        first_token (String b rest)
        = Some (mkToken INVALID
                  ("Invalid character: " ++ two_bytes (rune_of_byte b)))).
Proof.
  intros H. rewrite !first_token_scan.
  destruct (high_byte b H) as [[Sp Hb]|[Sp [Sy [Dg Nz]]]].
  - split; [|intros; lia]. intros _.
    change (String b rest) with (String b "" ++ rest)%string.
    rewrite scan_space; [reflexivity|]. cbn. now rewrite Sp.
  - split.
    + intros [E|E]; rewrite E in Sp; discriminate.
    + intros _ _. unfold scan. cbn [prefix_len]. rewrite Sp.
      cbn [drop head_rune fst]. apply Z.eqb_neq in Nz.
      now rewrite Nz, Dg, Sy.
Qed.

(** ** The parser *)

(** X9.  [Parse] never panics and always returns: on every input
    string, and again from every parser that [NewParser] or an earlier
    call has left, no index and no slice is out of range, the recursion
    comes to an end (the stack is taken to be as deep as it needs), and
    a tree or an error is returned, with a parser from which [Parse]
    can be called again. *)
Theorem Parse_returns :
  (forall s, exists x err p',
     ParseString Sscanf_other s = Returns (x, err) p' /\ parser_ok p')
  /\ (forall p, parser_ok p ->
        exists x err p', Parse Sscanf_other p = Returns (x, err) p' /\ parser_ok p').
Proof.
  assert (H : forall p, parser_ok p ->
            exists x err p', Parse Sscanf_other p = Returns (x, err) p' /\ parser_ok p').
  { intros p Ok. destruct (Parse_post Sscanf_other p Ok) as [x [err [p' [E P]]]].
    exists x, err, p'. split; [exact E|]. rewrite E in P.
    destruct err; cbn [parse_post] in P; apply P. }
  split; [|exact H].
  intros s. rewrite ParseString_at. apply H. apply parser_at_ok. lia.
Qed.

(** X10.  [Parse] succeeds only on what the grammar generates: when it
    returns a tree without an error, the input starts with a string
    spelled by a derivation of the grammar, the tree is the tree of
    that derivation, and the current token of the parser is the first
    token of the rest of the input and is no operator.  Hence [Parse]
    succeeds exactly on the inputs that start with a generated string
    followed by a token that is no operator. *)
Theorem Parse_success_is_derivation :
  (forall s x p',
     ParseString Sscanf_other s = Returns (x, None) p' ->
     exists e rest,
       spells (lexemes_expression e) s rest
       /\ x = tree_expression leaf e
       /\ first_token rest = Some (curr p')
       /\ isOperator (Type_ (curr p')) = false)
  /\ (forall s,
        (exists x p', ParseString Sscanf_other s = Returns (x, None) p')
        <-> (exists e rest tok,
               spells (lexemes_expression e) s rest
               /\ first_token rest = Some tok
               /\ isOperator (Type_ tok) = false)).
Proof.
  assert (H : forall s x p',
            ParseString Sscanf_other s = Returns (x, None) p' ->
            exists e rest,
              spells (lexemes_expression e) s rest
              /\ x = tree_expression leaf e
              /\ first_token rest = Some (curr p')
              /\ isOperator (Type_ (curr p')) = false).
  { intros s x p' E. rewrite ParseString_at in E.
    destruct (Parse_post Sscanf_other (parser_at s 0)) as [_ [_ [_ [_ P]]]];
      [apply parser_at_ok; lia|].
    rewrite E in P. destruct P as [_ [e [F [-> Op]]]].
    destruct (feeds_spells _ (proj1 lexemes_grammar e) s 0%nat p' (Nat.le_0_l _) F)
      as [k' [_ [-> Sp]]].
    exists e, (drop k' s). rewrite drop_0 in Sp.
    repeat split; [exact Sp | apply first_token_scan | exact Op]. }
  split; [exact H|].
  intros s. split.
  - intros [x [p' E]]. destruct (H s x p' E) as [e [rest [Sp [_ [F Op]]]]].
    now exists e, rest, (curr p').
  - intros [e [rest [tok [Sp [F Op]]]]].
    rewrite first_token_scan in F. injection F as <-.
    apply orb_false_iff in Op as [A M].
    destruct (ParseString_spelled Sscanf_other e s rest Sp A M) as [p' [P _]].
    now exists (tree_expression leaf e), p'.
Qed.

(** X11.  When [Parse] fails, the tree returned with the error is nil,
    and the error was raised on the current token of the parser:
    either it is "expected closing parenthesis" and that token is
    neither RPAREN nor an operator, or it is "expected a number or
    parenthesis, got T" where T is the number of the type of that
    token, which is neither NUMBER nor LPAREN. *)
Theorem Parse_error_on_current_token s x msg p' :
  ParseString Sscanf_other s = Returns (x, Some msg) p' ->
  x = Nil /\ parse_error (curr p') msg.
Proof.
  intros E. rewrite ParseString_at in E.
  destruct (Parse_post Sscanf_other (parser_at s 0)) as [_ [_ [_ [_ P]]]];
    [apply parser_at_ok; lia|].
  rewrite E in P. apply P.
Qed.

(** X12.  An input whose first token starts no operand is an error:
    when that token is neither NUMBER nor LPAREN, [Parse] fails with
    "expected a number or parenthesis, got T" for the type T of that
    token, without consuming it.  So the empty input and every input of
    whitespace only give "got 0" (EOF), and a leading minus sign gives
    "got 3" whatever follows: there is no unary minus. *)
Theorem first_token_must_start_operand :
  (forall s tok,
     first_token s = Some tok ->
     Type_ tok <> NUMBER -> Type_ tok <> LPAREN ->
     (exists p', ParseString Sscanf_other s
                 = Returns (Nil, Some (expected_operand (Type_ tok))) p'
              /\ curr p' = tok)
     /\ Run Sscanf_other s = Some (ErrorParsing (expected_operand (Type_ tok))))
  /\ (forall s, all_space s = true ->
        Run Sscanf_other s
        = Some (ErrorParsing "expected a number or parenthesis, got 0"))
  /\ (forall s, Run Sscanf_other ("-" ++ s)
                = Some (ErrorParsing "expected a number or parenthesis, got 3")).
Proof.
  assert (H : forall s,
            Type_ (fst (scan s)) <> NUMBER -> Type_ (fst (scan s)) <> LPAREN ->
            ParseString Sscanf_other s
            = Returns (Nil, Some (expected_operand (Type_ (fst (scan s)))))
                (parser_at s 0)).
  { intros s H1 H2. rewrite ParseString_at.
    rewrite (Parse_missing Sscanf_other (parser_at s 0)); cbn [parser_at curr drop];
      [reflexivity | exact H1 | exact H2]. }
  split; [|split].
  - intros s tok F H1 H2. rewrite first_token_scan in F. injection F as <-.
    unfold Run. rewrite (H s H1 H2). split; [|reflexivity].
    now exists (parser_at s 0).
  - intros s W. unfold Run. rewrite H; rewrite (scan_all_space s W);
      [reflexivity | discriminate | discriminate].
  - intros s. unfold Run.
    pose proof (scan_lexeme (LSymbol "-") s eq_refl eq_refl) as Sc.
    cbn [text] in Sc.
    rewrite H; rewrite Sc; [reflexivity | discriminate | discriminate].
Qed.

(** X13.  An operator needs its right operand: when the input is a
    generated string, then an operator, then a token that is neither
    NUMBER nor LPAREN (the end of the input, say), [Parse] fails with
    "expected a number or parenthesis, got T" for the type T of that
    token, which is left as the current token. *)
Theorem operator_needs_right_operand e s rest b tok :
  spells (lexemes_expression e ++ [LSymbol b])%list s rest ->
  In b ["+"; "-"; "*"; "/"]%char ->
  first_token rest = Some tok ->
  Type_ tok <> NUMBER -> Type_ tok <> LPAREN ->
  (exists p', ParseString Sscanf_other s
              = Returns (Nil, Some (expected_operand (Type_ tok))) p'
           /\ curr p' = tok)
  /\ Run Sscanf_other s = Some (ErrorParsing (expected_operand (Type_ tok))).
Proof.
  intros Sp B F B1 B2.
  rewrite first_token_scan in F. injection F as <-.
  destruct (spells_feeds _ _ _ Sp s 0%nat (drop_0 s)) as [k' [D Fd]].
  rewrite map_app in Fd. apply feeds_app_inv in Fd as [pm [F1 F2]].
  cbn [map] in F2. apply feeds_cons_inv in F2 as [C [p1 [N F2]]].
  apply feeds_nil_inv in F2. subst p1.
  assert (Cr : curr (parser_at s k') = fst (scan rest))
    by (cbn [parser_at curr]; now rewrite D).
  assert (O : isOperator (Type_ (curr pm)) = true).
  { rewrite C. cbn in B. intuition (subst b; reflexivity). }
  rewrite <- Cr in B1, B2 |- *.
  destruct (expression_dangling Sscanf_other e (parser_at s 0) pm (parser_at s k')
              F1 O N B1 B2) as [n0 H].
  assert (P : ParseString Sscanf_other s
              = Returns (Nil, Some (expected_operand (Type_ (curr (parser_at s k')))))
                  (parser_at s k')).
  { rewrite ParseString_at, (Parse_eq Sscanf_other n0); rewrite (H n0 (le_n _));
      [reflexivity | discriminate]. }
  split; [now exists (parser_at s k')|].
  unfold Run. now rewrite P.
Qed.

(** X14.  Parentheses around a whole expression change nothing: for a
    generated string [s], the strings [s] and "(" [s] ")" parse to the
    same tree, and print the same. *)
Theorem parentheses_are_transparent e s :
  generates e s ->
  (exists p1 p2,
     ParseString Sscanf_other s = Returns (tree_expression leaf e, None) p1
     /\ ParseString Sscanf_other ("(" ++ s ++ ")")
        = Returns (tree_expression leaf e, None) p2)
  /\ Run Sscanf_other ("(" ++ s ++ ")") = Run Sscanf_other s.
Proof.
  intros G.
  destruct (ParseString_generated Sscanf_other e s G) as [p1 P1].
  destruct (ParseString_generated Sscanf_other _ _ (generates_parens e s G))
    as [p2 P2].
  cbn [tree_expression tree_term tree_factor tree_term_rest tree_expression_rest]
    in P2.
  split; [now exists p1, p2|].
  unfold Run. now rewrite P1, P2.
Qed.

(** ** The evaluator *)

(** X15.  What [Eval] does on any value of type [Expr], nil pointers
    included.  It succeeds exactly on the trees that hold no nil
    pointer and no value of another type (the nil interface is one),
    that have only operators of type PLUS, MINUS, MULT and DIV, and
    whose evaluation reaches no division by a zero.  It panics exactly
    when the evaluation, left child before right child, reaches a nil
    [*Number] or a nil [*BinaryOp] before any error.  In every other
    case it returns an error, with the placeholder 0 as the number and
    one of the messages "division by zero", "invalid expression" and
    "unsupported expression type".  On a tree without nil pointers it
    is [Eval] on that tree. *)
Theorem Eval_succeeds_fails_or_panics :
  (forall n, (exists v, Eval_any n = Some (v, None))
             <-> (exists e, n = any e /\ arithmetic e = true /\ ~ DivByZero e))
  /\ (forall n, Eval_any n = None <-> NilDereference n)
  /\ (forall n v err, Eval_any n = Some (v, Some err) ->
        v = zero /\ In err Eval_errors)
  /\ (forall e, Eval_any (any e) = Some (Eval e)).
Proof.
  split; [|split; [exact Eval_any_panic | split;
                   [exact Eval_any_error | exact Eval_any_any]]].
  intros n. split.
  - intros [v E]. destruct (Eval_any_success n v E) as [e [-> Ee]].
    exists e. split; [reflexivity|].
    assert (S : snd (Eval e) = None) by now rewrite Ee.
    split; [now apply Eval_success|].
    intros D. apply DivByZero_iff in D. congruence.
  - intros [e [-> [A D]]]. rewrite Eval_any_any.
    destruct (Eval_arithmetic e A) as [E|E].
    + exists (fst (Eval e)). destruct (Eval e) as [v err]. cbn in E |- *.
      now rewrite E.
    + now apply DivByZero_iff in E.
Qed.

(** X16.  [Eval] reads the type of an operator token only, never its
    payload: trees that differ in the payloads of their operator tokens
    alone evaluate alike. *)
Theorem Eval_reads_types_only e1 e2 :
  erase e1 = erase e2 -> Eval e1 = Eval e2.
Proof. intros E. now rewrite <- (Eval_erase e1), E, Eval_erase. Qed.

(** ** The whole run *)

(** X17.  On every input the run of [main] ends, with no index or
    slice out of range, in one of these: a result; the error of
    evaluation "division by zero";
    the error of parsing "expected closing parenthesis"; or the error
    of parsing "expected a number or parenthesis, got T" for a token
    type T other than NUMBER and LPAREN.  The messages "invalid
    expression" and "unsupported expression type" of [Eval] are never
    printed: [Parse] returns no tree that raises them. *)
Theorem Run_outcomes s :
  exists o, Run Sscanf_other s = Some o /\ possible_outcome o.
Proof.
  unfold Run. rewrite ParseString_at.
  destruct (Parse_post Sscanf_other (parser_at s 0)) as [x [err [p' [E P]]]];
    [apply parser_at_ok; lia|].
  rewrite E in P |- *. destruct err as [msg|]; cbn [parse_post] in P.
  - exists (ErrorParsing msg). split; [reflexivity|].
    destruct P as [_ [_ [[-> _]|[-> [B1 B2]]]]]; cbn [possible_outcome];
      [now left | right; now exists (Type_ (curr p'))].
  - destruct P as [_ [e [_ [-> _]]]].
    pose proof (Eval_arithmetic _ (proj1 (tree_arithmetic leaf) e)) as A.
    destruct (Eval (tree_expression leaf e)) as [v [er|]]; cbn [snd] in A.
    + exists (ErrorEvaluating er). split; [reflexivity|].
      destruct A as [A|A]; [discriminate | now injection A as ->].
    + now exists (Result v).
Qed.

(** ** The conversion of numerals *)

(** X18.  [parseNumber] returns no negative number, no infinity and no
    NaN for a numeral (of at most 2^30 digits): the result is [+0] or a
    positive finite float64.  Infinities and NaN can only come from the
    arithmetic of [Eval]. *)
Theorem parseNumber_finite_nonnegative ds :
  Fmt.is_numeral ds = true -> len ds <= Fmt.hugeWid ->
  parseNumber Sscanf_other ds = zero
  \/ exists m e, parseNumber Sscanf_other ds = S754_finite false m e.
Proof. apply parseNumber_sign. Qed.

(** X19.  Numerals are read in base ten whatever their first digits:
    zeros before a numeral do not change the number it converts to
    ("007" is 7, "010" is 10). *)
Theorem parseNumber_leading_zeros :
  (forall k ds,
     Fmt.is_numeral ds = true -> len (zeros k ++ ds) <= Fmt.hugeWid ->
     parseNumber Sscanf_other (zeros k ++ ds) = parseNumber Sscanf_other ds)
  /\ parseNumber Sscanf_other "007" = of_Z 7
  /\ parseNumber Sscanf_other "010" = of_Z 10.
Proof.
  split; [intros k ds; apply parseNumber_zeros|].
  split; vm_compute; reflexivity.
Qed.

(** X20.  [Parse] can be called again where it stopped: when the input
    spells one derivation after another, the first call returns the
    tree of the first and stops on the first token of the second, and a
    second call on the same parser returns the tree of the second and
    stops at the end of the input. *)
Theorem Parse_again e1 e2 s ws :
  spells (lexemes_expression e1 ++ lexemes_expression e2)%list s ws ->
  all_space ws = true ->
  exists p1 p2,
    ParseString Sscanf_other s = Returns (tree_expression leaf e1, None) p1
    /\ Parse Sscanf_other p1 = Returns (tree_expression leaf e2, None) p2
    /\ curr p2 = mkToken EOF "".
Proof.
  intros Sp W.
  destruct (spells_feeds _ _ _ Sp s 0%nat (drop_0 s)) as [k' [D F]].
  rewrite map_app in F. apply feeds_app_inv in F as [pm [F1 F2]].
  assert (C2 : curr (parser_at s k') = mkToken EOF "").
  { cbn [parser_at curr]. now rewrite D, (scan_all_space ws W). }
  assert (Cm : isOperator (Type_ (curr pm)) = false).
  { destruct (lexemes_expression_head e2) as [x [xs [E O]]].
    rewrite E in F2. cbn [map] in F2.
    apply feeds_cons_inv in F2 as [C _]. now rewrite C. }
  exists pm, (parser_at s k'). rewrite ParseString_at.
  split; [now apply Parse_fed|].
  split; [|exact C2].
  apply Parse_fed; [exact F2 | now rewrite C2].
Qed.

(** X21.  The operands of an addition or a multiplication can be
    exchanged: when both evaluate without an error, the node evaluates
    to the same float64 either way.  (An error of an operand is
    another matter: the one of the left operand is returned first.) *)
Theorem Eval_commutes a b op :
  Type_ op = PLUS \/ Type_ op = MULT ->
  snd (Eval a) = None -> snd (Eval b) = None ->
  Eval (BinaryOp a op b) = Eval (BinaryOp b op a).
Proof.
  intros T A B. cbn [Eval].
  destruct (Eval a) as [va [ea|]]; [discriminate|].
  destruct (Eval b) as [vb [eb|]]; [discriminate|].
  destruct T as [T|T]; rewrite T; [now rewrite add_comm | now rewrite mul_comm].
Qed.

(** X22.  The parser sees the input through its tokens only: two
    inputs with the same tokens before the end of the input give the
    same outcome of [Parse] (the same tree or error, and parsers that
    go on alike) and print the same. *)
Theorem parser_sees_tokens_only s1 s2 :
  tokenize s1 = tokenize s2 ->
  same_run (ParseString Sscanf_other s1) (ParseString Sscanf_other s2)
  /\ Run Sscanf_other s1 = Run Sscanf_other s2.
Proof.
  intros E.
  assert (S : same_run (ParseString Sscanf_other s1) (ParseString Sscanf_other s2)).
  { rewrite !ParseString_at. apply Parse_same. now apply same_parser_tokenize. }
  split; [exact S | now apply Run_same].
Qed.

End Properties.

(* ================================================================== *)
(** * Instances of the properties *)

Lemma EOF_is_final_witness :
  NextToken (lexer_at "2 " 1) = Some (mkToken EOF "", lexer_at "2 " 2)
  /\ token_stream 3 (lexer_at "2 " 2)
     = Some [mkToken EOF ""; mkToken EOF ""; mkToken EOF ""]
  /\ lexer_after 3 (lexer_at "2 " 2) = Some (lexer_at "2 " 2).
Proof.
  assert (N : NextToken (lexer_at "2 " 1) = Some (mkToken EOF "", lexer_at "2 " 2))
    by (vm_compute; reflexivity).
  split; [exact N|].
  exact (proj2 (EOF_is_final (lexer_at "2 " 1) (mkToken EOF "") (lexer_at "2 " 2)
                  N eq_refl) 3%nat).
Defined.

Lemma tokens_bounded_witness :
  NextToken (lexer_at "12+" 0) = Some (mkToken NUMBER "12", lexer_at "12+" 2)
  /\ pos (lexer_at "12+" 0) < pos (lexer_at "12+" 2)
  /\ input (lexer_at "12+" 2) = input (lexer_at "12+" 0).
Proof.
  assert (N : NextToken (lexer_at "12+" 0)
              = Some (mkToken NUMBER "12", lexer_at "12+" 2))
    by (vm_compute; reflexivity).
  split; [exact N|].
  apply (proj1 tokens_bounded (lexer_at "12+" 0) (mkToken NUMBER "12")
           (lexer_at "12+" 2) N).
  discriminate.
Defined.

Lemma NextToken_splits_input_witness :
  lexer_ok (lexer_at " 12+3" 0)
  /\ exists tok l' ws,
       NextToken (lexer_at " 12+3" 0) = Some (tok, l') /\ lexer_ok l'
       /\ all_space ws = true
       /\ ((tok = mkToken EOF ""
            /\ unread (lexer_at " 12+3" 0) = (ws ++ unread l')%string
            /\ head_rune (unread l') = 0)
           \/ (exists x, lexeme_ok x = true /\ separated x (unread l') = true
                 /\ tok = token_of x
                 /\ unread (lexer_at " 12+3" 0)
                    = (ws ++ text x ++ unread l')%string)).
Proof.
  assert (Ok : lexer_ok (lexer_at " 12+3" 0)).
  { vm_compute. split; [split; discriminate | reflexivity]. }
  split; [exact Ok|].
  apply (NextToken_splits_input (lexer_at " 12+3" 0) Ok).
Defined.

Lemma input_is_lexemes_witness :
  exists gs ws, "1 + 2" = render gs ws /\ render_ok gs ws = true
    /\ all_space ws = true
    /\ tokenize "1 + 2" = map token_of (map snd gs).
Proof. apply (input_is_lexemes "1 + 2"). reflexivity. Defined.

Lemma tokenize_app_space_witness :
  tokenize ("1" ++ " " ++ "2") = [mkToken NUMBER "1"; mkToken NUMBER "2"].
Proof.
  apply (proj1 tokenize_app_space "1" " " "2"); try reflexivity. discriminate.
Defined.

Lemma high_bytes_witness :
  first_token (String "160" "7") = first_token "7"
  /\ first_token (String "233" "7")
     = Some (mkToken INVALID ("Invalid character: " ++ String "195" (String "169" ""))).
Proof.
  split.
  - apply (proj1 (high_bytes "160" "7" ltac:(vm_compute; discriminate))).
    right. reflexivity.
  - apply (proj2 (high_bytes "233" "7" ltac:(vm_compute; discriminate)));
      vm_compute; discriminate.
Defined.

Lemma Parse_returns_witness :
  parser_ok (parser_at "2 3" 1)
  /\ exists x err p',
       Parse Sscanf_fails (parser_at "2 3" 1) = Returns (x, err) p' /\ parser_ok p'.
Proof.
  assert (Ok : parser_ok (parser_at "2 3" 1)).
  { exists (lexer_at "2 3" 1). split.
    - vm_compute. split; [split; discriminate | reflexivity].
    - vm_compute. reflexivity. }
  split; [exact Ok|].
  apply (proj2 (Parse_returns Sscanf_fails) (parser_at "2 3" 1) Ok).
Defined.

Lemma Parse_success_is_derivation_witness :
  exists e rest,
    spells (lexemes_expression e) "2 + 3)" rest
    /\ BinaryOp (Number (of_Z 2)) (mkToken PLUS "+") (Number (of_Z 3))
       = tree_expression (parseNumber Sscanf_fails) e
    /\ first_token rest = Some (curr (parser_at "2 + 3)" 5))
    /\ isOperator (Type_ (curr (parser_at "2 + 3)" 5))) = false.
Proof.
  apply (proj1 (Parse_success_is_derivation Sscanf_fails) "2 + 3)").
  vm_compute. reflexivity.
Defined.

Lemma Parse_error_on_current_token_witness :
  Nil = Nil
  /\ parse_error (curr (parser_at "(2 3" 3)) "expected closing parenthesis".
Proof.
  apply (Parse_error_on_current_token Sscanf_fails "(2 3" Nil
           "expected closing parenthesis" (parser_at "(2 3" 3)).
  vm_compute. reflexivity.
Defined.

Lemma first_token_must_start_operand_witness :
  (exists p', ParseString Sscanf_fails "* 2"
              = Returns (Nil, Some "expected a number or parenthesis, got 4") p'
           /\ curr p' = mkToken MULT "*")
  /\ Run Sscanf_fails "* 2"
     = Some (ErrorParsing "expected a number or parenthesis, got 4")
  /\ Run Sscanf_fails "  "
     = Some (ErrorParsing "expected a number or parenthesis, got 0").
Proof.
  destruct (proj1 (first_token_must_start_operand Sscanf_fails) "* 2"
              (mkToken MULT "*") eq_refl) as [P R];
    try discriminate.
  split; [exact P|]. split; [exact R|].
  apply (proj1 (proj2 (first_token_must_start_operand Sscanf_fails)) "  ").
  reflexivity.
Defined.

Lemma operator_needs_right_operand_witness :
  (exists p', ParseString Sscanf_fails "2 * 3 +"
              = Returns (Nil, Some "expected a number or parenthesis, got 0") p'
           /\ curr p' = mkToken EOF "")
  /\ Run Sscanf_fails "2 * 3 +"
     = Some (ErrorParsing "expected a number or parenthesis, got 0").
Proof.
  apply (operator_needs_right_operand Sscanf_fails
           (Expression
              (Term (Numeral D2 []) (MoreFactors OpStar (Numeral D3 []) NoMoreFactors))
              NoMoreTerms)
           "2 * 3 +" "" "+"%char (mkToken EOF "")).
  - apply (spells_render
             [("", LNumber "2"); (" ", LSymbol "*"); (" ", LNumber "3");
              (" ", LSymbol "+")] "").
    reflexivity.
  - cbn. auto.
  - reflexivity.
  - discriminate.
  - discriminate.
Defined.

Lemma parentheses_are_transparent_witness :
  (exists p1 p2,
     ParseString Sscanf_fails "2 + 3 * 4"
     = Returns (tree_expression (parseNumber Sscanf_fails) two_plus_three_times_four,
                None) p1
     /\ ParseString Sscanf_fails ("(" ++ "2 + 3 * 4" ++ ")")
        = Returns (tree_expression (parseNumber Sscanf_fails) two_plus_three_times_four,
                   None) p2)
  /\ Run Sscanf_fails ("(" ++ "2 + 3 * 4" ++ ")") = Run Sscanf_fails "2 + 3 * 4".
Proof.
  apply (parentheses_are_transparent Sscanf_fails).
  apply (generates_render two_plus_three_times_four
           [("", LNumber "2"); (" ", LSymbol "+"); (" ", LNumber "3");
            (" ", LSymbol "*"); (" ", LNumber "4")] "");
    reflexivity.
Defined.

Lemma Eval_succeeds_fails_or_panics_witness :
  (exists e, BinaryOpAt (NumberAt (of_Z 1)) (mkToken DIV "/") (NumberAt (of_Z 2)) = any e
     /\ arithmetic e = true /\ ~ DivByZero e)
  /\ NilDereference
       (BinaryOpAt (NumberAt (of_Z 1)) (mkToken PLUS "+")
          (BinaryOpAt NilNumber (mkToken LPAREN "(") Other))
  /\ (zero = zero /\ In "unsupported expression type" Eval_errors).
Proof.
  split; [|split].
  - apply (proj1 (proj1 Eval_succeeds_fails_or_panics
                    (BinaryOpAt (NumberAt (of_Z 1)) (mkToken DIV "/")
                       (NumberAt (of_Z 2))))).
    exists (div (of_Z 1) (of_Z 2)). vm_compute. reflexivity.
  - apply (proj1 (proj1 (proj2 Eval_succeeds_fails_or_panics)
                    (BinaryOpAt (NumberAt (of_Z 1)) (mkToken PLUS "+")
                       (BinaryOpAt NilNumber (mkToken LPAREN "(") Other)))).
    reflexivity.
  - apply (proj1 (proj2 (proj2 Eval_succeeds_fails_or_panics))
             (BinaryOpAt (NumberAt (of_Z 1)) (mkToken MULT "*") Other)).
    reflexivity.
Defined.

Lemma Eval_reads_types_only_witness :
  Eval (BinaryOp (Number (of_Z 1)) (mkToken PLUS "+") (Number (of_Z 2)))
  = Eval (BinaryOp (Number (of_Z 1)) (mkToken PLUS "plus") (Number (of_Z 2))).
Proof. apply Eval_reads_types_only. reflexivity. Defined.

Lemma parseNumber_finite_nonnegative_witness :
  parseNumber Sscanf_fails ten_to_the_309 = zero
  \/ exists m e, parseNumber Sscanf_fails ten_to_the_309 = S754_finite false m e.
Proof.
  apply (parseNumber_finite_nonnegative Sscanf_fails ten_to_the_309).
  - reflexivity.
  - vm_compute. discriminate.
Defined.

Lemma parseNumber_leading_zeros_witness :
  parseNumber Sscanf_fails (zeros 2 ++ "7") = parseNumber Sscanf_fails "7".
Proof.
  apply (proj1 (parseNumber_leading_zeros Sscanf_fails) 2%nat "7").
  - reflexivity.
  - vm_compute. discriminate.
Defined.

Lemma Parse_again_witness :
  exists p1 p2,
    ParseString Sscanf_fails "2 (2)"
    = Returns (tree_expression (parseNumber Sscanf_fails) two, None) p1
    /\ Parse Sscanf_fails p1
       = Returns (tree_expression (parseNumber Sscanf_fails)
                    (Expression (Term (Parens two) NoMoreFactors) NoMoreTerms),
                  None) p2
    /\ curr p2 = mkToken EOF "".
Proof.
  apply (Parse_again Sscanf_fails two
           (Expression (Term (Parens two) NoMoreFactors) NoMoreTerms) "2 (2)" "").
  - apply (spells_render
             [("", LNumber "2"); (" ", LSymbol "("); ("", LNumber "2");
              ("", LSymbol ")")] "").
    reflexivity.
  - reflexivity.
Defined.

Lemma Eval_commutes_witness :
  Eval (BinaryOp (Number (of_Z 2)) (mkToken MULT "*") (Number (of_Z 3)))
  = Eval (BinaryOp (Number (of_Z 3)) (mkToken MULT "*") (Number (of_Z 2))).
Proof.
  apply Eval_commutes; [right|..]; reflexivity.
Defined.

Lemma parser_sees_tokens_only_witness :
  same_run (ParseString Sscanf_fails "(1+2)*3") (ParseString Sscanf_fails " ( 1 + 2 ) * 3 ")
  /\ Run Sscanf_fails "(1+2)*3" = Run Sscanf_fails " ( 1 + 2 ) * 3 ".
Proof.
  apply (parser_sees_tokens_only Sscanf_fails "(1+2)*3" " ( 1 + 2 ) * 3 ").
  vm_compute. reflexivity.
Defined.
